(** * City generator: a shallow embedding of [main.py]

    The generator is a command-line Python program made of five classes:
    [LSystem] (string rewriting), [StreetGenerator] (turtle interpretation
    of the rewritten string), [VoronoiGenerator] (filtering of the regions
    of a Voronoi diagram), [CellularAutomaton] (rivers and mountains) and
    [BuildingGenerator] (buildings along streets and inside districts).

    Conventions of the embedding.
    - Python [int] is [Z].  Python [float] is [R] in the five classes as
      they are modelled first: [math.cos], [math.sin], [math.sqrt] and the
      arithmetic operators are the real ones, and rounding is absent.  The
      code whose outcome depends on rounding (the street loop, the distance
      of two points and the frontage loop) is modelled a second time in
      [Machine], over any arithmetic, with the real numbers and the IEEE
      doubles as instances; the statements that rounding can break are made
      there.
    - A [dict] is a [gmap]; a [str] is a [string] and its characters are
      [ascii]; a [list] is a [list], [append] adds at the end.
    - The module [random] is a tape of raw draws and a cursor; every call
      reads one cell.  A computation that uses it is a function from the
      generator state to an optional result and the next state, [None]
      standing for a raised exception ([ValueError], [IndexError]).
    - An object with mutable attributes is a record; a method takes the
      record and returns the updated one next to its result. *)

From Stdlib Require Import Floats ZArith List String Ascii Reals Lra Lia.
From stdpp Require Import base option list strings gmap.
Import ListNotations.
Local Open Scope Z_scope.

(** ** Data classes *)

Record Point := mkPoint { p_x : R; p_y : R }.

Record Street := mkStreet {
  street_start : Point;
  street_end : Point;
  street_width : R;
  street_type : string
}.

Record Building := mkBuilding {
  building_position : Point;
  building_width : R;
  building_height : R;
  building_type : string
}.

Record River := mkRiver { river_points : list Point; river_width : R }.

Record Mountain := mkMountain {
  mountain_center : Point;
  mountain_radius : R;
  mountain_height : R
}.

(** [Point.distance_to] *)
Definition distance_to (self other : Point) : R :=
  sqrt ((p_x self - p_x other) ^ 2 + (p_y self - p_y other) ^ 2).

(** ** Comparisons on floats, as booleans *)

Definition Rleb (a b : R) : bool := if Rle_dec a b then true else false.
Definition Rltb (a b : R) : bool := if Rlt_dec a b then true else false.

(** ** The random source *)

Record Rng := mkRng { tape : nat -> N; cursor : nat }.

Definition Rand (A : Type) : Type := Rng -> option (A * Rng).

Definition ret {A} (a : A) : Rand A := fun g => Some (a, g).

Definition bind {A B} (m : Rand A) (k : A -> Rand B) : Rand B :=
  fun g => match m g with
           | Some (a, g') => k a g'
           | None => None
           end.

Definition raise {A} : Rand A := fun _ => None.

Declare Scope rand_scope.
Delimit Scope rand_scope with rand.
Notation "x <- m ;; k" := (bind m (fun x => k))
  (at level 100, m at level 99, right associativity) : rand_scope.
Local Open Scope rand_scope.

(** One raw draw: the cell under the cursor. *)
Definition next_raw : Rand N :=
  fun g => Some (tape g (cursor g), mkRng (tape g) (S (cursor g))).

(** [random.random()]: a multiple of 2^-53 in [0, 1). *)
Definition random : Rand R :=
  n <- next_raw ;; ret (IZR (Z.of_N n mod 2 ^ 53) / IZR (2 ^ 53))%R.

(** [random.uniform(a, b)] is [a + (b - a) * random()]. *)
Definition uniform (a b : R) : Rand R :=
  u <- random ;; ret (a + (b - a) * u)%R.

(** [random.randint(a, b)]: an integer of [a..b]; [ValueError] when the
    range is empty. *)
Definition randint (a b : Z) : Rand Z :=
  if b <? a then raise
  else n <- next_raw ;; ret (a + Z.of_N n mod (b - a + 1)).

(** [random.choice(seq)]: an element of [seq]; [IndexError] when [seq] is
    empty. *)
Definition choice {A} (seq : list A) : Rand A :=
  n <- next_raw ;;
  match seq !! (N.to_nat n mod length seq)%nat with
  | Some a => ret a
  | None => raise
  end.

(** A [for] loop over a list whose body threads an accumulator. *)
Fixpoint for_each {A S} (body : A -> S -> Rand S) (l : list A) (s : S) : Rand S :=
  match l with
  | [] => ret s
  | a :: l' => s' <- body a s ;; for_each body l' s'
  end.

(** A [for _ in range(n)] loop. *)
Fixpoint repeat_n {S} (n : nat) (body : S -> Rand S) (s : S) : Rand S :=
  match n with
  | O => ret s
  | S n' => s' <- body s ;; repeat_n n' body s'
  end.

(** ** [LSystem] *)

Module LSystem.

Record t := mk { axiom : string; rules : gmap string string }.

(** [self.rules.get(char, char)] *)
Definition rules_get (rules : gmap string string) (char : ascii) : string :=
  default (String char EmptyString) (rules !! String char EmptyString).

(** The inner loop: [for char in result: new_result += rules.get(char, char)]. *)
Fixpoint expand (rules : gmap string string) (result new_result : string) : string :=
  match result with
  | EmptyString => new_result
  | String char rest => expand rules rest (new_result +:+ rules_get rules char)
  end.

(** [LSystem.generate]; [range(iterations)] is empty for a negative count. *)
Definition generate (self : t) (iterations : Z) : string :=
  Nat.iter (Z.to_nat iterations) (fun result => expand (rules self) result "") (axiom self).

End LSystem.

(** The rewriting the grammar engine is meant to compute, stated on its own:
    every symbol is replaced by its right-hand side, the symbol itself when
    it has no rule, and the pieces are concatenated in order. *)
Definition rewrite_symbol (rules : gmap string string) (c : ascii) : string :=
  match rules !! String c EmptyString with
  | Some rhs => rhs
  | None => String c EmptyString
  end.

Definition rewrite_all (rules : gmap string string) (s : string) : string :=
  fold_right String.append EmptyString (map (rewrite_symbol rules) (list_ascii_of_string s)).

Fixpoint rewrite_times (rules : gmap string string) (n : nat) (s : string) : string :=
  match n with
  | O => s
  | S n' => rewrite_all rules (rewrite_times rules n' s)
  end.

(** The rules [StreetGenerator.__init__] installs. *)
Definition street_rules : gmap string string :=
  <["F" := "F+F-F-F+F"]> (<["+" := "+"]> (<["-" := "-"]> ∅)).

(** ** [StreetGenerator] *)

Module StreetGenerator.

Record t := mk {
  width : Z;
  height : Z;
  streets : list Street;
  l_system : LSystem.t
}.

(** [__init__] *)
Definition new (width height : Z) : t :=
  mk width height [] (LSystem.mk "F" street_rules).

(** The local variables of [generate_streets].  The head of [stack] is the
    entry [stack.pop()] returns. *)
Record turtle := mkTurtle {
  x : R;
  y : R;
  angle : Z;
  stack : list (R * R * Z)
}.

Definition step_size : Z := 8.
Definition angle_step : Z := 90.

(** [math.radians] *)
Definition radians (deg : R) : R := (deg * (PI / 180))%R.

(** [0 <= new_x <= self.width and 0 <= new_y <= self.height] *)
Definition in_bounds (self : t) (new_x new_y : R) : bool :=
  Rleb 0 new_x && Rleb new_x (IZR (width self))
  && Rleb 0 new_y && Rleb new_y (IZR (height self)).

Definition new_x (tu : turtle) : R :=
  (x tu + IZR step_size * cos (radians (IZR (angle tu))))%R.

Definition new_y (tu : turtle) : R :=
  (y tu + IZR step_size * sin (radians (IZR (angle tu))))%R.

(** The body of [for char in l_string], on the locals and [self.streets]. *)
Definition interpret (self : t) (char : ascii) (st : turtle * list Street)
  : Rand (turtle * list Street) :=
  let tu := fst st in
  let streets := snd st in
  if (char =? "F")%char then
    streets' <-
      (if in_bounds self (new_x tu) (new_y tu) then
         w <- uniform 0.5 2.0 ;;
         ty <- choice ["main"; "secondary"; "residential"]%string ;;
         ret (streets ++ [mkStreet (mkPoint (x tu) (y tu))
                                   (mkPoint (new_x tu) (new_y tu)) w ty])
       else ret streets) ;;
    ret (mkTurtle (new_x tu) (new_y tu) (angle tu) (stack tu), streets')
  else if (char =? "+")%char then
    ret (mkTurtle (x tu) (y tu) (angle tu + angle_step) (stack tu), streets)
  else if (char =? "-")%char then
    ret (mkTurtle (x tu) (y tu) (angle tu - angle_step) (stack tu), streets)
  else if (char =? "[")%char then
    ret (mkTurtle (x tu) (y tu) (angle tu)
                  ((x tu, y tu, angle tu) :: stack tu), streets)
  else if (char =? "]")%char then
    match stack tu with
    | (x', y', angle') :: rest => ret (mkTurtle x' y' angle' rest, streets)
    | [] => ret st
    end
  else ret st.

(** The turtle before the first symbol: the canvas centre, heading 0. *)
Definition start (self : t) : turtle :=
  mkTurtle (IZR (width self / 2)) (IZR (height self / 2)) 0 [].

(** The loop of [generate_streets] over a symbol string. *)
Definition run (self : t) (l_string : string) (st : turtle * list Street)
  : Rand (turtle * list Street) :=
  for_each (interpret self) (list_ascii_of_string l_string) st.

(** [generate_streets]: the object after the call and the returned list,
    which is [self.streets] itself. *)
Definition generate_streets (self : t) (iterations : Z) : Rand (t * list Street) :=
  let l_string := LSystem.generate (l_system self) iterations in
  r <- run self l_string (start self, streets self) ;;
  ret (mk (width self) (height self) (snd r) (l_system self), snd r).

End StreetGenerator.

(** ** [VoronoiGenerator] *)

Module VoronoiGenerator.

Record t := mk {
  width : Z;
  height : Z;
  districts : list (list Point)
}.

Definition new (width height : Z) : t := mk width height [].

(** The attributes of scipy's [Voronoi] object that [generate_districts]
    reads.  The sampling of the seeds and the computation of the diagram
    happen in numpy and scipy; the method is modelled from the diagram on. *)
Record Voronoi := mkVoronoi {
  vertices : list (R * R);
  regions : list (list Z);
  point_region : list Z
}.

(** [seq[i]]: a negative index counts from the end, an index out of range
    raises [IndexError]. *)
Definition index {A} (seq : list A) (i : Z) : option A :=
  let n := Z.of_nat (length seq) in
  if (0 <=? i) && (i <? n) then seq !! Z.to_nat i
  else if (- n <=? i) && (i <? 0) then seq !! Z.to_nat (n + i)
  else None.

(** [-1 not in region and len(region) > 0] *)
Definition keep (region : list Z) : bool :=
  bool_decide ((-1) ∉ region) && (0 <? length region)%nat.

(** [Point(vor.vertices[i][0], vor.vertices[i][1])] *)
Definition vertex_point (vor : Voronoi) (i : Z) : option Point :=
  v ← index (vertices vor) i; Some (mkPoint (fst v) (snd v)).

(** The loop [for region_idx in vor.point_region]. *)
Fixpoint collect (vor : Voronoi) (idxs : list Z) (districts : list (list Point))
  : option (list (list Point)) :=
  match idxs with
  | [] => Some districts
  | region_idx :: rest =>
      region ← index (regions vor) region_idx;
      if keep region then
        district_points ← mapM (vertex_point vor) region;
        collect vor rest (districts ++ [district_points])
      else collect vor rest districts
  end.

(** [generate_districts], given the diagram [Voronoi(points)]. *)
Definition generate_districts (self : t) (vor : Voronoi)
  : option (t * list (list Point)) :=
  districts ← collect vor (point_region vor) [];
  Some (mk (width self) (height self) districts, districts).

End VoronoiGenerator.

(** ** [CellularAutomaton] *)

Module CellularAutomaton.

(** [self.grid] is written by [__init__] only and never read. *)
Record t := mk { width : Z; height : Z }.

(** The body of the walk loop, on [river_points], [current_x] and
    [current_y]. *)
Definition walk_step (self : t) (st : list Point * Z * Z)
  : Rand (list Point * Z * Z) :=
  let '(river_points, current_x, current_y) := st in
  direction_x <-
    (if current_x <? width self / 2 then choice [0; 1] else choice [-1; 0]) ;;
  direction_y <-
    (if current_y <? height self / 2 then choice [0; 1] else choice [-1; 0]) ;;
  let new_x := Z.max 0 (Z.min (width self - 1) (current_x + direction_x)) in
  let new_y := Z.max 0 (Z.min (height self - 1) (current_y + direction_y)) in
  if bool_decide ((new_x, new_y) <> (current_x, current_y)) then
    ret (river_points ++ [mkPoint (IZR new_x) (IZR new_y)], new_x, new_y)
  else ret st.

(** The spawn point on an edge of the canvas. *)
Definition spawn (self : t) : Rand (Z * Z) :=
  side <- random ;;
  if Rltb side 0.5 then
    end_ <- random ;;
    start_y <- randint 0 (height self - 1) ;;
    ret (if Rltb end_ 0.5 then 0 else width self - 1, start_y)
  else
    start_x <- randint 0 (width self - 1) ;;
    end_ <- random ;;
    ret (start_x, if Rltb end_ 0.5 then 0 else height self - 1).

(** One turn of [for _ in range(num_rivers)]. *)
Definition generate_river (self : t) : Rand River :=
  s <- spawn self ;;
  steps <- randint 20 50 ;;
  w <- repeat_n (Z.to_nat steps) (walk_step self)
         ([mkPoint (IZR (fst s)) (IZR (snd s))], fst s, snd s) ;;
  river_width <- uniform 0.5 2.0 ;;
  ret (mkRiver (fst (fst w)) river_width).

Definition generate_rivers (self : t) (num_rivers : Z) : Rand (list River) :=
  repeat_n (Z.to_nat num_rivers)
    (fun rivers => r <- generate_river self ;; ret (rivers ++ [r])) [].

Definition generate_mountain (self : t) : Rand Mountain :=
  cx <- uniform 0 (IZR (width self)) ;;
  cy <- uniform 0 (IZR (height self)) ;;
  radius <- uniform 5 15 ;;
  h <- uniform 0.5 1.0 ;;
  ret (mkMountain (mkPoint cx cy) radius h).

Definition generate_mountains (self : t) (num_mountains : Z) : Rand (list Mountain) :=
  repeat_n (Z.to_nat num_mountains)
    (fun mountains => m <- generate_mountain self ;; ret (mountains ++ [m])) [].

End CellularAutomaton.

(** ** [BuildingGenerator] *)

Module BuildingGenerator.

Record t := mk {
  width : Z;
  height : Z;
  buildings : list Building
}.

Definition new (width height : Z) : t := mk width height [].

(** [int(f)] on a float: truncation toward zero. *)
Definition int (f : R) : Z := if Rle_dec 0 f then Zfloor f else Zceil f.

(** [sum(...)] of floats: the additions start from 0, left to right. *)
Definition sum (l : list R) : R := fold_left Rplus l 0%R.

Definition building_types : list string :=
  ["residential"; "commercial"; "industrial"]%string.

(** [t = i / max(1, num_street_buildings - 1)] *)
Definition param (num_street_buildings i : Z) : R :=
  (IZR i / IZR (Z.max 1 (num_street_buildings - 1)))%R.

(** The body of [for i in range(num_street_buildings)]. *)
Definition frontage (street : Street) (num_street_buildings i : Z)
    (buildings : list Building) : Rand (list Building) :=
  let t := param num_street_buildings i in
  let s := street_start street in
  let e := street_end street in
  let pos_x := (p_x s + t * (p_x e - p_x s))%R in
  let pos_y := (p_y s + t * (p_y e - p_y s))%R in
  offset_x <- uniform (-1) 1 ;;
  offset_y <- uniform (-1) 1 ;;
  w <- uniform 0.5 2.0 ;;
  h <- uniform 0.5 2.0 ;;
  ty <- choice building_types ;;
  ret (buildings ++
       [mkBuilding (mkPoint (pos_x + offset_x) (pos_y + offset_y)) w h ty]).

Definition num_street_buildings (street : Street) : Z :=
  let street_length := distance_to (street_start street) (street_end street) in
  int (street_length / 3).

(** The body of [for street in streets]. *)
Definition street_buildings (street : Street) (buildings : list Building)
  : Rand (list Building) :=
  let n := num_street_buildings street in
  for_each (frontage street n) (seqZ 0 n) buildings.

Definition center_x (district : list Point) : R :=
  (sum (map p_x district) / INR (length district))%R.

Definition center_y (district : list Point) : R :=
  (sum (map p_y district) / INR (length district))%R.

(** The body of [for _ in range(district_buildings)]. *)
Definition interior (district : list Point) (buildings : list Building)
  : Rand (list Building) :=
  jitter_x <- uniform (-10) 10 ;;
  jitter_y <- uniform (-10) 10 ;;
  w <- uniform 0.5 2.0 ;;
  h <- uniform 0.5 2.0 ;;
  ty <- choice building_types ;;
  ret (buildings ++
       [mkBuilding (mkPoint (center_x district + jitter_x)
                            (center_y district + jitter_y)) w h ty]).

(** The body of [for district in districts]. *)
Definition district_buildings (district : list Point) (buildings : list Building)
  : Rand (list Building) :=
  if (length district <? 3)%nat then ret buildings
  else
    n <- randint 5 15 ;;
    repeat_n (Z.to_nat n) (interior district) buildings.

(** [generate_buildings]; [num_buildings] is not read by the body. *)
Definition generate_buildings (self : t) (streets : list Street)
    (districts : list (list Point)) (num_buildings : Z)
  : Rand (t * list Building) :=
  bs <- for_each street_buildings streets [] ;;
  bs' <- for_each district_buildings districts bs ;;
  ret (mk (width self) (height self) bs', bs').

End BuildingGenerator.

(** ** [CityGenerator] *)

Module CityGenerator.

Record t := mk {
  width : Z;
  height : Z;
  street_generator : StreetGenerator.t;
  voronoi_generator : VoronoiGenerator.t;
  cellular_automaton : CellularAutomaton.t;
  building_generator : BuildingGenerator.t;
  streets : list Street;
  districts : list (list Point);
  rivers : list River;
  mountains : list Mountain;
  buildings : list Building
}.

(** [__init__] *)
Definition new (width height : Z) : t :=
  mk width height
     (StreetGenerator.new width height) (VoronoiGenerator.new width height)
     (CellularAutomaton.mk width height) (BuildingGenerator.new width height)
     [] [] [] [] [].

(** A call that reads no draw, in the generator-passing style. *)
Definition lift {A} (o : option A) : Rand A :=
  fun g => match o with
           | Some a => Some (a, g)
           | None => None
           end.

(** [generate_city], given the diagram of the seeds; the progress messages
    it prints are not modelled. *)
Definition generate_city (self : t) (street_iterations : Z)
    (vor : VoronoiGenerator.Voronoi)
    (num_rivers num_mountains num_buildings : Z) : Rand t :=
  sg <- StreetGenerator.generate_streets (street_generator self) street_iterations ;;
  vg <- lift (VoronoiGenerator.generate_districts (voronoi_generator self) vor) ;;
  rivers <- CellularAutomaton.generate_rivers (cellular_automaton self) num_rivers ;;
  mountains <-
    CellularAutomaton.generate_mountains (cellular_automaton self) num_mountains ;;
  bg <- BuildingGenerator.generate_buildings (building_generator self)
          (snd sg) (snd vg) num_buildings ;;
  ret (mk (width self) (height self) (fst sg) (fst vg) (cellular_automaton self)
          (fst bg) (snd sg) (snd vg) rivers mountains (snd bg)).

(** The value [json.dump] writes: numbers, strings, lists, and dictionaries
    with their keys in insertion order. *)
Local Unset Elimination Schemes.
Inductive json :=
| JNumber (r : R)
| JString (s : string)
| JArray (items : list json)
| JObject (members : list (string * json)).
Local Set Elimination Schemes.

Definition point_json (p : Point) : json :=
  JObject [("x"%string, JNumber (p_x p)); ("y"%string, JNumber (p_y p))].

Definition street_json (s : Street) : json :=
  JObject [("start"%string, point_json (street_start s));
           ("end"%string, point_json (street_end s));
           ("width"%string, JNumber (street_width s));
           ("type"%string, JString (street_type s))].

Definition building_json (b : Building) : json :=
  JObject [("position"%string, point_json (building_position b));
           ("width"%string, JNumber (building_width b));
           ("height"%string, JNumber (building_height b));
           ("type"%string, JString (building_type b))].

Definition river_json (r : River) : json :=
  JObject [("points"%string, JArray (map point_json (river_points r)));
           ("width"%string, JNumber (river_width r))].

Definition mountain_json (m : Mountain) : json :=
  JObject [("center"%string, point_json (mountain_center m));
           ("radius"%string, JNumber (mountain_radius m));
           ("height"%string, JNumber (mountain_height m))].

(** The dictionary [city_data] that [save_city_data] builds and dumps. *)
Definition city_data (self : t) : json :=
  JObject [("width"%string, JNumber (IZR (width self)));
           ("height"%string, JNumber (IZR (height self)));
           ("streets"%string, JArray (map street_json (streets self)));
           ("buildings"%string, JArray (map building_json (buildings self)));
           ("rivers"%string, JArray (map river_json (rivers self)));
           ("mountains"%string, JArray (map mountain_json (mountains self)))].

End CityGenerator.

(** ** Vocabulary of the statements *)

(** The generator state after one draw, and the value [random()] reads. *)
Definition advance (g : Rng) : Rng := mkRng (tape g) (S (cursor g)).

Definition unit_draw (g : Rng) : R :=
  (IZR (Z.of_N (tape g (cursor g)) mod 2 ^ 53) / IZR (2 ^ 53))%R.

(** A generator whose every draw is 0, for closed examples. *)
Definition rng0 : Rng := mkRng (fun _ => 0%N) 0.

(** The index [random.choice] picks in a sequence of [n] elements. *)
Definition pick (n : nat) (g : Rng) : nat :=
  (N.to_nat (tape g (cursor g)) mod n)%nat.

(** A point of the canvas [[0, width] x [0, height]]. *)
Definition on_canvas (width height : Z) (p : Point) : Prop :=
  (0 <= p_x p <= IZR width)%R /\ (0 <= p_y p <= IZR height)%R.

(** The street a forward move emits from the locals [tu] when the generator
    is in state [g]. *)
Definition emitted (tu : StreetGenerator.turtle) (g : Rng) : Street :=
  mkStreet
    (mkPoint (StreetGenerator.x tu) (StreetGenerator.y tu))
    (mkPoint (StreetGenerator.new_x tu) (StreetGenerator.new_y tu))
    (0.5 + (2.0 - 0.5) * unit_draw g)%R
    (nth (pick 3 (advance g)) ["main"; "secondary"; "residential"]%string "main"%string).

(** The locals after a forward move. *)
Definition moved (tu : StreetGenerator.turtle) : StreetGenerator.turtle :=
  StreetGenerator.mkTurtle (StreetGenerator.new_x tu) (StreetGenerator.new_y tu)
    (StreetGenerator.angle tu) (StreetGenerator.stack tu).

(** The locals after one symbol, read off [StreetGenerator.interpret] itself,
    run on an empty street list and a generator the locals do not depend
    on. *)
Definition locals_after (self : StreetGenerator.t) (c : ascii)
    (tu : StreetGenerator.turtle) : StreetGenerator.turtle :=
  match StreetGenerator.interpret self c (tu, []) rng0 with
  | Some (st, _) => fst st
  | None => tu
  end.

(** The number of forward symbols of [chars] whose end point, computed from
    the locals the symbols before it leave, passes the bounds test. *)
Fixpoint forward_in_bounds (self : StreetGenerator.t) (chars : list ascii)
    (tu : StreetGenerator.turtle) : nat :=
  match chars with
  | [] => 0
  | c :: rest =>
      ((if (c =? "F")%char
           && StreetGenerator.in_bounds self (StreetGenerator.new_x tu)
                                             (StreetGenerator.new_y tu)
        then 1 else 0)
       + forward_in_bounds self rest (locals_after self c tu))%nat
  end.

(** What holds of a street appended by the loop: it ends on the canvas and
    has the length of a step. *)
Definition drawn_by (self : StreetGenerator.t) (s : Street) : Prop :=
  on_canvas (StreetGenerator.width self) (StreetGenerator.height self) (street_end s)
  /\ distance_to (street_start s) (street_end s) = IZR StreetGenerator.step_size.

(** A polyline in which no point is followed by an equal point. *)
Fixpoint no_repeat (l : list Point) : Prop :=
  match l with
  | a :: (b :: _) as rest => a <> b /\ no_repeat rest
  | _ => True
  end.

(** What holds of a river: its walk had between 20 and 50 steps, its points
    are the spawn point and at most one point per step, and no step that
    stays in place is recorded. *)
Definition river_shape (r : River) : Prop :=
  exists steps : Z,
    20 <= steps <= 50
    /\ (1 <= length (river_points r) <= 1 + Z.to_nat steps)%nat
    /\ no_repeat (river_points r).

(** The same, with the draws named: the river starts at the point [spawn]
    returned and has at most one more point per step [randint] returned. *)
Definition river_of_draws (self : CellularAutomaton.t) (g : Rng) (r : River) : Prop :=
  exists (s : Z * Z) (g1 : Rng) (steps : Z) (g2 : Rng),
    CellularAutomaton.spawn self g = Some (s, g1)
    /\ randint 20 50 g1 = Some (steps, g2)
    /\ 20 <= steps <= 50
    /\ head (river_points r) = Some (mkPoint (IZR (fst s)) (IZR (snd s)))
    /\ (1 <= length (river_points r) <= 1 + Z.to_nat steps)%nat
    /\ no_repeat (river_points r).

(** The invariant of the walk from the spawn point [p0]: the list starts at
    [p0], ends at the current position, and no point repeats its
    predecessor. *)
Definition walking (p0 : Point) (st : list Point * Z * Z) : Prop :=
  let '(pts, cx, cy) := st in
  head pts = Some p0
  /\ last pts = Some (mkPoint (IZR cx) (IZR cy))
  /\ no_repeat pts.

(** The unweighted arithmetic mean of a list of coordinates. *)
Definition mean (l : list R) : R := (fold_right Rplus 0 l / INR (length l))%R.

(** A frontage building at index [i] of the [n] of a street: at parameter
    [t] on the segment, moved by at most 1 along each axis. *)
Definition placed (street : Street) (n i : Z) (b : Building) : Prop :=
  exists t offset_x offset_y : R,
    t = BuildingGenerator.param n i
    /\ (-1 <= offset_x <= 1)%R /\ (-1 <= offset_y <= 1)%R
    /\ building_position b
       = mkPoint
           (p_x (street_start street)
            + t * (p_x (street_end street) - p_x (street_start street))
            + offset_x)
           (p_y (street_start street)
            + t * (p_y (street_end street) - p_y (street_start street))
            + offset_y).


(** ** [city_config.py]

    The configuration module holds constants only; [main.py] does not import
    it.  The grammar tables are the ones the statements below use. *)

Module city_config.

Definition CITY_WIDTH : Z := 100.
Definition CITY_HEIGHT : Z := 100.
Definition STREET_ITERATIONS : Z := 3.

Definition STREET_RULES : gmap string string :=
  <["F" := "F+F-F-F+F"]> (<["+" := "+"]> (<["-" := "-"]> ∅)).

(** An entry of [STREET_L_SYSTEMS]. *)
Record street_l_system := mk_street_l_system {
  axiom : string;
  rules : gmap string string;
  iterations : Z;
  width : R
}.

Definition STREET_L_SYSTEMS : gmap string street_l_system :=
  <["main" :=
      mk_street_l_system "F"
        (<["F" := "F+F-F-F+F"]> (<["+" := "+"]> (<["-" := "-"]> ∅))) 4 2.0]>
  (<["secondary" :=
      mk_street_l_system "F"
        (<["F" := "F-F+F+F-F"]> (<["+" := "+"]> (<["-" := "-"]> ∅))) 3 1.5]>
  (<["residential" :=
      mk_street_l_system "F"
        (<["F" := "F[+F]F[-F]F"]>
           (<["+" := "+"]> (<["-" := "-"]> (<["[" := "["]> (<["]" := "]"]> ∅)))))
        2 1.0]> ∅)).

End city_config.

(** The number of occurrences of a symbol in a string. *)
Fixpoint count_char (c : ascii) (s : string) : nat :=
  match s with
  | EmptyString => 0
  | String a rest => ((if (a =? c)%char then 1 else 0) + count_char c rest)%nat
  end.

(** The generator state after [n] draws. *)
Definition skip (n : nat) (g : Rng) : Rng := mkRng (tape g) (cursor g + n).

(** The symbols [generate_streets] acts on. *)
Definition is_command (c : ascii) : bool :=
  (c =? "F")%char || (c =? "+")%char || (c =? "-")%char
  || (c =? "[")%char || (c =? "]")%char.

(** The nesting depth of the branch symbols after [chars], from depth [d];
    [None] when a pop symbol comes at depth 0. *)
Fixpoint bracket_depth (chars : list ascii) (d : nat) : option nat :=
  match chars with
  | [] => Some d
  | c :: rest =>
      if (c =? "[")%char then bracket_depth rest (S d)
      else if (c =? "]")%char then
        match d with
        | O => None
        | S d' => bracket_depth rest d'
        end
      else bracket_depth rest d
  end.

(** A string whose push and pop symbols match. *)
Definition balanced (s : string) : Prop :=
  bracket_depth (list_ascii_of_string s) 0 = Some 0%nat.

(** The attributes [generate_streets] samples for a street. *)
Definition sampled_street (s : Street) : Prop :=
  (0.5 <= street_width s <= 2.0)%R
  /\ In (street_type s) ["main"; "secondary"; "residential"]%string.

(** An index Python accepts on a sequence of [n] elements. *)
Definition in_range (n : nat) (i : Z) : Prop := - Z.of_nat n <= i < Z.of_nat n.

(** A point on one of the four edges of the grid of the automaton. *)
Definition on_edge (self : CellularAutomaton.t) (p : Point) : Prop :=
  p_x p = 0%R \/ p_x p = IZR (CellularAutomaton.width self - 1)
  \/ p_y p = 0%R \/ p_y p = IZR (CellularAutomaton.height self - 1).

(** A cell of the grid [0 .. width - 1] x [0 .. height - 1]. *)
Definition in_grid (self : CellularAutomaton.t) (p : Point) : Prop :=
  exists a b : Z,
    p = mkPoint (IZR a) (IZR b)
    /\ 0 <= a <= CellularAutomaton.width self - 1
    /\ 0 <= b <= CellularAutomaton.height self - 1.

(** A coordinate [a] moved to [b] by at most one, never away from the line
    [c]: up or not at all below [c], down or not at all from [c] on. *)
Definition drifts (c a b : Z) : Prop :=
  if a <? c then a <= b <= a + 1 else a - 1 <= b <= a.

(** One recorded step of a river walk. *)
Definition river_step (self : CellularAutomaton.t) (p q : Point) : Prop :=
  exists a b a' b' : Z,
    p = mkPoint (IZR a) (IZR b) /\ q = mkPoint (IZR a') (IZR b')
    /\ drifts (CellularAutomaton.width self / 2) a a'
    /\ drifts (CellularAutomaton.height self / 2) b b'
    /\ (a', b') <> (a, b).

(** A polyline whose consecutive points are related by [R]. *)
Fixpoint chain (R : Point -> Point -> Prop) (l : list Point) : Prop :=
  match l with
  | a :: (b :: _) as rest => R a b /\ chain R rest
  | _ => True
  end.

(** The invariant of the walk on a grid with at least one cell. *)
Definition walking_grid (self : CellularAutomaton.t) (st : list Point * Z * Z) : Prop :=
  let '(pts, cx, cy) := st in
  last pts = Some (mkPoint (IZR cx) (IZR cy))
  /\ 0 <= cx <= CellularAutomaton.width self - 1
  /\ 0 <= cy <= CellularAutomaton.height self - 1
  /\ Forall (in_grid self) pts
  /\ chain (river_step self) pts.

(** What [generate_mountains] samples for a mountain. *)
Definition sampled_mountain (self : CellularAutomaton.t) (m : Mountain) : Prop :=
  (5 <= mountain_radius m <= 15)%R
  /\ (0.5 <= mountain_height m <= 1.0)%R
  /\ (0 <= CellularAutomaton.width self -> 0 <= CellularAutomaton.height self ->
      on_canvas (CellularAutomaton.width self) (CellularAutomaton.height self)
                (mountain_center m)).

(** The attributes [generate_buildings] samples for a building. *)
Definition sampled_building (b : Building) : Prop :=
  (0.5 <= building_width b <= 2.0)%R
  /\ (0.5 <= building_height b <= 2.0)%R
  /\ In (building_type b) BuildingGenerator.building_types.

(** A position within 1 of the bounding box of a street, along each axis. *)
Definition near_street (street : Street) (b : Building) : Prop :=
  let s := street_start street in
  let e := street_end street in
  let p := building_position b in
  (Rmin (p_x s) (p_x e) - 1 <= p_x p <= Rmax (p_x s) (p_x e) + 1)%R
  /\ (Rmin (p_y s) (p_y e) - 1 <= p_y p <= Rmax (p_y s) (p_y e) + 1)%R.

(** A position within 10 of the mean of the vertices of a district, along
    each axis. *)
Definition near_district (district : list Point) (b : Building) : Prop :=
  let p := building_position b in
  (mean (map p_x district) - 10 <= p_x p <= mean (map p_x district) + 10)%R
  /\ (mean (map p_y district) - 10 <= p_y p <= mean (map p_y district) + 10)%R.

(** Where a building of [generate_buildings] comes from. *)
Definition building_origin (streets : list Street) (districts : list (list Point))
    (b : Building) : Prop :=
  (exists street, In street streets /\ near_street street b)
  \/ (exists district,
        In district districts /\ (3 <= length district)%nat
        /\ near_district district b).

(** The number of frontage buildings of a list of streets, and the number
    of districts that get interior buildings. *)
Definition frontage_total (streets : list Street) : nat :=
  list_sum (map (fun s => Z.to_nat (BuildingGenerator.num_street_buildings s)) streets).

Definition eligible (districts : list (list Point)) : nat :=
  length (List.filter (fun d => negb (length d <? 3)%nat) districts).

(** ** The float arithmetic left open

    [StreetGenerator.generate_streets], [Point.distance_to] and the loop
    over the streets of [BuildingGenerator.generate_buildings] once more,
    over a number type [num] that stands for Python's [float].  The
    operations are the ones this code applies to floats; an [int] operand is
    converted by [of_int] first, as Python does.  Two instances follow:
    [exact], the real numbers of the definitions above, and [double], the
    IEEE 754 binary64 numbers the program runs on.  What is stated for
    every arithmetic holds of the program as it runs. *)

Module Machine.

Class Arithmetic (num : Type) := {
  of_int : Z -> num;
  flt_add : num -> num -> num;
  flt_sub : num -> num -> num;
  flt_mul : num -> num -> num;
  flt_div : num -> num -> num;
  (** [x ** 2] *)
  flt_sqr : num -> num;
  math_sqrt : num -> num;
  math_cos : num -> num;
  math_sin : num -> num;
  math_pi : num;
  (** [int(x)]; [None] when it raises *)
  to_int : num -> option Z;
  (** [a <= b], as a proposition and as the test the code runs *)
  flt_le : num -> num -> Prop;
  flt_leb : num -> num -> bool;
  flt_leb_le : forall a b, flt_leb a b = true <-> flt_le a b
}.

Declare Scope num_scope.
Delimit Scope num_scope with num.
Infix "+" := flt_add : num_scope.
Infix "-" := flt_sub : num_scope.
Infix "*" := flt_mul : num_scope.
Infix "/" := flt_div : num_scope.
Infix "<=" := flt_le : num_scope.

Section Model.
Context {num : Type} {A : Arithmetic num}.

Record Point := mkPoint { p_x : num; p_y : num }.

Record Street := mkStreet {
  street_start : Point;
  street_end : Point;
  street_width : num;
  street_type : string
}.

Record Building := mkBuilding {
  building_position : Point;
  building_width : num;
  building_height : num;
  building_type : string
}.

(** [Point.distance_to] *)
Definition distance_to (self other : Point) : num :=
  math_sqrt (flt_sqr (p_x self - p_x other) + flt_sqr (p_y self - p_y other))%num.

(** [random.random()]: the raw draw scaled to a multiple of 2^-53. *)
Definition random : Rand num :=
  n <- next_raw ;; ret (of_int (Z.of_N n mod 2 ^ 53) / of_int (2 ^ 53))%num.

(** [random.uniform(a, b)] is [a + (b - a) * random()]. *)
Definition uniform (a b : num) : Rand num :=
  u <- random ;; ret (a + (b - a) * u)%num.

(** The literal [0.5]. *)
Definition half : num := (of_int 1 / of_int 2)%num.

(** An object of class [StreetGenerator]. *)
Record StreetGenerator := mkStreetGenerator {
  width : Z;
  height : Z;
  streets : list Street;
  l_system : LSystem.t
}.

(** [__init__] *)
Definition new (width height : Z) : StreetGenerator :=
  mkStreetGenerator width height [] (LSystem.mk "F" street_rules).

(** The local variables of [generate_streets]; the head of [stack] is the
    entry [stack.pop()] returns. *)
Record turtle := mkTurtle {
  x : num;
  y : num;
  angle : Z;
  stack : list (num * num * Z)
}.

Definition step_size : Z := 8.
Definition angle_step : Z := 90.

(** [math.radians(deg)] is [deg * (pi / 180)]. *)
Definition math_radians (deg : num) : num := (deg * (math_pi / of_int 180))%num.

(** [0 <= new_x <= self.width and 0 <= new_y <= self.height] *)
Definition in_bounds (self : StreetGenerator) (new_x new_y : num) : bool :=
  flt_leb (of_int 0) new_x && flt_leb new_x (of_int (width self))
  && flt_leb (of_int 0) new_y && flt_leb new_y (of_int (height self)).

Definition new_x (tu : turtle) : num :=
  (x tu + of_int step_size * math_cos (math_radians (of_int (angle tu))))%num.

Definition new_y (tu : turtle) : num :=
  (y tu + of_int step_size * math_sin (math_radians (of_int (angle tu))))%num.

(** The body of [for char in l_string], on the locals and [self.streets]. *)
Definition interpret (self : StreetGenerator) (char : ascii)
    (st : turtle * list Street) : Rand (turtle * list Street) :=
  let tu := fst st in
  let streets := snd st in
  if (char =? "F")%char then
    streets' <-
      (if in_bounds self (new_x tu) (new_y tu) then
         w <- uniform half (of_int 2) ;;
         ty <- choice ["main"; "secondary"; "residential"]%string ;;
         ret (streets ++ [mkStreet (mkPoint (x tu) (y tu))
                                   (mkPoint (new_x tu) (new_y tu)) w ty])
       else ret streets) ;;
    ret (mkTurtle (new_x tu) (new_y tu) (angle tu) (stack tu), streets')
  else if (char =? "+")%char then
    ret (mkTurtle (x tu) (y tu) (angle tu + angle_step) (stack tu), streets)
  else if (char =? "-")%char then
    ret (mkTurtle (x tu) (y tu) (angle tu - angle_step) (stack tu), streets)
  else if (char =? "[")%char then
    ret (mkTurtle (x tu) (y tu) (angle tu)
                  ((x tu, y tu, angle tu) :: stack tu), streets)
  else if (char =? "]")%char then
    match stack tu with
    | (x', y', angle') :: rest => ret (mkTurtle x' y' angle' rest, streets)
    | [] => ret st
    end
  else ret st.

(** The turtle before the first symbol: the canvas centre, heading 0. *)
Definition start (self : StreetGenerator) : turtle :=
  mkTurtle (of_int (width self / 2)) (of_int (height self / 2)) 0 [].

Definition run (self : StreetGenerator) (l_string : string)
    (st : turtle * list Street) : Rand (turtle * list Street) :=
  for_each (interpret self) (list_ascii_of_string l_string) st.

(** [generate_streets]: the object after the call and the returned list. *)
Definition generate_streets (self : StreetGenerator) (iterations : Z)
  : Rand (StreetGenerator * list Street) :=
  let l_string := LSystem.generate (l_system self) iterations in
  r <- run self l_string (start self, streets self) ;;
  ret (mkStreetGenerator (width self) (height self) (snd r) (l_system self), snd r).

(** [t = i / max(1, num_street_buildings - 1)] *)
Definition param (num_street_buildings i : Z) : num :=
  (of_int i / of_int (Z.max 1 (num_street_buildings - 1)))%num.

(** The body of [for i in range(num_street_buildings)]. *)
Definition frontage (street : Street) (num_street_buildings i : Z)
    (buildings : list Building) : Rand (list Building) :=
  let t := param num_street_buildings i in
  let s := street_start street in
  let e := street_end street in
  let pos_x := (p_x s + t * (p_x e - p_x s))%num in
  let pos_y := (p_y s + t * (p_y e - p_y s))%num in
  offset_x <- uniform (of_int (-1)) (of_int 1) ;;
  offset_y <- uniform (of_int (-1)) (of_int 1) ;;
  w <- uniform half (of_int 2) ;;
  h <- uniform half (of_int 2) ;;
  ty <- choice BuildingGenerator.building_types ;;
  ret (buildings ++
       [mkBuilding (mkPoint (pos_x + offset_x) (pos_y + offset_y))%num w h ty]).

(** [int(street_length / 3)] *)
Definition num_street_buildings (street : Street) : option Z :=
  let street_length := distance_to (street_start street) (street_end street) in
  to_int (street_length / of_int 3)%num.

(** The body of [for street in streets] of [generate_buildings]. *)
Definition street_buildings (street : Street) (buildings : list Building)
  : Rand (list Building) :=
  match num_street_buildings street with
  | Some n => for_each (frontage street n) (seqZ 0 n) buildings
  | None => raise
  end.


(** *** Vocabulary of the statements over [num] *)

(** The value [random()] reads in state [g]. *)
Definition unit_draw (g : Rng) : num :=
  (of_int (Z.of_N (tape g (cursor g)) mod 2 ^ 53) / of_int (2 ^ 53))%num.

(** A point of the canvas [[0, width] x [0, height]], in the order of [num]. *)
Definition within_canvas (width height : Z) (p : Point) : Prop :=
  (of_int 0 <= p_x p)%num /\ (p_x p <= of_int width)%num
  /\ (of_int 0 <= p_y p)%num /\ (p_y p <= of_int height)%num.

Definition within_canvas_dec (width height : Z) (p : Point) :
  {within_canvas width height p} + {~ within_canvas width height p}.
Proof.
  unfold within_canvas.
  destruct (flt_leb (of_int 0) (p_x p)) eqn:E1;
    [apply flt_leb_le in E1
    |right; intros (H & _); apply flt_leb_le in H; congruence].
  destruct (flt_leb (p_x p) (of_int width)) eqn:E2;
    [apply flt_leb_le in E2
    |right; intros (_ & H & _); apply flt_leb_le in H; congruence].
  destruct (flt_leb (of_int 0) (p_y p)) eqn:E3;
    [apply flt_leb_le in E3
    |right; intros (_ & _ & H & _); apply flt_leb_le in H; congruence].
  destruct (flt_leb (p_y p) (of_int height)) eqn:E4;
    [apply flt_leb_le in E4
    |right; intros (_ & _ & _ & H); apply flt_leb_le in H; congruence].
  left. auto.
Defined.

(** The point one step of length 8 ahead of [p] along the heading, given in
    degrees. *)
Definition ahead (p : Point) (heading : Z) : Point :=
  mkPoint (p_x p + of_int 8 * math_cos (math_radians (of_int heading)))%num
          (p_y p + of_int 8 * math_sin (math_radians (of_int heading)))%num.

(** The number of forward symbols of [chars] whose end point is on the
    canvas, for a turtle at [p] with the given heading and the saved
    positions and headings [saved], most recent first: a forward symbol
    moves the turtle one step ahead, a turn symbol adds or subtracts 90
    degrees, a push symbol saves position and heading, a pop symbol
    restores the last saved pair if there is one, any other symbol is
    skipped. *)
Fixpoint forward_on_canvas (width height : Z) (chars : list ascii)
    (p : Point) (heading : Z) (saved : list (Point * Z)) : nat :=
  match chars with
  | [] => 0
  | c :: rest =>
      if (c =? "F")%char then
        ((if within_canvas_dec width height (ahead p heading) then 1 else 0)
         + forward_on_canvas width height rest (ahead p heading) heading saved)%nat
      else if (c =? "+")%char then
        forward_on_canvas width height rest p (heading + 90) saved
      else if (c =? "-")%char then
        forward_on_canvas width height rest p (heading - 90) saved
      else if (c =? "[")%char then
        forward_on_canvas width height rest p heading ((p, heading) :: saved)
      else if (c =? "]")%char then
        match saved with
        | (q, h) :: saved' => forward_on_canvas width height rest q h saved'
        | [] => forward_on_canvas width height rest p heading []
        end
      else forward_on_canvas width height rest p heading saved
  end.

(** Position and saved pairs of the locals of the loop. *)
Definition position (tu : turtle) : Point := mkPoint (x tu) (y tu).

Definition saved (tu : turtle) : list (Point * Z) :=
  map (fun e => (mkPoint (fst (fst e)) (snd (fst e)), snd e)) (stack tu).

(** The offset [random.uniform(-1, 1)] returns in state [g]. *)
Definition jitter (g : Rng) : num :=
  (of_int (-1) + (of_int 1 - of_int (-1)) * unit_draw g)%num.


(** A frontage building of index [i] among the [n] of a street: at
    parameter [i / max(1, n - 1)] between the ends of the street, moved by two
    consecutive offsets. *)
Definition placed (street : Street) (n i : Z) (b : Building) : Prop :=
  exists g : Rng,
    let t := (of_int i / of_int (Z.max 1 (n - 1)))%num in
    let s := street_start street in
    let e := street_end street in
    building_position b
    = mkPoint (p_x s + t * (p_x e - p_x s) + jitter g)%num
              (p_y s + t * (p_y e - p_y s) + jitter (advance g))%num.

End Model.

Arguments Point : clear implicits.
Arguments Street : clear implicits.
Arguments Building : clear implicits.
Arguments StreetGenerator : clear implicits.
Arguments turtle : clear implicits.

(** The real numbers: every operation is exact. *)
#[export] Instance exact : Arithmetic R := {|
  of_int := IZR;
  flt_add := Rplus;
  flt_sub := Rminus;
  flt_mul := Rmult;
  flt_div := Rdiv;
  flt_sqr := fun a => (a ^ 2)%R;
  math_sqrt := R_sqrt.sqrt;
  math_cos := Rtrigo_def.cos;
  math_sin := Rtrigo_def.sin;
  math_pi := PI;
  to_int := fun f => Some (BuildingGenerator.int f);
  flt_le := Rle;
  flt_leb := Rleb;
  flt_leb_le := fun a b =>
    match Rle_dec a b as d
      return ((if d then true else false) = true <-> (a <= b)%R) with
    | left H => conj (fun _ => H) (fun _ => eq_refl)
    | right H => conj (fun E => False_ind _ (Bool.diff_false_true E))
                      (fun L => False_ind _ (H L))
    end
|}.

(** An [int] below 2^63 in absolute value, as a double. *)
Definition double_of_int (z : Z) : float :=
  match z with
  | Z0 => 0%float
  | Zpos _ => PrimFloat.of_uint63 (Uint63.of_Z z)
  | Zneg p => (- PrimFloat.of_uint63 (Uint63.of_Z (Zpos p)))%float
  end.

(** [int(x)] on a double: the digits before the point; [OverflowError] and
    [ValueError] on an infinity and on a NaN. *)
Definition double_to_int (f : float) : option Z :=
  match Prim2SF f with
  | S754_zero _ => Some 0
  | S754_finite s m e =>
      let v := Z.shiftl (Zpos m) e in Some (if s then - v else v)
  | _ => None
  end.

(** [math.cos] and [math.sin] belong to the C library.  The table holds
    [(x, cos x, sin x)] for [x = math.radians(a)] at the headings [a] of
    -360 to 360 degrees in steps of 90, as CPython returns them on glibc;
    elsewhere the model answers NaN. *)
Definition libm_table : list (float * (float * float)) :=
  [ (0x0p+0, (0x1p+0, 0x0p+0));
    (0x1.921fb54442d18p+0, (0x1.1a62633145c07p-54, 0x1p+0));
    (-0x1.921fb54442d18p+0, (0x1.1a62633145c07p-54, -0x1p+0));
    (0x1.921fb54442d18p+1, (-0x1p+0, 0x1.1a62633145c07p-53));
    (-0x1.921fb54442d18p+1, (-0x1p+0, -0x1.1a62633145c07p-53));
    (0x1.2d97c7f3321d2p+2, (-0x1.a79394c9e8a0ap-53, -0x1p+0));
    (-0x1.2d97c7f3321d2p+2, (-0x1.a79394c9e8a0ap-53, 0x1p+0));
    (0x1.921fb54442d18p+2, (0x1p+0, -0x1.1a62633145c07p-52));
    (-0x1.921fb54442d18p+2, (0x1p+0, 0x1.1a62633145c07p-52)) ]%float.

Fixpoint libm_lookup (x : float) (table : list (float * (float * float)))
  : float * float :=
  match table with
  | [] => (nan, nan)
  | (a, cs) :: rest => if PrimFloat.eqb x a then cs else libm_lookup x rest
  end.

(** IEEE 754 binary64, rounding to nearest: the arithmetic of CPython's
    [float].  [x ** 2] is the rounded product; where it overflows Python
    raises [OverflowError] at once, and the model carries the infinity on to
    [int], which raises. *)
#[export] Instance double : Arithmetic float := {|
  of_int := double_of_int;
  flt_add := PrimFloat.add;
  flt_sub := PrimFloat.sub;
  flt_mul := PrimFloat.mul;
  flt_div := PrimFloat.div;
  flt_sqr := fun a => PrimFloat.mul a a;
  math_sqrt := PrimFloat.sqrt;
  math_cos := fun a => fst (libm_lookup a libm_table);
  math_sin := fun a => snd (libm_lookup a libm_table);
  math_pi := 0x1.921fb54442d18p+1%float;
  to_int := double_to_int;
  flt_le := fun a b => PrimFloat.leb a b = true;
  flt_leb := PrimFloat.leb;
  flt_leb_le := fun a b => conj (fun H => H) (fun H => H)
|}.

(** The real number a finite double stands for; 0 for an infinity or a NaN. *)
Definition double_value (f : float) : R :=
  match Prim2SF f with
  | S754_finite s m e =>
      let v := if 0 <=? e then IZR (Zpos m * 2 ^ e)
               else (IZR (Zpos m) / IZR (2 ^ (- e)))%R in
      if s then (- v)%R else v
  | _ => 0%R
  end.


(** A street generator for a canvas of 97 by 18 whose [l_system] holds the
    secondary grammar of [city_config.STREET_L_SYSTEMS]. *)
Definition secondary_generator : StreetGenerator float :=
  mkStreetGenerator 97 18 []
    (LSystem.mk "F" (<["F" := "F-F+F+F-F"]> (<["+" := "+"]> (<["-" := "-"]> ∅)))).

End Machine.

(** The values of the first model as values of [Machine] over the reals. *)
Definition real_point (p : Point) : Machine.Point R :=
  Machine.mkPoint (p_x p) (p_y p).

Definition real_street (s : Street) : Machine.Street R :=
  Machine.mkStreet (real_point (street_start s)) (real_point (street_end s))
                   (street_width s) (street_type s).

Definition real_turtle (tu : StreetGenerator.turtle) : Machine.turtle R :=
  Machine.mkTurtle (StreetGenerator.x tu) (StreetGenerator.y tu)
                   (StreetGenerator.angle tu) (StreetGenerator.stack tu).

Definition real_generator (self : StreetGenerator.t) : Machine.StreetGenerator R :=
  Machine.mkStreetGenerator (StreetGenerator.width self) (StreetGenerator.height self)
    (map real_street (StreetGenerator.streets self)) (StreetGenerator.l_system self).

(** The Euclidean distance of two points of the plane. *)
Definition euclidean (ax ay bx by_ : R) : R :=
  R_sqrt.sqrt ((bx - ax) * (bx - ax) + (by_ - ay) * (by_ - ay))%R.

(** ** Voronoi cells *)

(** The location [p] is at least as close to the seed [s] as to the seed
    [s']. *)
Definition closer (p s s' : R * R) : Prop :=
  ((fst p - fst s) * (fst p - fst s) + (snd p - snd s) * (snd p - snd s)
   <= (fst p - fst s') * (fst p - fst s') + (snd p - snd s') * (snd p - snd s'))%R.

(** The Voronoi cell of the seed [s] among [seeds]: the locations at least
    as close to [s] as to any seed. *)
Definition in_cell (seeds : list (R * R)) (s p : R * R) : Prop :=
  forall s', In s' seeds -> closer p s s'.

(** The point with the weights [ws] on the vertices [vs], and the convex
    hull of [vs]: the points with weights that are not negative and add up
    to 1. *)
Fixpoint combination (ws : list R) (vs : list Point) : R * R :=
  match ws, vs with
  | w :: ws', v :: vs' =>
      (w * p_x v + fst (combination ws' vs'),
       w * p_y v + snd (combination ws' vs'))%R
  | _, _ => (0, 0)%R
  end.

Definition in_hull (vs : list Point) (p : R * R) : Prop :=
  exists ws : list R,
    length ws = length vs
    /\ Forall (Rle 0) ws
    /\ fold_right Rplus 0%R ws = 1%R
    /\ combination ws vs = p.

(** What [generate_districts] takes from scipy: [vor] is the Voronoi diagram
    of [seeds].  The entry of [point_region] for a seed is the index of its
    region; a region lists indices of [vertices], or -1 for a vertex at
    infinity; and the vertices of a region without -1 span the cell of its
    seed. *)
Definition voronoi_of (seeds : list (R * R)) (vor : VoronoiGenerator.Voronoi)
  : Prop :=
  Forall2
    (fun s r =>
       exists region,
         0 <= r
         /\ VoronoiGenerator.regions vor !! Z.to_nat r = Some region
         /\ Forall (fun v => -1 <= v < Z.of_nat (length (VoronoiGenerator.vertices vor)))
                   region
         /\ (forall pts,
               ((-1) ∉ region) ->
               mapM (VoronoiGenerator.vertex_point vor) region = Some pts ->
               forall p, in_cell seeds s p -> in_hull pts p))
    seeds (VoronoiGenerator.point_region vor).

(** The filter of the specification: no vertex at infinity and at least
    three vertices. *)
Definition bounded_polygon (region : list Z) : bool :=
  bool_decide ((-1) ∉ region) && (3 <=? length region)%nat.

(** A generator whose every draw is 1, at its [k]-th draw. *)
Definition rng1 (k : nat) : Rng := mkRng (fun _ => 1%N) k.

(** The diagonal from the cell [(a, b)]: [n] cells, one up and one to the
    right of the one before. *)
Definition diagonal (a b : Z) (n : nat) : list Point :=
  map (fun j => mkPoint (IZR (a + j)) (IZR (b + j))) (seqZ 0 (Z.of_nat n)).

(** ** Grammar engine *)

Lemma append_cons (c : ascii) (s t : string) :
  String c s +:+ t = String c (s +:+ t).
Proof. reflexivity. Qed.

Lemma append_empty_r (s : string) : s +:+ "" = s.
Proof.
  induction s as [|c s IH]; [reflexivity|].
  now rewrite append_cons, IH.
Qed.

Lemma append_assoc (a b c : string) : (a +:+ b) +:+ c = a +:+ (b +:+ c).
Proof.
  induction a as [|x a IH]; [reflexivity|].
  now rewrite !append_cons, IH.
Qed.

Lemma rules_get_rewrite_symbol rules c :
  LSystem.rules_get rules c = rewrite_symbol rules c.
Proof.
  unfold LSystem.rules_get, rewrite_symbol.
  destruct (rules !! String c EmptyString); reflexivity.
Qed.

Lemma expand_rewrite_all rules (s acc : string) :
  LSystem.expand rules s acc = acc +:+ rewrite_all rules s.
Proof.
  revert acc. induction s as [|c s IH]; intros acc.
  - unfold rewrite_all. simpl. now rewrite append_empty_r.
  - simpl. rewrite IH, rules_get_rewrite_symbol, append_assoc. reflexivity.
Qed.

Lemma generate_rewrite_times (self : LSystem.t) (n : nat) :
  LSystem.generate self (Z.of_nat n)
  = rewrite_times (LSystem.rules self) n (LSystem.axiom self).
Proof.
  unfold LSystem.generate. rewrite Nat2Z.id.
  induction n as [|n IH]; simpl; [reflexivity|].
  rewrite IH. apply expand_rewrite_all.
Qed.

(** C4. [LSystem.generate] computes the N-fold simultaneous rewriting of the
    axiom, every symbol replaced by its rule and kept when it has none; zero
    iterations return the axiom, and axiom F with the street rule gives
    F+F-F-F+F, nine symbols, after one iteration. *)
Theorem generate_is_iterated_rewriting :
  (forall (self : LSystem.t) (n : nat),
      LSystem.generate self (Z.of_nat n)
      = rewrite_times (LSystem.rules self) n (LSystem.axiom self))
  /\ (forall self : LSystem.t, LSystem.generate self 0 = LSystem.axiom self)
  /\ LSystem.generate (LSystem.mk "F" street_rules) 1 = "F+F-F-F+F"%string
  /\ String.length (LSystem.generate (LSystem.mk "F" street_rules) 1) = 9%nat.
Proof.
  split; [exact generate_rewrite_times|].
  split; [reflexivity|].
  split; vm_compute; reflexivity.
Qed.

(** ** The random source *)

Lemma bind_Some {A B} (m : Rand A) (k : A -> Rand B) g a g' :
  m g = Some (a, g') -> bind m k g = k a g'.
Proof. unfold bind. now intros ->. Qed.

Lemma bind_inv {A B} (m : Rand A) (k : A -> Rand B) g b g2 :
  bind m k g = Some (b, g2) ->
  exists a g1, m g = Some (a, g1) /\ k a g1 = Some (b, g2).
Proof.
  unfold bind. destruct (m g) as [[a g1]|] eqn:E; [|discriminate].
  intros H. now exists a, g1.
Qed.

Lemma random_eq g : random g = Some (unit_draw g, advance g).
Proof. reflexivity. Qed.

Lemma uniform_eq a b g :
  uniform a b g = Some ((a + (b - a) * unit_draw g)%R, advance g).
Proof. reflexivity. Qed.

Lemma unit_draw_range g : (0 <= unit_draw g < 1)%R.
Proof.
  unfold unit_draw.
  assert (H : 0 <= Z.of_N (tape g (cursor g)) mod 2 ^ 53 < 2 ^ 53)
    by (apply Z.mod_pos_bound; lia).
  assert (P : (0 < IZR (2 ^ 53))%R) by (apply IZR_lt; lia).
  split.
  - apply Rmult_le_pos; [apply IZR_le; lia | left; now apply Rinv_0_lt_compat].
  - apply Rmult_lt_reg_r with (IZR (2 ^ 53)); [exact P|].
    unfold Rdiv. rewrite Rmult_assoc, Rinv_l, Rmult_1_r, Rmult_1_l by lra.
    apply IZR_lt; lia.
Qed.

(** A value drawn by [uniform a b] lies between [a] and [b]. *)
Lemma uniform_bounds a b g :
  (a <= b)%R -> (a <= a + (b - a) * unit_draw g <= b)%R.
Proof. intros Hab. pose proof (unit_draw_range g). split; nra. Qed.

Lemma randint_eq a b g :
  a <= b ->
  randint a b g
  = Some (a + Z.of_N (tape g (cursor g)) mod (b - a + 1), advance g).
Proof.
  intros Hab. unfold randint.
  destruct (b <? a) eqn:E; [apply Z.ltb_lt in E; lia | reflexivity].
Qed.

Lemma randint_range a b g n g' :
  randint a b g = Some (n, g') -> a <= n <= b /\ g' = advance g.
Proof.
  unfold randint. destruct (b <? a) eqn:E; [discriminate|].
  apply Z.ltb_ge in E. unfold bind, next_raw, ret.
  intros H. injection H as <- <-.
  pose proof (Z.mod_pos_bound (Z.of_N (tape g (cursor g))) (b - a + 1)).
  split; [lia | reflexivity].
Qed.

Lemma choice_eq {A} (a : A) (l : list A) g :
  choice (a :: l) g = Some (nth (pick (S (length l)) g) (a :: l) a, advance g).
Proof.
  unfold choice, bind, next_raw, pick.
  change (length (a :: l)) with (S (length l)).
  set (i := (N.to_nat (tape g (cursor g)) mod S (length l))%nat).
  assert (Hi : (i < length (a :: l))%nat)
    by (apply Nat.mod_upper_bound; discriminate).
  rewrite nth_lookup.
  destruct ((a :: l) !! i) as [v|] eqn:E; [reflexivity|].
  apply lookup_ge_None in E. lia.
Qed.

(** Running the first draw of a sequence of draws. *)
Ltac draw_uniform := unfold bind at 1; rewrite uniform_eq.
Ltac draw_choice := unfold bind at 1; rewrite choice_eq.

(** ** Street synthesizer *)

Section Streets.
Import StreetGenerator.

Lemma Rleb_spec a b : Rleb a b = true <-> (a <= b)%R.
Proof. unfold Rleb. destruct (Rle_dec a b); split; intros; (easy || lra). Qed.

Lemma Rltb_spec a b : Rltb a b = true <-> (a < b)%R.
Proof. unfold Rltb. destruct (Rlt_dec a b); split; intros; (easy || lra). Qed.

Lemma in_bounds_spec self nx ny :
  in_bounds self nx ny = true
  <-> on_canvas (width self) (height self) (mkPoint nx ny).
Proof.
  unfold in_bounds, on_canvas. simpl.
  rewrite !andb_true_iff, !Rleb_spec. tauto.
Qed.

(** A forward symbol: the street is appended when the new position passes
    the test, and the locals move to the new position either way. *)
Lemma interpret_forward self tu streets g :
  interpret self "F" (tu, streets) g
  = if in_bounds self (new_x tu) (new_y tu)
    then Some ((moved tu, streets ++ [emitted tu g]), advance (advance g))
    else Some ((moved tu, streets), g).
Proof.
  unfold interpret. simpl.
  destruct (in_bounds self (new_x tu) (new_y tu)); [|reflexivity].
  unfold bind at 1. draw_uniform. draw_choice. reflexivity.
Qed.

(** Every other symbol leaves the street list and the generator alone. *)
Lemma interpret_other self c tu streets g :
  (c =? "F")%char = false ->
  interpret self c (tu, streets) g = Some ((locals_after self c tu, streets), g).
Proof.
  intros Hc. unfold locals_after, interpret. rewrite Hc. simpl.
  destruct (c =? "+")%char; [reflexivity|].
  destruct (c =? "-")%char; [reflexivity|].
  destruct (c =? "[")%char; [reflexivity|].
  destruct (c =? "]")%char; [|reflexivity].
  destruct (stack tu) as [|[[x' y'] a'] rest]; reflexivity.
Qed.

Lemma locals_after_forward self tu : locals_after self "F" tu = moved tu.
Proof.
  unfold locals_after. rewrite interpret_forward.
  destruct (in_bounds self (new_x tu) (new_y tu)); reflexivity.
Qed.

(** One symbol, any symbol: the call returns, the locals are those of
    [locals_after], and at most one street is appended. *)
Lemma interpret_step self c tu streets g :
  exists g',
    interpret self c (tu, streets) g
    = Some ((locals_after self c tu,
             streets ++ (if (c =? "F")%char && in_bounds self (new_x tu) (new_y tu)
                         then [emitted tu g] else [])), g').
Proof.
  destruct (c =? "F")%char eqn:Hc.
  - apply Ascii.eqb_eq in Hc. subst c.
    rewrite interpret_forward, locals_after_forward. simpl.
    destruct (in_bounds self (new_x tu) (new_y tu)); eexists;
      rewrite ?app_nil_r; reflexivity.
  - exists g. simpl. rewrite app_nil_r. now apply interpret_other.
Qed.

Lemma emitted_length tu g :
  distance_to (street_start (emitted tu g)) (street_end (emitted tu g))
  = IZR step_size.
Proof.
  unfold distance_to, emitted, new_x, new_y, step_size.
  cbn [street_start street_end p_x p_y].
  set (a := radians (IZR (angle tu))).
  replace ((x tu - (x tu + 8 * cos a)) ^ 2 + (y tu - (y tu + 8 * sin a)) ^ 2)%R
    with (8 ^ 2 * ((sin a)² + (cos a)²))%R by (unfold Rsqr; ring).
  rewrite sin2_cos2, Rmult_1_r. apply sqrt_pow2. lra.
Qed.

Lemma emitted_drawn_by self tu g :
  in_bounds self (new_x tu) (new_y tu) = true -> drawn_by self (emitted tu g).
Proof.
  intros H. split; [|apply emitted_length].
  now apply in_bounds_spec in H.
Qed.

(** The whole loop: it returns, it only appends, it appends one street per
    forward symbol that ends on the canvas, and every appended street ends on
    the canvas and has the length of a step. *)
Lemma run_appends self chars : forall tu streets g,
  exists tu' new g',
    for_each (interpret self) chars (tu, streets) g
    = Some ((tu', streets ++ new), g')
    /\ length new = forward_in_bounds self chars tu
    /\ Forall (drawn_by self) new.
Proof.
  induction chars as [|c chars IH]; intros tu streets g.
  - exists tu, [], g. simpl. rewrite app_nil_r. repeat split. constructor.
  - destruct (interpret_step self c tu streets g) as [g1 E1].
    destruct (IH (locals_after self c tu)
                 (streets ++ (if (c =? "F")%char
                                 && in_bounds self (new_x tu) (new_y tu)
                              then [emitted tu g] else [])) g1)
      as (tu' & new & g' & E2 & Hlen & Hall).
    simpl for_each. rewrite (bind_Some _ _ _ _ _ E1), E2.
    destruct ((c =? "F")%char && in_bounds self (new_x tu) (new_y tu)) eqn:Hb.
    + exists tu', (emitted tu g :: new), g'. split; [|split].
      * rewrite <- (app_assoc streets [emitted tu g] new). reflexivity.
      * simpl. rewrite Hb, Hlen. reflexivity.
      * constructor; [|exact Hall].
        apply andb_true_iff in Hb. now apply emitted_drawn_by.
    + exists tu', new, g'. rewrite app_nil_r. split; [reflexivity|].
      split; [|exact Hall]. simpl. rewrite Hb. exact Hlen.
Qed.

Lemma generate_streets_appends self iterations g :
  exists new g',
    generate_streets self iterations g
    = Some ((mk (width self) (height self) (streets self ++ new) (l_system self),
             streets self ++ new), g')
    /\ length new
       = forward_in_bounds self
           (list_ascii_of_string (LSystem.generate (l_system self) iterations))
           (start self)
    /\ Forall (drawn_by self) new.
Proof.
  unfold generate_streets, run.
  destruct (run_appends self
              (list_ascii_of_string (LSystem.generate (l_system self) iterations))
              (start self) (streets self) g)
    as (tu' & new & g' & E & Hlen & Hall).
  exists new, g'. rewrite (bind_Some _ _ _ _ _ E). simpl. auto.
Qed.

(** *** Headings along the axes, and the loop on explicit locals *)

Lemma heading_east x0 y0 st :
  new_x (mkTurtle x0 y0 0 st) = (x0 + 8)%R /\ new_y (mkTurtle x0 y0 0 st) = y0.
Proof.
  unfold new_x, new_y, radians, step_size. cbn [x y angle].
  rewrite Rmult_0_l, cos_0, sin_0. split; lra.
Qed.

Lemma heading_north x0 y0 st :
  new_x (mkTurtle x0 y0 90 st) = x0 /\ new_y (mkTurtle x0 y0 90 st) = (y0 + 8)%R.
Proof.
  unfold new_x, new_y, radians, step_size. cbn [x y angle].
  replace (90 * (PI / 180))%R with (PI / 2)%R by lra.
  rewrite cos_PI2, sin_PI2. split; lra.
Qed.

Lemma heading_south x0 y0 st :
  new_x (mkTurtle x0 y0 (-90) st) = x0
  /\ new_y (mkTurtle x0 y0 (-90) st) = (y0 - 8)%R.
Proof.
  unfold new_x, new_y, radians, step_size. cbn [x y angle].
  replace (-90 * (PI / 180))%R with (- (PI / 2))%R by lra.
  rewrite cos_neg, sin_neg, cos_PI2, sin_PI2. split; lra.
Qed.

Lemma in_bounds_false self nx ny :
  ~ on_canvas (width self) (height self) (mkPoint nx ny) ->
  in_bounds self nx ny = false.
Proof.
  intros H. destruct (in_bounds self nx ny) eqn:E; [|reflexivity].
  now apply in_bounds_spec in E.
Qed.

Lemma for_each_cons {A S} (body : A -> S -> Rand S) a l s g s' g' :
  body a s g = Some (s', g') ->
  for_each body (a :: l) s g = for_each body l s' g'.
Proof. intros E. simpl. now rewrite (bind_Some _ _ _ _ _ E). Qed.

Lemma loop_draw self chars x0 y0 a st streets g x1 y1 :
  new_x (mkTurtle x0 y0 a st) = x1 ->
  new_y (mkTurtle x0 y0 a st) = y1 ->
  on_canvas (width self) (height self) (mkPoint x1 y1) ->
  for_each (interpret self) ("F"%char :: chars) (mkTurtle x0 y0 a st, streets) g
  = for_each (interpret self) chars
      (mkTurtle x1 y1 a st, streets ++ [emitted (mkTurtle x0 y0 a st) g])
      (advance (advance g)).
Proof.
  intros Hx Hy Hin. apply for_each_cons.
  rewrite interpret_forward. unfold moved. rewrite Hx, Hy.
  apply in_bounds_spec in Hin. now rewrite Hin.
Qed.

Lemma loop_skip self chars x0 y0 a st streets g x1 y1 :
  new_x (mkTurtle x0 y0 a st) = x1 ->
  new_y (mkTurtle x0 y0 a st) = y1 ->
  ~ on_canvas (width self) (height self) (mkPoint x1 y1) ->
  for_each (interpret self) ("F"%char :: chars) (mkTurtle x0 y0 a st, streets) g
  = for_each (interpret self) chars (mkTurtle x1 y1 a st, streets) g.
Proof.
  intros Hx Hy Hout. apply for_each_cons.
  rewrite interpret_forward. unfold moved. rewrite Hx, Hy.
  now rewrite (in_bounds_false _ _ _ Hout).
Qed.

Lemma loop_left self chars x0 y0 a st streets g :
  for_each (interpret self) ("+"%char :: chars) (mkTurtle x0 y0 a st, streets) g
  = for_each (interpret self) chars (mkTurtle x0 y0 (a + 90) st, streets) g.
Proof. reflexivity. Qed.

Lemma loop_right self chars x0 y0 a st streets g :
  for_each (interpret self) ("-"%char :: chars) (mkTurtle x0 y0 a st, streets) g
  = for_each (interpret self) chars (mkTurtle x0 y0 (a - 90) st, streets) g.
Proof. reflexivity. Qed.

End Streets.

Section StreetClaims.
Import StreetGenerator.

(** C1, as amended.  Every street a call of [generate_streets] appends ends
    on the canvas.  It starts at the position the turtle had before the
    move: a forward move from a position on the canvas that passes the test
    appends a street with both ends on the canvas. *)
Theorem emitted_streets_end_on_canvas (self : t) (iterations : Z) (g : Rng) :
  exists new g',
    generate_streets self iterations g
    = Some ((mk (width self) (height self) (streets self ++ new) (l_system self),
             streets self ++ new), g')
    /\ Forall (fun s => on_canvas (width self) (height self) (street_end s)) new
    /\ (forall tu streets0 g0,
          on_canvas (width self) (height self) (mkPoint (x tu) (y tu)) ->
          in_bounds self (new_x tu) (new_y tu) = true ->
          exists s g1,
            interpret self "F" (tu, streets0) g0
            = Some ((mkTurtle (new_x tu) (new_y tu) (angle tu) (stack tu),
                     streets0 ++ [s]), g1)
            /\ street_start s = mkPoint (x tu) (y tu)
            /\ on_canvas (width self) (height self) (street_start s)
            /\ on_canvas (width self) (height self) (street_end s)).
Proof.
  destruct (generate_streets_appends self iterations g) as (new & g' & E & _ & H).
  exists new, g'. split; [exact E|]. split.
  - eapply Forall_impl; [exact H|]. intros s Hs. apply Hs.
  - intros tu streets0 g0 Hc Hb.
    exists (emitted tu g0), (advance (advance g0)).
    rewrite interpret_forward, Hb.
    split; [reflexivity|]. split; [reflexivity|]. split; [exact Hc|].
    now apply in_bounds_spec in Hb.
Qed.

(** C1 fails as stated: on a canvas of 100 by 10, one iteration of the
    grammar draws three streets, and the second starts at (66, 13), above
    the canvas, where the turtle went on the two moves that were not drawn. *)
Lemma street_start_off_canvas :
  exists s1 s2 s3 g',
    generate_streets (new 100 10) 1 rng0
    = Some ((mk 100 10 [s1; s2; s3] (LSystem.mk "F" street_rules), [s1; s2; s3]), g')
    /\ street_start s2 = mkPoint 66 13
    /\ street_end s2 = mkPoint 66 5
    /\ ~ on_canvas 100 10 (street_start s2).
Proof.
  assert (L : LSystem.generate (l_system (new 100 10)) 1 = "F+F-F-F+F"%string)
    by (vm_compute; reflexivity).
  unfold generate_streets, run. rewrite L.
  change (list_ascii_of_string "F+F-F-F+F")
    with ["F"; "+"; "F"; "-"; "F"; "-"; "F"; "+"; "F"]%char.
  change (start (new 100 10)) with (mkTurtle 50 5 0 []).
  change (streets (new 100 10)) with (@nil Street).
  set (body := interpret (new 100 10)).
  assert (C : forall px py, (0 <= px <= 100)%R -> (0 <= py <= 10)%R ->
              on_canvas (width (new 100 10)) (height (new 100 10)) (mkPoint px py))
    by (intros; split; assumption).
  assert (NC : forall px py, (10 < py)%R ->
              ~ on_canvas (width (new 100 10)) (height (new 100 10)) (mkPoint px py))
    by (intros px py Hp [_ [_ Hy]]; simpl in Hy; lra).
  unfold bind at 1. subst body.
  rewrite (loop_draw _ _ 50 5 0 [] _ _ 58 5);
    [| destruct (heading_east 50 5 []) as [-> _]; lra
     | apply heading_east | apply C; lra].
  rewrite loop_left. change (0 + 90) with 90.
  rewrite (loop_skip _ _ 58 5 90 [] _ _ 58 13);
    [| apply heading_north
     | destruct (heading_north 58 5 []) as [_ ->]; lra | apply NC; lra].
  rewrite loop_right. change (90 - 90) with 0.
  rewrite (loop_skip _ _ 58 13 0 [] _ _ 66 13);
    [| destruct (heading_east 58 13 []) as [-> _]; lra
     | apply heading_east | apply NC; lra].
  rewrite loop_right. change (0 - 90) with (-90).
  rewrite (loop_draw _ _ 66 13 (-90) [] _ _ 66 5);
    [| apply heading_south
     | destruct (heading_south 66 13 []) as [_ ->]; lra | apply C; lra].
  rewrite loop_left. change (-90 + 90) with 0.
  rewrite (loop_draw _ _ 66 5 0 [] _ _ 74 5);
    [| destruct (heading_east 66 5 []) as [-> _]; lra
     | apply heading_east | apply C; lra].
  cbn [for_each ret app snd].
  do 4 eexists. split; [reflexivity|].
  split; [reflexivity|]. split.
  - unfold emitted. cbn [street_end].
    destruct (heading_south 66 13 []) as [-> ->]. f_equal. lra.
  - unfold emitted. cbn [street_start]. intros [_ [_ Hy]]. simpl in Hy. lra.
Qed.

(** The same at any position: a forward move that passes the test from a
    position off the canvas appends a street that starts off the canvas. *)
Lemma reentry_starts_off_canvas (self : t) (tu : turtle)
    (streets0 : list Street) (g0 : Rng) :
  ~ on_canvas (width self) (height self) (mkPoint (x tu) (y tu)) ->
  in_bounds self (new_x tu) (new_y tu) = true ->
  exists s g1,
    interpret self "F" (tu, streets0) g0
    = Some ((mkTurtle (new_x tu) (new_y tu) (angle tu) (stack tu),
             streets0 ++ [s]), g1)
    /\ street_start s = mkPoint (x tu) (y tu)
    /\ ~ on_canvas (width self) (height self) (street_start s)
    /\ on_canvas (width self) (height self) (street_end s).
Proof.
  intros Hc Hb. exists (emitted tu g0), (advance (advance g0)).
  rewrite interpret_forward, Hb.
  split; [reflexivity|]. split; [reflexivity|]. split; [exact Hc|].
  now apply in_bounds_spec in Hb.
Qed.

(** C3.  [generate_streets] appends to [self.streets] and never empties it:
    whatever the object holds before a call is a prefix of what the call
    stores and returns.  On a fresh generator for a canvas of 100 by 100,
    two calls with zero iterations return one street, then two, the first
    of which is the street of the first call. *)
Theorem generate_streets_twice_accumulates :
  (forall (self : t) (iterations : Z) (g : Rng),
      exists new g',
        generate_streets self iterations g
        = Some ((mk (width self) (height self) (streets self ++ new) (l_system self),
                 streets self ++ new), g'))
  /\ (forall g : Rng,
        exists s1 s2 g1 g2,
          generate_streets (new 100 100) 0 g
          = Some ((mk 100 100 [s1] (LSystem.mk "F" street_rules), [s1]), g1)
          /\ generate_streets (mk 100 100 [s1] (LSystem.mk "F" street_rules)) 0 g1
             = Some ((mk 100 100 [s1; s2] (LSystem.mk "F" street_rules), [s1; s2]), g2)).
Proof.
  split.
  - intros self iterations g.
    destruct (generate_streets_appends self iterations g) as (nw & g' & E & _).
    now exists nw, g'.
  - intros g.
    assert (D : forall streets0 g0,
      generate_streets (mk 100 100 streets0 (LSystem.mk "F" street_rules)) 0 g0
      = Some ((mk 100 100 (streets0 ++ [emitted (mkTurtle 50 50 0 []) g0])
                 (LSystem.mk "F" street_rules),
               streets0 ++ [emitted (mkTurtle 50 50 0 []) g0]),
              advance (advance g0))).
    { intros streets0 g0. unfold generate_streets, run.
      change (list_ascii_of_string (LSystem.generate _ 0)) with ["F"%char].
      change (start _) with (mkTurtle 50 50 0 []).
      unfold bind at 1.
      rewrite (loop_draw _ _ 50 50 0 [] _ _ 58 50);
        [ reflexivity
        | destruct (heading_east 50 50 []) as [-> _]; lra
        | apply heading_east
        | split; simpl; lra ]. }
    exists (emitted (mkTurtle 50 50 0 []) g),
           (emitted (mkTurtle 50 50 0 []) (advance (advance g))),
           (advance (advance g)), (advance (advance (advance (advance g)))).
    split; [apply (D [] g) | apply (D [_] _)].
Qed.

(** C6.  A push followed at once by a pop leaves position, heading and
    stack as they were, whatever follows; a pop on an empty stack changes
    nothing. *)
Theorem push_pop_restores :
  (forall (self : t) (tu : turtle) (streets : list Street) (g : Rng),
      run self "[]" (tu, streets) g = Some ((tu, streets), g))
  /\ (forall (self : t) (rest : list ascii) (tu : turtle)
             (streets : list Street) (g : Rng),
        for_each (interpret self) ("["%char :: "]"%char :: rest) (tu, streets) g
        = for_each (interpret self) rest (tu, streets) g)
  /\ (forall (self : t) (x0 y0 : R) (a : Z) (streets : list Street) (g : Rng),
        interpret self "]" (mkTurtle x0 y0 a [], streets) g
        = Some ((mkTurtle x0 y0 a [], streets), g)).
Proof.
  split; [|split].
  - intros self [x0 y0 a st] streets g. reflexivity.
  - intros self rest [x0 y0 a st] streets g. reflexivity.
  - reflexivity.
Qed.

End StreetClaims.

(** ** Partition generator *)

Section Districts.
Import VoronoiGenerator.

Lemma keep_spec (region : list Z) :
  keep region = true <-> ((-1) ∉ region) /\ (0 < length region)%nat.
Proof.
  unfold keep. rewrite andb_true_iff, bool_decide_eq_true, Nat.ltb_lt. tauto.
Qed.

(** The loop returns the districts it was given followed by the vertices of
    the regions that pass the test, in the order of the seeds. *)
Lemma collect_spec (vor : Voronoi) (idxs : list Z) :
  forall acc ds,
    collect vor idxs acc = Some ds ->
    exists regs kept,
      mapM (index (regions vor)) idxs = Some regs
      /\ mapM (mapM (vertex_point vor)) (List.filter keep regs) = Some kept
      /\ ds = acc ++ kept.
Proof.
  induction idxs as [|i rest IH]; intros acc ds H.
  - injection H as <-. exists [], []. now rewrite app_nil_r.
  - simpl in H.
    destruct (index (regions vor) i) as [region|] eqn:Ei; [|discriminate].
    simpl in H. destruct (keep region) eqn:Ek.
    + destruct (mapM (vertex_point vor) region) as [dp|] eqn:Ed; [|discriminate].
      simpl in H. apply IH in H as (regs & kept & Hr & Hk & ->).
      exists (region :: regs), (dp :: kept). split; [|split].
      * simpl. rewrite Ei. simpl. now rewrite Hr.
      * simpl. rewrite Ek. simpl. rewrite Ed. simpl. now rewrite Hk.
      * now rewrite <- app_assoc.
    + apply IH in H as (regs & kept & Hr & Hk & ->).
      exists (region :: regs), kept. split; [|split].
      * simpl. rewrite Ei. simpl. now rewrite Hr.
      * simpl. now rewrite Ek.
      * reflexivity.
Qed.

(** A call stores the list it returns, whatever was stored before. *)
Lemma generate_districts_replaces (self self' : t) vor ds :
  generate_districts self vor = Some (self', ds) -> districts self' = ds.
Proof.
  unfold generate_districts.
  destruct (collect vor (point_region vor) []) as [d|]; [|discriminate].
  simpl. intros H. now injection H as <- <-.
Qed.

End Districts.

(** ** Terrain generator: rivers *)

Section Rivers.
Import CellularAutomaton.

Lemma no_repeat_snoc (l : list Point) (p q : Point) :
  no_repeat l -> last l = Some p -> p <> q -> no_repeat (l ++ [q]).
Proof.
  induction l as [|a l IH]; intros Hn Hl Hpq; [discriminate|].
  destruct l as [|b l].
  - simpl in *. injection Hl as ->. now split.
  - destruct Hn as [Hab Hn]. change (a <> b /\ no_repeat ((b :: l) ++ [q])).
    split; [exact Hab|]. now apply IH.
Qed.

Lemma point_neq (a b c d : Z) :
  (a, b) <> (c, d) -> mkPoint (IZR a) (IZR b) <> mkPoint (IZR c) (IZR d).
Proof.
  intros Hne Heq. injection Heq as H1 H2.
  apply eq_IZR in H1, H2. now subst.
Qed.

Lemma direction_drawn (b : bool) (g : Rng) :
  exists d, (if b then choice [0; 1] else choice [-1; 0]) g = Some (d, advance g).
Proof. destruct b; eexists; apply choice_eq. Qed.

Lemma walk_step_spec self p0 st g :
  walking p0 st ->
  exists st' g',
    walk_step self st g = Some (st', g')
    /\ walking p0 st'
    /\ (length (fst (fst st)) <= length (fst (fst st'))
        <= S (length (fst (fst st))))%nat.
Proof.
  destruct st as [[pts cx] cy]. intros (Hhead & Hlast & Hnr). unfold walk_step.
  destruct (direction_drawn (cx <? width self / 2) g) as [dx Ex].
  destruct (direction_drawn (cy <? height self / 2) (advance g)) as [dy Ey].
  rewrite (bind_Some _ _ _ _ _ Ex), (bind_Some _ _ _ _ _ Ey).
  set (nx := Z.max 0 (Z.min (width self - 1) (cx + dx))).
  set (ny := Z.max 0 (Z.min (height self - 1) (cy + dy))).
  destruct (bool_decide ((nx, ny) <> (cx, cy))) eqn:Hd.
  - apply bool_decide_eq_true in Hd.
    eexists _, _. split; [reflexivity|]. split; [split; [|split]|].
    + destruct pts; [discriminate | exact Hhead].
    + now rewrite last_snoc.
    + apply no_repeat_snoc with (mkPoint (IZR cx) (IZR cy)); [assumption..|].
      apply point_neq. congruence.
    + simpl. rewrite length_app. simpl. lia.
  - eexists _, _. split; [reflexivity|]. split; [now repeat split|]. simpl. lia.
Qed.

Lemma walk_spec self p0 (n : nat) : forall st g,
  walking p0 st ->
  exists st' g',
    repeat_n n (walk_step self) st g = Some (st', g')
    /\ walking p0 st'
    /\ (length (fst (fst st)) <= length (fst (fst st'))
        <= length (fst (fst st)) + n)%nat.
Proof.
  induction n as [|n IH]; intros st g Hw.
  - exists st, g. repeat split; [assumption.. | lia | lia].
  - destruct (walk_step_spec self p0 st g Hw) as (st1 & g1 & E1 & Hw1 & Hl1).
    destruct (IH st1 g1 Hw1) as (st2 & g2 & E2 & Hw2 & Hl2).
    exists st2, g2. simpl. rewrite (bind_Some _ _ _ _ _ E1).
    split; [exact E2|]. split; [exact Hw2 | lia].
Qed.

Lemma walking_spawn (s : Z * Z) :
  walking (mkPoint (IZR (fst s)) (IZR (snd s)))
          ([mkPoint (IZR (fst s)) (IZR (snd s))], fst s, snd s).
Proof. now repeat split. Qed.

(** One river, with its draws. *)
Lemma generate_river_of_draws self g r g' :
  generate_river self g = Some (r, g') -> river_of_draws self g r.
Proof.
  unfold generate_river. intros H.
  apply bind_inv in H as (s & g1 & Hs & H).
  apply bind_inv in H as (steps & g2 & Hsteps & H).
  pose proof (randint_range _ _ _ _ _ Hsteps) as [Hrange _].
  destruct (walk_spec self _ (Z.to_nat steps) _ g2 (walking_spawn s))
    as (st' & g3 & E & Hw & Hlen).
  rewrite (bind_Some _ _ _ _ _ E) in H.
  unfold bind in H. rewrite uniform_eq in H. injection H as <- _.
  exists s, g1, steps, g2. destruct st' as [[pts cx] cy].
  destruct Hw as (Hhead & _ & Hnr). simpl in *.
  repeat split; [assumption | assumption | lia | lia | assumption
                 | lia | lia | assumption].
Qed.

Lemma generate_river_shape self g r g' :
  generate_river self g = Some (r, g') -> river_shape r.
Proof.
  intros H. apply generate_river_of_draws in H
    as (s & g1 & steps & g2 & _ & _ & Hr & _ & Hl & Hn).
  now exists steps.
Qed.

Lemma spawn_returns self g :
  1 <= width self -> 1 <= height self ->
  exists s g', spawn self g = Some (s, g').
Proof.
  intros Hw Hh. unfold spawn. unfold bind at 1. rewrite random_eq.
  destruct (Rltb (unit_draw g) 0.5).
  - unfold bind at 1. rewrite random_eq.
    unfold bind at 1. rewrite randint_eq by lia. now eexists _, _.
  - unfold bind at 1. rewrite randint_eq by lia.
    unfold bind at 1. rewrite random_eq. now eexists _, _.
Qed.

Lemma generate_river_returns self g :
  1 <= width self -> 1 <= height self ->
  exists r g', generate_river self g = Some (r, g').
Proof.
  intros Hw Hh. unfold generate_river.
  destruct (spawn_returns self g Hw Hh) as (s & g1 & Es).
  rewrite (bind_Some _ _ _ _ _ Es).
  unfold bind at 1. rewrite randint_eq by lia.
  set (steps := 20 + Z.of_N (tape g1 (cursor g1)) mod (50 - 20 + 1)).
  destruct (walk_spec self _ (Z.to_nat steps) _ (advance g1) (walking_spawn s))
    as (st' & g3 & E & _).
  rewrite (bind_Some _ _ _ _ _ E).
  unfold bind. rewrite uniform_eq. now eexists _, _.
Qed.

Lemma rivers_loop_shape self (n : nat) : forall acc g rivers g',
  Forall river_shape acc ->
  repeat_n n (fun rivers => r <- generate_river self ;; ret (rivers ++ [r])) acc g
  = Some (rivers, g') ->
  Forall river_shape rivers.
Proof.
  induction n as [|n IH]; intros acc g rivers g' Hacc H.
  - injection H as <- _. exact Hacc.
  - simpl in H. apply bind_inv in H as (acc1 & g1 & H1 & H).
    apply bind_inv in H1 as (r & g2 & Hr & H1). injection H1 as <- <-.
    apply (IH _ _ _ _ (Forall_app_2 _ _ _ Hacc
                         (Forall_cons_2 _ _ _ (generate_river_shape _ _ _ _ Hr)
                                        (Forall_nil_2 _))) H).
Qed.

Lemma rivers_loop_returns self (n : nat) : forall acc g,
  1 <= width self -> 1 <= height self ->
  exists rivers g',
    repeat_n n (fun rivers => r <- generate_river self ;; ret (rivers ++ [r])) acc g
    = Some (rivers, g')
    /\ length rivers = (length acc + n)%nat.
Proof.
  induction n as [|n IH]; intros acc g Hw Hh.
  - exists acc, g. split; [reflexivity | lia].
  - destruct (generate_river_returns self g Hw Hh) as (r & g1 & Er).
    destruct (IH (acc ++ [r]) g1 Hw Hh) as (rivers & g' & E & Hlen).
    exists rivers, g'. simpl. unfold bind at 1. unfold bind at 1.
    rewrite Er. simpl. split; [exact E|].
    rewrite Hlen, length_app. simpl. lia.
Qed.

(** C7.  Every river [generate_rivers] returns has between 1 and 51 points:
    the spawn point and at most one point for each of the 20 to 50 steps of
    its walk, a step being recorded only when it leaves the previous point.
    For one river the steps are the value [randint(20, 50)] returned and the
    first point is the spawn point.  On a canvas of at least one cell each
    way the call returns, with the number of rivers asked for. *)
Theorem rivers_have_1_to_51_points (self : t) (num_rivers : Z) (g : Rng) :
  (forall rivers g',
      generate_rivers self num_rivers g = Some (rivers, g') ->
      Forall (fun r => river_shape r
                       /\ (1 <= length (river_points r) <= 51)%nat) rivers)
  /\ (forall r g', generate_river self g = Some (r, g') -> river_of_draws self g r)
  /\ (1 <= width self -> 1 <= height self ->
      exists rivers g',
        generate_rivers self num_rivers g = Some (rivers, g')
        /\ length rivers = Z.to_nat num_rivers).
Proof.
  split.
  - intros rivers g' H. unfold generate_rivers in H.
    apply rivers_loop_shape in H; [|constructor].
    eapply Forall_impl; [exact H|]. intros r Hr. split; [exact Hr|].
    destruct Hr as (steps & Hs & Hl & _). lia.
  - split; [intros r g'; apply generate_river_of_draws|].
    intros Hw Hh. unfold generate_rivers.
    destruct (rivers_loop_returns self (Z.to_nat num_rivers) [] g Hw Hh)
      as (rivers & g' & E & Hlen).
    now exists rivers, g'.
Qed.

(** The theorem applies: three rivers on a canvas of 100 by 100. *)
Lemma rivers_have_1_to_51_points_witness :
  exists rivers g',
    generate_rivers (mk 100 100) 3 rng0 = Some (rivers, g')
    /\ length rivers = 3%nat
    /\ Forall (fun r => river_shape r
                        /\ (1 <= length (river_points r) <= 51)%nat) rivers.
Proof.
  destruct (rivers_have_1_to_51_points (mk 100 100) 3 rng0)
    as (Hshape & _ & Hret).
  destruct (Hret ltac:(simpl; lia) ltac:(simpl; lia))
    as (rivers & g' & E & Hlen).
  exists rivers, g'. split; [exact E|]. split; [exact Hlen|].
  exact (Hshape rivers g' E).
Defined.

End Rivers.

(** ** Building placer *)

Section Buildings.
Import BuildingGenerator.

Lemma frontage_spec street n i acc g :
  exists b g',
    frontage street n i acc g = Some (acc ++ [b], g') /\ placed street n i b.
Proof.
  unfold frontage, building_types.
  do 4 draw_uniform. draw_choice.
  eexists _, _. split; [reflexivity|].
  eexists _, _, _. split; [reflexivity|].
  split; [apply uniform_bounds; lra|].
  split; [apply uniform_bounds; lra | reflexivity].
Qed.

Lemma frontage_loop street n (idxs : list Z) : forall acc g,
  exists new g',
    for_each (frontage street n) idxs acc g = Some (acc ++ new, g')
    /\ Forall2 (placed street n) idxs new.
Proof.
  induction idxs as [|i idxs IH]; intros acc g.
  - exists [], g. rewrite app_nil_r. split; [reflexivity | constructor].
  - destruct (frontage_spec street n i acc g) as (b & g1 & E1 & Hb).
    destruct (IH (acc ++ [b]) g1) as (new & g' & E2 & Hall).
    exists (b :: new), g'. simpl. rewrite (bind_Some _ _ _ _ _ E1), E2.
    rewrite <- (app_assoc acc [b] new). split; [reflexivity|].
    now constructor.
Qed.

Lemma distance_to_nonneg p q : (0 <= distance_to p q)%R.
Proof. apply sqrt_pos. Qed.

Lemma num_street_buildings_floor street :
  num_street_buildings street
  = Zfloor (distance_to (street_start street) (street_end street) / 3)
  /\ 0 <= num_street_buildings street.
Proof.
  unfold num_street_buildings, int.
  set (len := distance_to (street_start street) (street_end street)).
  assert (H : (0 <= len / 3)%R)
    by (pose proof (distance_to_nonneg (street_start street) (street_end street));
        unfold len; lra).
  destruct (Rle_dec 0 (len / 3)) as [_|N]; [|contradiction].
  split; [reflexivity|]. now apply (Zfloor_lub 0).
Qed.

Lemma param_spec (n i : Z) :
  0 <= i < n ->
  (1 < n -> param n i = (IZR i / IZR (n - 1))%R)
  /\ (n = 1 -> i = 0 /\ param n i = 0%R)
  /\ (0 <= param n i <= 1)%R.
Proof.
  intros Hi. unfold param.
  assert (Hm : 1 <= Z.max 1 (n - 1)) by lia.
  assert (Hp : (0 < IZR (Z.max 1 (n - 1)))%R) by (apply IZR_lt; lia).
  split; [|split].
  - intros Hn. now rewrite Z.max_r by lia.
  - intros ->. assert (i = 0) by lia. subst i. split; [reflexivity|].
    unfold Rdiv. apply Rmult_0_l.
  - assert (H0 : (0 <= IZR i)%R) by (apply IZR_le; lia).
    split.
    + apply Rmult_le_pos; [exact H0 | left; now apply Rinv_0_lt_compat].
    + apply Rmult_le_reg_r with (IZR (Z.max 1 (n - 1))); [exact Hp|].
      unfold Rdiv. rewrite Rmult_assoc, Rinv_l, Rmult_1_r, Rmult_1_l by lra.
      apply IZR_le. lia.
Qed.

(** A street drawn by the street synthesizer is 8 long, so it gets
    floor(8 / 3) = 2 frontage buildings, one at each end. *)
Lemma emitted_street_gets_two_buildings tu g :
  num_street_buildings (emitted tu g) = 2.
Proof.
  destruct (num_street_buildings_floor (emitted tu g)) as [-> _].
  rewrite emitted_length. apply Zfloor_eq.
  unfold StreetGenerator.step_size. split; lra.
Qed.

Lemma fold_left_Rplus (l : list R) (a : R) :
  fold_left Rplus l a = (a + fold_right Rplus 0 l)%R.
Proof.
  revert a. induction l as [|r l IH]; intros a; simpl.
  - lra.
  - rewrite IH. lra.
Qed.

Lemma center_is_mean (district : list Point) :
  center_x district = mean (map p_x district)
  /\ center_y district = mean (map p_y district).
Proof.
  unfold center_x, center_y, mean, sum.
  rewrite !fold_left_Rplus, !length_map, !Rplus_0_l. now split.
Qed.



(** A call stores the list it returns, whatever was stored before. *)
Lemma generate_buildings_replaces self streets districts num self' bs g g' :
  generate_buildings self streets districts num g = Some ((self', bs), g') ->
  buildings self' = bs.
Proof.
  unfold generate_buildings. intros H.
  apply bind_inv in H as (b1 & g1 & _ & H).
  apply bind_inv in H as (b2 & g2 & _ & H).
  now injection H as <- <- _.
Qed.



End Buildings.

(** ** Streets and frontage in any arithmetic *)

Section MachineStreets.
Import Machine.
Context {num : Type} {A : Arithmetic num}.

Lemma arith_uniform_eq (a b : num) g :
  uniform a b g = Some ((a + (b - a) * unit_draw g)%num, advance g).
Proof. reflexivity. Qed.

Lemma arith_in_bounds_spec (self : StreetGenerator num) nx ny :
  in_bounds self nx ny = true
  <-> within_canvas (width self) (height self) (mkPoint nx ny).
Proof.
  unfold in_bounds, within_canvas. cbn [p_x p_y].
  rewrite !andb_true_iff, !flt_leb_le. tauto.
Qed.

Lemma arith_in_bounds_dec (self : StreetGenerator num) (tu : turtle num) :
  in_bounds self (new_x tu) (new_y tu)
  = if within_canvas_dec (width self) (height self) (ahead (position tu) (angle tu))
    then true else false.
Proof.
  change (ahead (position tu) (angle tu)) with (mkPoint (new_x tu) (new_y tu)).
  destruct (within_canvas_dec _ _ _) as [H|H].
  - now apply arith_in_bounds_spec.
  - destruct (in_bounds self (new_x tu) (new_y tu)) eqn:E; [|reflexivity].
    now apply arith_in_bounds_spec in E.
Qed.

(** A forward symbol, by cases on the test. *)
Lemma arith_interpret_forward (self : StreetGenerator num) tu streets g :
  interpret self "F" (tu, streets) g
  = if in_bounds self (new_x tu) (new_y tu)
    then Some ((mkTurtle (new_x tu) (new_y tu) (angle tu) (stack tu),
                streets ++ [mkStreet (position tu) (ahead (position tu) (angle tu))
                              (half + (of_int 2 - half) * unit_draw g)%num
                              (nth (pick 3 (advance g))
                                 ["main"; "secondary"; "residential"]%string
                                 "main"%string)]),
               advance (advance g))
    else Some ((mkTurtle (new_x tu) (new_y tu) (angle tu) (stack tu), streets), g).
Proof.
  unfold interpret. simpl.
  destruct (in_bounds self (new_x tu) (new_y tu)); [|reflexivity].
  unfold bind at 1. unfold bind at 1. rewrite arith_uniform_eq.
  unfold bind at 1. rewrite choice_eq. reflexivity.
Qed.


(** The loop over any symbols: it returns, it only appends, it appends one
    street per forward symbol whose end point is on the canvas, and every
    appended street ends one step ahead of its start. *)
Lemma arith_run_appends (self : StreetGenerator num) chars :
  forall tu streets g,
  exists tu' new g',
    for_each (interpret self) chars (tu, streets) g
    = Some ((tu', streets ++ new), g')
    /\ length new
       = forward_on_canvas (width self) (height self) chars
           (position tu) (angle tu) (saved tu)
    /\ Forall (fun s => exists heading,
                 street_end s = ahead (street_start s) heading) new.
Proof.
  induction chars as [|c chars IH]; intros tu streets g.
  - exists tu, [], g. rewrite app_nil_r. repeat split. constructor.
  - cbn [forward_on_canvas].
    destruct (c =? "F")%char eqn:EF.
    { apply Ascii.eqb_eq in EF. subst c.
      cbn [for_each]. unfold bind at 1.
      rewrite arith_interpret_forward, arith_in_bounds_dec.
      destruct (within_canvas_dec _ _ _) as [Hin|Hout].
      - match goal with
        | |- context [for_each _ _ (?t, streets ++ [?s]) ?g1] =>
            destruct (IH t (streets ++ [s]) g1) as (tu' & new & g' & E & Hlen & Hall);
            exists tu', (s :: new), g'
        end.
        rewrite E, <- app_assoc. split; [reflexivity|]. split.
        + simpl. now rewrite Hlen.
        + constructor; [|exact Hall]. now exists (angle tu).
      - match goal with
        | |- context [for_each _ _ (?t, streets) ?g1] =>
            destruct (IH t streets g1) as (tu' & new & g' & E & Hlen & Hall);
            exists tu', new, g'
        end.
        rewrite E. split; [reflexivity|]. split; [|exact Hall].
        simpl. exact Hlen. }
    assert (Step : forall t,
      interpret self c (tu, streets) g = Some ((t, streets), g) ->
      forall n,
      forward_on_canvas (width self) (height self) chars
        (position t) (angle t) (saved t) = n ->
      exists tu' new g',
        for_each (interpret self) (c :: chars) (tu, streets) g
        = Some ((tu', streets ++ new), g')
        /\ length new = n
        /\ Forall (fun s => exists heading,
                     street_end s = ahead (street_start s) heading) new).
    { intros t Et n <-.
      destruct (IH t streets g) as (tu' & new & g' & E & Hlen & Hall).
      exists tu', new, g'. cbn [for_each]. unfold bind at 1. rewrite Et.
      auto. }
    destruct (c =? "+")%char eqn:EP.
    { eapply Step; [unfold interpret; rewrite EF, EP; reflexivity|reflexivity]. }
    destruct (c =? "-")%char eqn:EM.
    { eapply Step; [unfold interpret; rewrite EF, EP, EM; reflexivity|reflexivity]. }
    destruct (c =? "[")%char eqn:EO.
    { eapply Step; [unfold interpret; rewrite EF, EP, EM, EO; reflexivity|reflexivity]. }
    destruct (c =? "]")%char eqn:EC.
    { destruct tu as [x0 y0 a0 [|[[x1 y1] a1] rest]].
      - eapply Step;
          [unfold interpret; rewrite EF, EP, EM, EO, EC; reflexivity|reflexivity].
      - eapply Step;
          [unfold interpret; rewrite EF, EP, EM, EO, EC; reflexivity|reflexivity]. }
    destruct tu as [x0 y0 a0 st0].
    eapply Step; [unfold interpret; rewrite EF, EP, EM, EO, EC; reflexivity|reflexivity].
Qed.

Lemma arith_generate_streets_appends (self : StreetGenerator num) iterations g :
  exists new g',
    generate_streets self iterations g
    = Some ((mkStreetGenerator (width self) (height self) (streets self ++ new)
               (l_system self),
             streets self ++ new), g')
    /\ length new
       = forward_on_canvas (width self) (height self)
           (list_ascii_of_string (LSystem.generate (l_system self) iterations))
           (mkPoint (of_int (width self / 2)) (of_int (height self / 2))) 0 []
    /\ Forall (fun s => exists heading,
                 street_end s = ahead (street_start s) heading) new.
Proof.
  unfold generate_streets, run.
  destruct (arith_run_appends self
              (list_ascii_of_string (LSystem.generate (l_system self) iterations))
              (start self) (streets self) g)
    as (tu' & new & g' & E & Hlen & Hall).
  exists new, g'. unfold bind at 1. rewrite E. auto.
Qed.

(** C5.  In any arithmetic, a forward symbol appends a street from the
    position of the turtle to the point one step ahead exactly when that
    point is on the canvas, and moves the turtle there in both cases; so a
    run of the loop, and a call of [generate_streets], appends as many
    streets as there are forward symbols whose end point is on the canvas. *)
Theorem forward_emits_iff_on_canvas :
  (forall (self : StreetGenerator num) (tu : turtle num)
          (streets : list (Street num)) (g : Rng),
      exists streets' g',
        interpret self "F" (tu, streets) g
        = Some ((mkTurtle (p_x (ahead (position tu) (angle tu)))
                          (p_y (ahead (position tu) (angle tu)))
                          (angle tu) (stack tu), streets'), g')
        /\ (within_canvas (width self) (height self)
              (ahead (position tu) (angle tu)) ->
            exists w ty,
              streets'
              = streets ++ [mkStreet (position tu)
                              (ahead (position tu) (angle tu)) w ty])
        /\ (~ within_canvas (width self) (height self)
                (ahead (position tu) (angle tu)) ->
            streets' = streets /\ g' = g))
  /\ (forall (self : StreetGenerator num) (l_string : string) (tu : turtle num)
             (streets : list (Street num)) (g : Rng),
        exists tu' new g',
          run self l_string (tu, streets) g = Some ((tu', streets ++ new), g')
          /\ length new
             = forward_on_canvas (width self) (height self)
                 (list_ascii_of_string l_string)
                 (position tu) (angle tu) (saved tu))
  /\ (forall (self : StreetGenerator num) (iterations : Z) (g : Rng),
        exists new g',
          generate_streets self iterations g
          = Some ((mkStreetGenerator (width self) (height self)
                     (streets self ++ new) (l_system self),
                   streets self ++ new), g')
          /\ length new
             = forward_on_canvas (width self) (height self)
                 (list_ascii_of_string
                    (LSystem.generate (l_system self) iterations))
                 (mkPoint (of_int (width self / 2)) (of_int (height self / 2)))
                 0 []).
Proof.
  split; [|split].
  - intros self tu streets g.
    rewrite arith_interpret_forward, arith_in_bounds_dec.
    destruct (within_canvas_dec _ _ _) as [Hin|Hout].
    + eexists _, _. split; [reflexivity|]. split.
      * intros _. eexists _, _. reflexivity.
      * intros N. contradiction.
    + eexists _, _. split; [reflexivity|]. split.
      * intros Hin. contradiction.
      * intros _. split; reflexivity.
  - intros self l_string tu streets g. unfold run.
    destruct (arith_run_appends self (list_ascii_of_string l_string) tu streets g)
      as (tu' & new & g' & E & Hlen & _).
    now exists tu', new, g'.
  - intros self iterations g.
    destruct (arith_generate_streets_appends self iterations g)
      as (new & g' & E & Hlen & _).
    now exists new, g'.
Qed.

End MachineStreets.

Section MachineFrontage.
Import Machine.
Context {num : Type} {A : Arithmetic num}.




End MachineFrontage.

Section ExactArithmetic.
Import Machine.



Lemma exact_ahead_distance (p : Point R) (heading : Z) :
  euclidean (p_x p) (p_y p) (p_x (ahead p heading)) (p_y (ahead p heading)) = 8%R
  /\ distance_to p (ahead p heading) = 8%R.
Proof.
  unfold euclidean, distance_to, ahead.
  cbn [p_x p_y flt_add flt_sub flt_mul flt_sqr math_sqrt math_cos math_sin of_int exact].
  set (a := math_radians (IZR heading)).
  split.
  - replace ((p_x p + 8 * cos a - p_x p) * (p_x p + 8 * cos a - p_x p)
             + (p_y p + 8 * sin a - p_y p) * (p_y p + 8 * sin a - p_y p))%R
      with (8 ^ 2 * ((sin a)² + (cos a)²))%R by (unfold Rsqr; ring).
    rewrite sin2_cos2, Rmult_1_r. apply sqrt_pow2. lra.
  - replace ((p_x p - (p_x p + 8 * cos a)) ^ 2
             + (p_y p - (p_y p + 8 * sin a)) ^ 2)%R
      with (8 ^ 2 * ((sin a)² + (cos a)²))%R by (unfold Rsqr; ring).
    rewrite sin2_cos2, Rmult_1_r. apply sqrt_pow2. lra.
Qed.




End ExactArithmetic.

(** ** The first model is the exact instance *)

Section ExactAgrees.
#[local] Existing Instance Machine.exact.

Lemma exact_interpret_agrees (self : StreetGenerator.t) (c : ascii)
    (tu : StreetGenerator.turtle) (streets : list Street) (g : Rng) :
  Machine.interpret (real_generator self) c (real_turtle tu, map real_street streets) g
  = match StreetGenerator.interpret self c (tu, streets) g with
    | Some (st, g') => Some ((real_turtle (fst st), map real_street (snd st)), g')
    | None => None
    end.
Proof.
  destruct (c =? "F")%char eqn:EF.
  { apply Ascii.eqb_eq in EF. subst c.
    rewrite arith_interpret_forward, interpret_forward.
    change (Machine.in_bounds (real_generator self)
              (Machine.new_x (real_turtle tu)) (Machine.new_y (real_turtle tu)))
      with (StreetGenerator.in_bounds self (StreetGenerator.new_x tu)
              (StreetGenerator.new_y tu)).
    destruct (StreetGenerator.in_bounds self _ _); [|reflexivity].
    cbn [fst snd]. rewrite map_app. cbn [map].
    do 4 f_equal. unfold real_street, emitted.
    cbn [street_start street_end street_width street_type].
    unfold Machine.half, Machine.unit_draw, unit_draw.
    cbn [Machine.flt_add Machine.flt_sub Machine.flt_mul Machine.flt_div
         Machine.of_int Machine.exact].
    set (u := (IZR (Z.of_N (tape g (cursor g)) mod 2 ^ 53) / IZR (2 ^ 53))%R).
    replace (1 / 2 + (2 - 1 / 2) * u)%R with (0.5 + (2.0 - 0.5) * u)%R by lra.
    reflexivity. }
  unfold Machine.interpret, StreetGenerator.interpret. rewrite EF.
  destruct (c =? "+")%char; [reflexivity|].
  destruct (c =? "-")%char; [reflexivity|].
  destruct (c =? "[")%char; [reflexivity|].
  destruct (c =? "]")%char; [|reflexivity].
  destruct tu as [x0 y0 a0 [|[[x1 y1] a1] rest]]; reflexivity.
Qed.

Lemma exact_run_agrees (self : StreetGenerator.t) (chars : list ascii) :
  forall tu streets g,
    for_each (Machine.interpret (real_generator self)) chars
      (real_turtle tu, map real_street streets) g
    = match for_each (StreetGenerator.interpret self) chars (tu, streets) g with
      | Some (st, g') => Some ((real_turtle (fst st), map real_street (snd st)), g')
      | None => None
      end.
Proof.
  induction chars as [|c chars IH]; intros tu streets g; [reflexivity|].
  cbn [for_each]. unfold bind. rewrite exact_interpret_agrees.
  destruct (StreetGenerator.interpret self c (tu, streets) g)
    as [[[tu1 streets1] g1]|]; [|reflexivity].
  apply IH.
Qed.

(** Over the reals [Machine.generate_streets] is the [generate_streets] of
    the first model. *)
Lemma exact_generate_streets_agrees (self : StreetGenerator.t) (iterations : Z)
    (g : Rng) :
  Machine.generate_streets (real_generator self) iterations g
  = match StreetGenerator.generate_streets self iterations g with
    | Some (r, g') => Some ((real_generator (fst r), map real_street (snd r)), g')
    | None => None
    end.
Proof.
  unfold Machine.generate_streets, StreetGenerator.generate_streets,
    Machine.run, StreetGenerator.run.
  unfold bind.
  change (Machine.start (real_generator self))
    with (real_turtle (StreetGenerator.start self)).
  change (Machine.streets (real_generator self))
    with (map real_street (StreetGenerator.streets self)).
  change (Machine.l_system (real_generator self))
    with (StreetGenerator.l_system self).
  rewrite exact_run_agrees.
  destruct (for_each (StreetGenerator.interpret self) _ _ g)
    as [[[tu1 streets1] g1]|]; reflexivity.
Qed.

(** So is the number of frontage buildings of a street. *)
Lemma exact_num_street_buildings_agrees (s : Street) :
  Machine.num_street_buildings (real_street s)
  = Some (BuildingGenerator.num_street_buildings s).
Proof. reflexivity. Qed.

End ExactAgrees.

(** ** The two loops on doubles and on reals *)

Section MachineClaims.
Import Machine.

Lemma double_value_finite (f : float) s m e :
  Prim2SF f = S754_finite s m e ->
  e < 0 ->
  double_value f
  = (if s then - (IZR (Zpos m) / IZR (2 ^ (- e)))
     else IZR (Zpos m) / IZR (2 ^ (- e)))%R.
Proof.
  intros H He. unfold double_value. rewrite H.
  destruct (0 <=? e) eqn:E; [apply Z.leb_le in E; lia|]. reflexivity.
Qed.

Lemma euclidean_lt (ax ay bx by_ d : R) :
  (0 <= d)%R ->
  ((bx - ax) * (bx - ax) + (by_ - ay) * (by_ - ay) < d * d)%R ->
  (euclidean ax ay bx by_ < d)%R.
Proof.
  intros Hd H. unfold euclidean.
  apply Rlt_le_trans with (sqrt (d * d)).
  - apply sqrt_lt_1_alt. split; [|exact H].
    apply Rplus_le_le_0_compat; apply Rle_0_sqr.
  - rewrite sqrt_square; lra.
Qed.



(** On doubles a street that reaches (1e200, 0) gets no building: the square
    of its length overflows and the loop raises. *)
Example double_frontage_overflow :
  street_buildings
    (mkStreet (mkPoint 0 0)%float (mkPoint 0x1.4e718d7d7625ap+664 0)%float
              1%float "main"%string) [] rng0
  = None.
Proof. vm_compute. reflexivity. Qed.

(** On doubles two iterations on a canvas of 31 by 15 draw four streets:
    the fifth forward move that exact arithmetic ends on the upper edge is
    computed to end a rounding error above it. *)
Example double_streets_on_31_by_15 :
  exists sg streets g',
    generate_streets (A:=double) (new 31 15) 2 rng0 = Some ((sg, streets), g')
    /\ length streets = 4%nat.
Proof.
  destruct (generate_streets (A:=double) (new 31 15) 2 rng0)
    as [[[sg streets] g']|] eqn:E; vm_compute in E; [|discriminate].
  injection E as <- <- <-. eexists _, _, _. split; reflexivity.
Qed.

(** C10, as amended.  In any arithmetic, every street a call of
    [generate_streets] appends ends at the point one step of 8 ahead of its
    start, along one heading, as that arithmetic computes it.  In exact
    arithmetic that point is at Euclidean distance 8 of the start, so every
    appended street is 8 long, by [Point.distance_to] too. *)
Theorem emitted_streets_span_one_step :
  (forall (num : Type) (A : Arithmetic num) (self : StreetGenerator num)
          (iterations : Z) (g : Rng),
      exists new g',
        generate_streets self iterations g
        = Some ((mkStreetGenerator (width self) (height self)
                   (streets self ++ new) (l_system self),
                 streets self ++ new), g')
        /\ Forall (fun s => exists heading : Z,
                     street_end s = ahead (street_start s) heading) new)
  /\ (forall (self : StreetGenerator R) (iterations : Z) (g : Rng),
        exists new g',
          generate_streets self iterations g
          = Some ((mkStreetGenerator (width self) (height self)
                     (streets self ++ new) (l_system self),
                   streets self ++ new), g')
          /\ Forall (fun s =>
                       euclidean (p_x (street_start s)) (p_y (street_start s))
                                 (p_x (street_end s)) (p_y (street_end s)) = 8%R
                       /\ distance_to (street_start s) (street_end s) = 8%R)
                    new).
Proof.
  split.
  - intros num A self iterations g.
    destruct (arith_generate_streets_appends self iterations g)
      as (new & g' & E & _ & H).
    now exists new, g'.
  - intros self iterations g.
    destruct (arith_generate_streets_appends self iterations g)
      as (new & g' & E & _ & H).
    exists new, g'. split; [exact E|].
    eapply Forall_impl; [exact H|]. intros s [heading Hs]. cbn beta.
    rewrite Hs. apply exact_ahead_distance.
Qed.

(** C10 fails as stated: on doubles, on a canvas of 97 by 18 and with the
    secondary grammar, two iterations draw nine streets, the ninth from
    (96, 1.0000000000000009) to (96, 9): [Point.distance_to] gives
    7.999999999999999 for it, and its two ends are less than 8 apart. *)
Lemma street_shorter_than_step :
  exists sg streets g' s,
    generate_streets secondary_generator 2 rng0 = Some ((sg, streets), g')
    /\ length streets = 9%nat
    /\ streets !! 8%nat = Some s
    /\ street_start s = mkPoint 96%float 0x1.0000000000004p+0%float
    /\ street_end s = mkPoint 96%float 9%float
    /\ distance_to (street_start s) (street_end s) = 0x1.fffffffffffffp+2%float
    /\ distance_to (street_start s) (street_end s) <> 8%float
    /\ (euclidean (double_value (p_x (street_start s)))
                  (double_value (p_y (street_start s)))
                  (double_value (p_x (street_end s)))
                  (double_value (p_y (street_end s))) < 8)%R.
Proof.
  destruct (generate_streets secondary_generator 2 rng0)
    as [[[sg streets] g']|] eqn:E; vm_compute in E; [|discriminate].
  injection E as <- <- <-.
  eexists _, _, _, _. split; [reflexivity|]. split; [reflexivity|].
  split; [reflexivity|]. cbn [street_start street_end p_x p_y].
  split; [reflexivity|]. split; [reflexivity|].
  split; [vm_compute; reflexivity|]. split.
  - intros H. apply (f_equal Prim2SF) in H. vm_compute in H. discriminate.
  - rewrite (double_value_finite 96%float false 6755399441055744 (-46));
      [|vm_compute; reflexivity|lia].
    rewrite (double_value_finite 9%float false 5066549580791808 (-49));
      [|vm_compute; reflexivity|lia].
    rewrite (double_value_finite 0x1.0000000000004p+0%float
               false 4503599627370500 (-52));
      [|vm_compute; reflexivity|lia].
    change (2 ^ (- -46)) with 70368744177664.
    change (2 ^ (- -49)) with 562949953421312.
    change (2 ^ (- -52)) with 4503599627370496.
    apply euclidean_lt; lra.
Qed.

End MachineClaims.

(** * Further properties of the code *)

(** ** [LSystem.generate]: iteration counts, sizes, fixed points *)

Lemma generate_to_nat (self : LSystem.t) (n : Z) :
  LSystem.generate self n
  = rewrite_times (LSystem.rules self) (Z.to_nat n) (LSystem.axiom self).
Proof.
  destruct (Z.le_gt_cases 0 n) as [H|H].
  - rewrite <- (Z2Nat.id n H) at 1. apply generate_rewrite_times.
  - unfold LSystem.generate. now replace (Z.to_nat n) with 0%nat by lia.
Qed.

Lemma rewrite_times_add rules (m n : nat) (s : string) :
  rewrite_times rules (m + n) s = rewrite_times rules n (rewrite_times rules m s).
Proof.
  induction n as [|n IH].
  - now rewrite Nat.add_0_r.
  - rewrite Nat.add_succ_r. simpl. now rewrite IH.
Qed.

Lemma rewrite_all_cons rules (c : ascii) (s : string) :
  rewrite_all rules (String c s) = rewrite_symbol rules c +:+ rewrite_all rules s.
Proof. reflexivity. Qed.

Lemma length_append (a b : string) :
  String.length (a +:+ b) = (String.length a + String.length b)%nat.
Proof.
  induction a as [|c a IH]; [reflexivity|].
  rewrite append_cons. simpl. now rewrite IH.
Qed.

Lemma count_char_append (c : ascii) (a b : string) :
  count_char c (a +:+ b) = (count_char c a + count_char c b)%nat.
Proof.
  induction a as [|x a IH]; [reflexivity|].
  rewrite append_cons. simpl. rewrite IH. lia.
Qed.

(** X2.  Iterations compose: [m + n] iterations are [n] iterations of the
    system whose axiom is the result of [m] iterations; and a count of zero
    or less returns the axiom. *)
Theorem generate_iterations_compose :
  (forall (self : LSystem.t) (m n : Z),
      0 <= m -> 0 <= n ->
      LSystem.generate self (m + n)
      = LSystem.generate
          (LSystem.mk (LSystem.generate self m) (LSystem.rules self)) n)
  /\ (forall (self : LSystem.t) (n : Z),
        n <= 0 -> LSystem.generate self n = LSystem.axiom self).
Proof.
  split.
  - intros self m n Hm Hn. rewrite !generate_to_nat. simpl.
    rewrite Z2Nat.inj_add by assumption. apply rewrite_times_add.
  - intros self n Hn. rewrite generate_to_nat.
    now replace (Z.to_nat n) with 0%nat by lia.
Qed.

Lemma rewrite_symbol_length rules (k : nat) (c : ascii) :
  (1 <= k)%nat ->
  (forall rhs, rules !! String c EmptyString = Some rhs ->
               (String.length rhs <= k)%nat) ->
  (String.length (rewrite_symbol rules c) <= k)%nat.
Proof.
  intros Hk H. unfold rewrite_symbol.
  destruct (rules !! String c EmptyString) as [rhs|]; [now apply H | exact Hk].
Qed.

Lemma rewrite_all_length rules (k : nat) (s : string) :
  (1 <= k)%nat ->
  (forall c rhs, rules !! String c EmptyString = Some rhs ->
                 (String.length rhs <= k)%nat) ->
  (String.length (rewrite_all rules s) <= k * String.length s)%nat.
Proof.
  intros Hk H. induction s as [|c s IH]; [simpl; lia|].
  rewrite rewrite_all_cons, length_append.
  pose proof (rewrite_symbol_length rules k c Hk (H c)). simpl. lia.
Qed.

(** X3.  When no rule has a right-hand side longer than [k], [k] at least 1,
    the string after [n] iterations has at most [k ^ n] times the length of
    the axiom. *)
Theorem generate_length_bound (self : LSystem.t) (k n : nat) :
  (1 <= k)%nat ->
  (forall c rhs, LSystem.rules self !! String c EmptyString = Some rhs ->
                 (String.length rhs <= k)%nat) ->
  (String.length (LSystem.generate self (Z.of_nat n))
   <= k ^ n * String.length (LSystem.axiom self))%nat.
Proof.
  intros Hk H. rewrite generate_rewrite_times.
  induction n as [|n IH]; [simpl; lia|].
  cbn [rewrite_times].
  pose proof (rewrite_all_length (LSystem.rules self) k
                (rewrite_times (LSystem.rules self) n (LSystem.axiom self)) Hk H).
  rewrite Nat.pow_succ_r'. nia.
Qed.

Lemma street_rules_lookup (c : ascii) :
  street_rules !! String c EmptyString
  = if (c =? "F")%char then Some "F+F-F-F+F"%string
    else if (c =? "+")%char then Some "+"%string
    else if (c =? "-")%char then Some "-"%string
    else None.
Proof.
  unfold street_rules.
  destruct (c =? "F")%char eqn:EF.
  { apply Ascii.eqb_eq in EF. subst c. apply lookup_insert_eq. }
  rewrite lookup_insert_ne
    by (intros H; injection H as H; subst c; discriminate).
  destruct (c =? "+")%char eqn:EP.
  { apply Ascii.eqb_eq in EP. subst c. apply lookup_insert_eq. }
  rewrite lookup_insert_ne
    by (intros H; injection H as H; subst c; discriminate).
  destruct (c =? "-")%char eqn:EM.
  { apply Ascii.eqb_eq in EM. subst c. apply lookup_insert_eq. }
  rewrite lookup_insert_ne
    by (intros H; injection H as H; subst c; discriminate).
  apply lookup_empty.
Qed.

(** The theorem applies: the street grammar, whose longest right-hand side
    has nine symbols, after three iterations. *)
Lemma generate_length_bound_witness :
  (String.length (LSystem.generate (LSystem.mk "F" street_rules) (Z.of_nat 3))
   <= 9 ^ 3 * String.length "F")%nat.
Proof.
  apply (generate_length_bound (LSystem.mk "F" street_rules) 9 3).
  - lia.
  - intros c rhs. cbn [LSystem.rules]. rewrite street_rules_lookup.
    destruct (c =? "F")%char; [intros [= <-]; simpl; lia|].
    destruct (c =? "+")%char; [intros [= <-]; simpl; lia|].
    destruct (c =? "-")%char; [intros [= <-]; simpl; lia | discriminate].
Defined.

Lemma rewrite_all_fixed rules (s : string) :
  (forall c, In c (list_ascii_of_string s) ->
             LSystem.rules_get rules c = String c EmptyString) ->
  rewrite_all rules s = s.
Proof.
  induction s as [|c s IH]; intros H; [reflexivity|].
  rewrite rewrite_all_cons, <- rules_get_rewrite_symbol.
  rewrite (H c) by (simpl; now left).
  rewrite IH by (intros c' Hc'; apply H; simpl; now right).
  reflexivity.
Qed.

(** X4.  A string none of whose symbols is changed by its rule (it has no
    rule, or a rule that maps it to itself) is a fixed point: every number
    of iterations returns it. *)
Theorem generate_fixed_point (self : LSystem.t) (n : Z) :
  (forall c, In c (list_ascii_of_string (LSystem.axiom self)) ->
             LSystem.rules_get (LSystem.rules self) c = String c EmptyString) ->
  LSystem.generate self n = LSystem.axiom self.
Proof.
  intros H. rewrite generate_to_nat.
  induction (Z.to_nat n) as [|k IH]; [reflexivity|].
  simpl. rewrite IH. now apply rewrite_all_fixed.
Qed.

(** The theorem applies: a string of turns and an unknown symbol under the
    street rules. *)
Lemma generate_fixed_point_witness :
  LSystem.generate (LSystem.mk "+-X+" street_rules) 7 = "+-X+"%string.
Proof.
  apply (generate_fixed_point (LSystem.mk "+-X+" street_rules) 7).
  intros c Hc. cbn in Hc.
  destruct Hc as [<-|[<-|[<-|[<-|[]]]]]; vm_compute; reflexivity.
Defined.

Lemma street_rewrite_counts (s : string) :
  count_char "F" (rewrite_all street_rules s) = (5 * count_char "F" s)%nat
  /\ String.length (rewrite_all street_rules s)
     = (String.length s + 8 * count_char "F" s)%nat.
Proof.
  induction s as [|c s [IHc IHl]]; [now split|].
  rewrite rewrite_all_cons, count_char_append, length_append, IHc, IHl.
  unfold rewrite_symbol. rewrite street_rules_lookup.
  cbn [count_char String.length].
  destruct (c =? "F")%char eqn:EF; [simpl; lia|].
  destruct (c =? "+")%char eqn:EP.
  { apply Ascii.eqb_eq in EP. subst c. simpl. lia. }
  destruct (c =? "-")%char eqn:EM.
  { apply Ascii.eqb_eq in EM. subst c. simpl. lia. }
  cbn [count_char String.length]. rewrite EF. lia.
Qed.

Lemma street_grammar_counts (n : nat) :
  count_char "F" (rewrite_times street_rules n "F") = (5 ^ n)%nat
  /\ String.length (rewrite_times street_rules n "F") = (2 * 5 ^ n - 1)%nat.
Proof.
  induction n as [|n [IHc IHl]]; [now split|].
  cbn [rewrite_times].
  destruct (street_rewrite_counts (rewrite_times street_rules n "F")) as [Hc Hl].
  rewrite Hc, Hl, IHc, IHl, Nat.pow_succ_r'.
  assert (1 <= 5 ^ n)%nat by (apply Nat.neq_0_lt_0, Nat.pow_nonzero; lia).
  lia.
Qed.

(** X5.  The grammar [StreetGenerator.__init__] installs multiplies the
    forward symbols by five at each iteration: after [n] iterations the
    string has [5 ^ n] forward symbols among [2 * 5 ^ n - 1] symbols. *)
Theorem street_grammar_growth (width height : Z) (n : nat) :
  count_char "F"
    (LSystem.generate
       (StreetGenerator.l_system (StreetGenerator.new width height)) (Z.of_nat n))
  = (5 ^ n)%nat
  /\ String.length
       (LSystem.generate
          (StreetGenerator.l_system (StreetGenerator.new width height))
          (Z.of_nat n))
     = (2 * 5 ^ n - 1)%nat.
Proof. rewrite generate_rewrite_times. apply street_grammar_counts. Qed.

(** ** Branch symbols in the grammar *)

Lemma list_ascii_append (a b : string) :
  list_ascii_of_string (a +:+ b)
  = list_ascii_of_string a ++ list_ascii_of_string b.
Proof.
  induction a as [|c a IH]; [reflexivity|].
  rewrite append_cons. simpl. now rewrite IH.
Qed.

Lemma bracket_depth_app (l1 l2 : list ascii) : forall d,
  bracket_depth (l1 ++ l2) d
  = match bracket_depth l1 d with
    | Some d' => bracket_depth l2 d'
    | None => None
    end.
Proof.
  induction l1 as [|c l1 IH]; intros d; [reflexivity|].
  simpl. destruct (c =? "[")%char; [apply IH|].
  destruct (c =? "]")%char; [|apply IH].
  destruct d; [reflexivity | apply IH].
Qed.

Lemma bracket_depth_shift (l : list ascii) : forall d d' k,
  bracket_depth l d = Some d' ->
  bracket_depth l (k + d) = Some (k + d')%nat.
Proof.
  induction l as [|c l IH]; intros d d' k H; simpl in *.
  - now injection H as <-.
  - destruct (c =? "[")%char.
    + rewrite <- Nat.add_succ_r. now apply IH.
    + destruct (c =? "]")%char; [|now apply IH].
      destruct d as [|d0]; [discriminate|].
      rewrite Nat.add_succ_r. now apply IH.
Qed.

Lemma balanced_any_depth (w : string) (d : nat) :
  balanced w -> bracket_depth (list_ascii_of_string w) d = Some d.
Proof.
  intros H. apply (bracket_depth_shift _ _ _ d) in H.
  now rewrite !Nat.add_0_r in H.
Qed.

Section BalancedRules.

Variable rules : gmap string string.
Hypothesis push_kept : LSystem.rules_get rules "[" = "["%string.
Hypothesis pop_kept : LSystem.rules_get rules "]" = "]"%string.
Hypothesis rhs_balanced :
  forall c rhs, c <> "["%char -> c <> "]"%char ->
                rules !! String c EmptyString = Some rhs -> balanced rhs.

Lemma rewrite_symbol_depth (c : ascii) (d : nat) :
  bracket_depth (list_ascii_of_string (rewrite_symbol rules c)) d
  = bracket_depth [c] d.
Proof.
  destruct (c =? "[")%char eqn:E1.
  { apply Ascii.eqb_eq in E1. subst c.
    now rewrite <- rules_get_rewrite_symbol, push_kept. }
  destruct (c =? "]")%char eqn:E2.
  { apply Ascii.eqb_eq in E2. subst c.
    now rewrite <- rules_get_rewrite_symbol, pop_kept. }
  assert (N1 : c <> "["%char) by (intros ->; discriminate).
  assert (N2 : c <> "]"%char) by (intros ->; discriminate).
  simpl. rewrite E1, E2. unfold rewrite_symbol.
  destruct (rules !! String c EmptyString) as [rhs|] eqn:E.
  - apply balanced_any_depth. now apply (rhs_balanced c).
  - simpl. now rewrite E1, E2.
Qed.

Lemma rewrite_all_depth (s : string) : forall d,
  bracket_depth (list_ascii_of_string (rewrite_all rules s)) d
  = bracket_depth (list_ascii_of_string s) d.
Proof.
  induction s as [|c s IH]; intros d; [reflexivity|].
  rewrite rewrite_all_cons, list_ascii_append, bracket_depth_app.
  rewrite rewrite_symbol_depth.
  change (list_ascii_of_string (String c s)) with ([c] ++ list_ascii_of_string s).
  rewrite bracket_depth_app.
  destruct (bracket_depth [c] d); [apply IH | reflexivity].
Qed.

Lemma rewrite_times_depth (n : nat) (s : string) (d : nat) :
  bracket_depth (list_ascii_of_string (rewrite_times rules n s)) d
  = bracket_depth (list_ascii_of_string s) d.
Proof.
  induction n as [|n IH]; [reflexivity|].
  simpl. now rewrite rewrite_all_depth.
Qed.

End BalancedRules.

(** X6.  A grammar that leaves the branch symbols alone and whose other
    right-hand sides are balanced keeps the branch structure of the axiom:
    from a balanced axiom every iteration gives a balanced string. *)
Theorem generate_keeps_brackets_balanced (self : LSystem.t) (n : Z) :
  LSystem.rules_get (LSystem.rules self) "[" = "["%string ->
  LSystem.rules_get (LSystem.rules self) "]" = "]"%string ->
  (forall c rhs, c <> "["%char -> c <> "]"%char ->
                 LSystem.rules self !! String c EmptyString = Some rhs ->
                 balanced rhs) ->
  balanced (LSystem.axiom self) ->
  balanced (LSystem.generate self n).
Proof.
  intros H1 H2 H3 Hax. unfold balanced.
  rewrite generate_to_nat, rewrite_times_depth; assumption.
Qed.

(** The theorem applies: the residential grammar of [city_config.py],
    F -> F[+F]F[-F]F, after its two iterations. *)
Lemma generate_keeps_brackets_balanced_witness :
  from_option
    (fun sys =>
       balanced
         (LSystem.generate
            (LSystem.mk (city_config.axiom sys) (city_config.rules sys))
            (city_config.iterations sys)))
    False
    (city_config.STREET_L_SYSTEMS !! "residential"%string).
Proof.
  unfold city_config.STREET_L_SYSTEMS.
  rewrite lookup_insert_ne by discriminate.
  rewrite lookup_insert_ne by discriminate.
  rewrite lookup_insert_eq.
  cbn [from_option city_config.axiom city_config.rules city_config.iterations].
  apply generate_keeps_brackets_balanced.
  - vm_compute. reflexivity.
  - vm_compute. reflexivity.
  - intros c rhs N1 N2 H. cbn [LSystem.rules] in H.
    apply elem_of_map_to_list, list_elem_of_In in H.
    vm_compute in H.
    repeat (destruct H as [H|H];
            [injection H as Hc <-;
             first [vm_compute; reflexivity | exfalso; congruence]|]).
    destruct H.
  - vm_compute. reflexivity.
Defined.

(** ** [StreetGenerator.generate_streets]: what a call draws and consumes *)

Section StreetFacts.
Import StreetGenerator.

Lemma skip_0 g : skip 0 g = g.
Proof. destruct g as [tp cu]. unfold skip. simpl. f_equal. lia. Qed.

Lemma skip_advance2 (n : nat) g :
  skip (2 * n) (advance (advance g)) = skip (2 * S n) g.
Proof. unfold skip, advance. simpl. f_equal. lia. Qed.

Lemma locals_after_cases self c tu :
  locals_after self c tu
  = if (c =? "F")%char then moved tu
    else if (c =? "+")%char then
      mkTurtle (x tu) (y tu) (angle tu + angle_step) (stack tu)
    else if (c =? "-")%char then
      mkTurtle (x tu) (y tu) (angle tu - angle_step) (stack tu)
    else if (c =? "[")%char then
      mkTurtle (x tu) (y tu) (angle tu) ((x tu, y tu, angle tu) :: stack tu)
    else if (c =? "]")%char then
      match stack tu with
      | (x', y', angle') :: rest => mkTurtle x' y' angle' rest
      | [] => tu
      end
    else tu.
Proof.
  destruct (c =? "F")%char eqn:EF.
  { apply Ascii.eqb_eq in EF. subst c. apply locals_after_forward. }
  unfold locals_after, interpret. rewrite EF. simpl.
  destruct (c =? "+")%char; [reflexivity|].
  destruct (c =? "-")%char; [reflexivity|].
  destruct (c =? "[")%char; [reflexivity|].
  destruct (c =? "]")%char; [|reflexivity].
  destruct (stack tu) as [|[[x' y'] a'] rest]; reflexivity.
Qed.

(** The loop under an invariant [I] of the locals: it returns, it appends
    only streets emitted from locals that satisfy [I] and pass the bounds
    test, it reads two draws per street, and it appends at most one street
    per forward symbol. *)
Lemma run_trace self (I : turtle -> Prop) :
  (forall c tu, I tu -> I (locals_after self c tu)) ->
  forall chars tu streets g,
    I tu ->
    exists tu' new,
      for_each (interpret self) chars (tu, streets) g
      = Some ((tu', streets ++ new), skip (2 * length new) g)
      /\ I tu'
      /\ Forall (fun s => exists tu0 g0,
                   I tu0 /\ in_bounds self (new_x tu0) (new_y tu0) = true
                   /\ s = emitted tu0 g0) new
      /\ (length new
          <= length (List.filter (fun c => (c =? "F")%char) chars))%nat.
Proof.
  intros Hstep. induction chars as [|c chars IH]; intros tu streets g HI.
  - exists tu, []. rewrite app_nil_r, skip_0. simpl.
    repeat split; [assumption | constructor | lia].
  - pose proof (Hstep c tu HI) as HI'.
    destruct (c =? "F")%char eqn:EF.
    + apply Ascii.eqb_eq in EF. subst c.
      rewrite locals_after_forward in HI'.
      destruct (in_bounds self (new_x tu) (new_y tu)) eqn:Hb.
      * destruct (IH (moved tu) (streets ++ [emitted tu g])
                     (advance (advance g)) HI')
          as (tu' & new & E & HI2 & Hall & Hlen).
        exists tu', (emitted tu g :: new).
        rewrite (for_each_cons _ _ _ _ _ (moved tu, streets ++ [emitted tu g])
                   (advance (advance g)))
          by (rewrite interpret_forward, Hb; reflexivity).
        rewrite E, <- (app_assoc streets [emitted tu g] new).
        cbn [length]. rewrite skip_advance2.
        split; [reflexivity|]. split; [exact HI2|]. split.
        -- constructor; [|exact Hall]. now exists tu, g.
        -- simpl. lia.
      * destruct (IH (moved tu) streets g HI')
          as (tu' & new & E & HI2 & Hall & Hlen).
        exists tu', new.
        rewrite (for_each_cons _ _ _ _ _ (moved tu, streets) g)
          by (rewrite interpret_forward, Hb; reflexivity).
        split; [exact E|]. split; [exact HI2|]. split; [exact Hall|].
        simpl. lia.
    + destruct (IH (locals_after self c tu) streets g HI')
        as (tu' & new & E & HI2 & Hall & Hlen).
      exists tu', new.
      rewrite (for_each_cons _ _ _ _ _ (locals_after self c tu, streets) g)
        by (now apply interpret_other).
      split; [exact E|]. split; [exact HI2|]. split; [exact Hall|].
      simpl. rewrite EF. exact Hlen.
Qed.

Lemma count_char_filter (s : string) :
  length (List.filter (fun c => (c =? "F")%char) (list_ascii_of_string s))
  = count_char "F" s.
Proof.
  induction s as [|c s IH]; [reflexivity|].
  simpl. destruct (c =? "F")%char; simpl; now rewrite IH.
Qed.

Lemma generate_streets_trace self iterations g (I : turtle -> Prop) :
  (forall c tu, I tu -> I (locals_after self c tu)) ->
  I (start self) ->
  exists new,
    generate_streets self iterations g
    = Some ((mk (width self) (height self) (streets self ++ new) (l_system self),
             streets self ++ new), skip (2 * length new) g)
    /\ Forall (fun s => exists tu0 g0,
                 I tu0 /\ in_bounds self (new_x tu0) (new_y tu0) = true
                 /\ s = emitted tu0 g0) new
    /\ (length new
        <= count_char "F" (LSystem.generate (l_system self) iterations))%nat.
Proof.
  intros Hstep H0. unfold generate_streets, run.
  destruct (run_trace self I Hstep
              (list_ascii_of_string (LSystem.generate (l_system self) iterations))
              (start self) (streets self) g H0)
    as (tu' & new & E & _ & Hall & Hlen).
  exists new. rewrite (bind_Some _ _ _ _ _ E). simpl.
  rewrite count_char_filter in Hlen. auto.
Qed.

Lemma emitted_sampled tu g : sampled_street (emitted tu g).
Proof.
  unfold sampled_street, emitted. cbn [street_width street_type]. split.
  - apply uniform_bounds. lra.
  - apply nth_In. unfold pick. apply Nat.mod_upper_bound. discriminate.
Qed.

(** X7.  Every street a call appends has a width in [0.5, 2.0] and one of
    the three type tags. *)
Theorem generate_streets_samples_attributes (self : t) (iterations : Z) (g : Rng) :
  exists new g',
    generate_streets self iterations g
    = Some ((mk (width self) (height self) (streets self ++ new) (l_system self),
             streets self ++ new), g')
    /\ Forall sampled_street new.
Proof.
  destruct (generate_streets_trace self iterations g (fun _ => True))
    as (new & E & Hall & _); [auto | exact I |].
  exists new, (skip (2 * length new) g). split; [exact E|].
  eapply Forall_impl; [exact Hall|].
  intros s (tu0 & g0 & _ & _ & ->). apply emitted_sampled.
Qed.

(** X8.  A call reads exactly two draws per street it appends, and none
    for a symbol that draws no street: the generator it leaves is the one
    it was given, moved on by twice the number of new streets. *)
Theorem generate_streets_draws (self : t) (iterations : Z) (g : Rng) :
  exists new,
    generate_streets self iterations g
    = Some ((mk (width self) (height self) (streets self ++ new) (l_system self),
             streets self ++ new),
            mkRng (tape g) (cursor g + 2 * length new)).
Proof.
  destruct (generate_streets_trace self iterations g (fun _ => True))
    as (new & E & _); [auto | exact I |].
  now exists new.
Qed.

(** X9.  Symbols other than F, +, -, [ and ] are ignored: the loop does on
    a string what it does on the string without them. *)
Theorem unknown_symbols_ignored (self : t) (chars : list ascii)
    (st : turtle * list Street) (g : Rng) :
  for_each (interpret self) chars st g
  = for_each (interpret self) (List.filter is_command chars) st g.
Proof.
  revert st g. induction chars as [|c chars IH]; intros st g; [reflexivity|].
  cbn [List.filter]. destruct (is_command c) eqn:Ec.
  - cbn [for_each]. unfold bind.
    destruct (interpret self c st g) as [[st' g']|]; [apply IH | reflexivity].
  - unfold is_command in Ec.
    apply orb_false_iff in Ec as [Ec E5]. apply orb_false_iff in Ec as [Ec E4].
    apply orb_false_iff in Ec as [Ec E3]. apply orb_false_iff in Ec as [E1 E2].
    rewrite (for_each_cons _ _ _ _ _ st g); [apply IH|].
    unfold interpret. now rewrite E1, E2, E3, E4, E5.
Qed.

(** X10.  A call appends at most one street per forward symbol of the
    string it interprets; with the grammar of [__init__] that is at most
    [5 ^ n] streets for [n] iterations. *)
Theorem generate_streets_count_bound :
  (forall (self : t) (iterations : Z) (g : Rng),
      exists new g',
        generate_streets self iterations g
        = Some ((mk (width self) (height self) (streets self ++ new)
                    (l_system self), streets self ++ new), g')
        /\ (length new
            <= count_char "F" (LSystem.generate (l_system self) iterations))%nat)
  /\ (forall (w h : Z) (n : nat) (g : Rng),
        exists drawn g',
          generate_streets (new w h) (Z.of_nat n) g
          = Some ((mk w h drawn (LSystem.mk "F" street_rules), drawn), g')
          /\ (length drawn <= 5 ^ n)%nat).
Proof.
  split.
  - intros self iterations g.
    destruct (generate_streets_trace self iterations g (fun _ => True))
      as (nw & E & _ & Hlen); [auto | exact I |].
    now exists nw, (skip (2 * length nw) g).
  - intros w h n g.
    destruct (generate_streets_trace (new w h) (Z.of_nat n) g (fun _ => True))
      as (nw & E & _ & Hlen); [auto | exact I |].
    exists nw, (skip (2 * length nw) g). split; [exact E|].
    cbn [l_system new] in Hlen. rewrite generate_rewrite_times in Hlen.
    cbn [LSystem.rules LSystem.axiom] in Hlen.
    now rewrite (proj1 (street_grammar_counts n)) in Hlen.
Qed.

(** X11.  On a canvas of negative width or height no position passes the
    bounds test: the call appends nothing, reads no draw and leaves the
    object as it was. *)
Theorem no_street_on_empty_canvas (self : t) (iterations : Z) (g : Rng) :
  width self < 0 \/ height self < 0 ->
  generate_streets self iterations g = Some ((self, streets self), g).
Proof.
  intros Hneg.
  destruct (generate_streets_trace self iterations g (fun _ => True))
    as (nw & E & Hall & _); [auto | exact I |].
  destruct nw as [|s nw].
  - rewrite E, app_nil_r, skip_0. now destruct self.
  - exfalso. inversion Hall as [|? ? (tu0 & g0 & _ & Hb & _) _]; subst.
    apply in_bounds_spec in Hb. destruct Hb as [[Hx0 Hx1] [Hy0 Hy1]].
    simpl in *. destruct Hneg as [Hw|Hh].
    + apply IZR_lt in Hw. lra.
    + apply IZR_lt in Hh. lra.
Qed.

(** The theorem applies: a generator for a canvas of width -1. *)
Lemma no_street_on_empty_canvas_witness :
  generate_streets (new (-1) 100) 2 rng0 = Some ((new (-1) 100, []), rng0).
Proof.
  apply (no_street_on_empty_canvas (new (-1) 100) 2 rng0).
  left. simpl. lia.
Defined.

End StreetFacts.

(** ** The branch stack *)

Section StreetGeometry.
Import StreetGenerator.

Lemma for_each_app {A S} (body : A -> S -> Rand S) (l1 l2 : list A) :
  forall s g,
    for_each body (l1 ++ l2) s g
    = match for_each body l1 s g with
      | Some (s', g') => for_each body l2 s' g'
      | None => None
      end.
Proof.
  induction l1 as [|a l1 IH]; intros s g; [reflexivity|].
  simpl. unfold bind. destruct (body a s g) as [[s1 g1]|]; [apply IH | reflexivity].
Qed.

(** The loop touches the stack only above the entries it found: with [k]
    entries of its own at the start and depth [d] at the end, it leaves [d]
    entries above the same base. *)
Lemma run_stack self chars : forall tu streets g top base d,
  stack tu = top ++ base ->
  bracket_depth chars (length top) = Some d ->
  exists tu' streets' g' top',
    for_each (interpret self) chars (tu, streets) g = Some ((tu', streets'), g')
    /\ stack tu' = top' ++ base
    /\ length top' = d.
Proof.
  induction chars as [|c chars IH]; intros tu streets g top base d Hst Hd.
  - injection Hd as <-. now exists tu, streets, g, top.
  - destruct (interpret_step self c tu streets g) as [g1 E1].
    rewrite (for_each_cons _ _ _ _ _ _ _ E1).
    simpl in Hd.
    assert (Hs := locals_after_cases self c tu).
    destruct (c =? "F")%char eqn:EF.
    { apply Ascii.eqb_eq in EF. subst c. simpl in Hd.
      eapply IH; [|exact Hd]. rewrite Hs. exact Hst. }
    destruct (c =? "+")%char eqn:EP.
    { apply Ascii.eqb_eq in EP. subst c. simpl in Hd.
      eapply IH; [|exact Hd]. rewrite Hs. exact Hst. }
    destruct (c =? "-")%char eqn:EM.
    { apply Ascii.eqb_eq in EM. subst c. simpl in Hd.
      eapply IH; [|exact Hd]. rewrite Hs. exact Hst. }
    destruct (c =? "[")%char eqn:EB.
    { eapply (IH _ _ _ ((x tu, y tu, angle tu) :: top)); [|exact Hd].
      rewrite Hs. cbn [stack]. now rewrite Hst. }
    destruct (c =? "]")%char eqn:EE.
    { destruct top as [|e top]; [discriminate|].
      eapply (IH _ _ _ top); [|exact Hd].
      rewrite Hs, Hst. destruct e as [[x' y'] a']. reflexivity. }
    eapply IH; [|exact Hd]. rewrite Hs. exact Hst.
Qed.

(** X13.  The stack is used as a stack.  A string of nesting depth [d]
    leaves [d] entries above the stack it found, which it does not touch;
    and a branch, a push, a balanced string and a pop, returns the turtle
    to the position, heading and stack it had, whatever the branch drew. *)
Theorem branch_returns_turtle :
  (forall (self : t) (chars : list ascii) (tu : turtle)
          (streets : list Street) (g : Rng) (d : nat),
      bracket_depth chars 0 = Some d ->
      exists tu' streets' g' pushed,
        for_each (interpret self) chars (tu, streets) g
        = Some ((tu', streets'), g')
        /\ stack tu' = pushed ++ stack tu
        /\ length pushed = d)
  /\ (forall (self : t) (chars : list ascii) (tu : turtle)
             (streets : list Street) (g : Rng),
        bracket_depth chars 0 = Some 0%nat ->
        exists streets' g',
          for_each (interpret self) ("["%char :: chars ++ ["]"%char])
            (tu, streets) g
          = Some ((tu, streets'), g')).
Proof.
  split.
  - intros self chars tu streets g d Hd.
    apply (run_stack self chars tu streets g [] (stack tu) d); [reflexivity|].
    exact Hd.
  - intros self chars [x0 y0 a0 st0] streets g Hd.
    change (for_each (interpret self) ("["%char :: chars ++ ["]"%char])
              (mkTurtle x0 y0 a0 st0, streets) g)
      with (for_each (interpret self) (chars ++ ["]"%char])
              (mkTurtle x0 y0 a0 ((x0, y0, a0) :: st0), streets) g).
    rewrite for_each_app.
    destruct (run_stack self chars
                (mkTurtle x0 y0 a0 ((x0, y0, a0) :: st0)) streets g
                [] ((x0, y0, a0) :: st0) 0%nat eq_refl Hd)
      as (tu' & streets' & g' & top' & E & Hst & Hlen).
    rewrite E. destruct top'; [|discriminate]. simpl in Hst.
    exists streets', g'. destruct tu' as [x1 y1 a1 st1]. simpl in Hst. subst st1.
    reflexivity.
Qed.

(** The theorem applies: the right-hand side of the residential grammar
    leaves the stack as it was, and the branch [+F] returns the turtle. *)
Lemma branch_returns_turtle_witness :
  (exists tu' streets' g' pushed,
      for_each (interpret (new 100 100))
        (list_ascii_of_string "F[+F]F[-F]F") (start (new 100 100), []) rng0
      = Some ((tu', streets'), g')
      /\ stack tu' = pushed ++ stack (start (new 100 100))
      /\ length pushed = 0%nat)
  /\ (exists streets' g',
        for_each (interpret (new 100 100))
          ("["%char :: list_ascii_of_string "+F" ++ ["]"%char])
          (start (new 100 100), []) rng0
        = Some ((start (new 100 100), streets'), g')).
Proof.
  destruct branch_returns_turtle as [Hdepth Hbranch]. split.
  - apply Hdepth. reflexivity.
  - apply Hbranch. reflexivity.
Defined.

End StreetGeometry.

(** ** [VoronoiGenerator.generate_districts]: errors and provenance *)

Section DistrictFacts.
Import VoronoiGenerator.

Lemma index_is_Some {A} (seq : list A) (i : Z) :
  is_Some (index seq i) <-> in_range (length seq) i.
Proof.
  unfold index, in_range.
  destruct ((0 <=? i) && (i <? Z.of_nat (length seq))) eqn:E1.
  - apply andb_true_iff in E1 as [H0 H1].
    apply Z.leb_le in H0. apply Z.ltb_lt in H1.
    rewrite lookup_lt_is_Some. lia.
  - destruct ((- Z.of_nat (length seq) <=? i) && (i <? 0)) eqn:E2.
    + apply andb_true_iff in E2 as [H0 H1].
      apply Z.leb_le in H0. apply Z.ltb_lt in H1.
      rewrite lookup_lt_is_Some. lia.
    + split; [intros [a Ha]; discriminate|].
      intros [Hl Hu]. exfalso.
      apply andb_false_iff in E1. apply andb_false_iff in E2.
      rewrite !Z.leb_gt, !Z.ltb_ge in *. lia.
Qed.

Lemma index_In {A} (seq : list A) (i : Z) (a : A) :
  index seq i = Some a -> In a seq.
Proof.
  unfold index. intros H. apply list_elem_of_In.
  destruct ((0 <=? i) && (i <? Z.of_nat (length seq)));
    [eapply list_elem_of_lookup_2; exact H|].
  destruct ((- Z.of_nat (length seq) <=? i) && (i <? 0)); [|discriminate].
  eapply list_elem_of_lookup_2; exact H.
Qed.

Lemma vertex_point_is_Some vor i :
  is_Some (vertex_point vor i) <-> in_range (length (vertices vor)) i.
Proof.
  rewrite <- index_is_Some. unfold vertex_point.
  destruct (index (vertices vor) i); simpl; split; intros [? ?]; eauto; discriminate.
Qed.

Lemma collect_complete (vor : Voronoi) (idxs : list Z) :
  forall regs kept acc,
    mapM (index (regions vor)) idxs = Some regs ->
    mapM (mapM (vertex_point vor)) (List.filter keep regs) = Some kept ->
    collect vor idxs acc = Some (acc ++ kept).
Proof.
  induction idxs as [|i rest IH]; intros regs kept acc Hr Hk.
  - injection Hr as <-. injection Hk as <-. simpl. now rewrite app_nil_r.
  - simpl in Hr.
    destruct (index (regions vor) i) as [region|] eqn:Ei; [|discriminate].
    simpl in Hr.
    destruct (mapM (index (regions vor)) rest) as [regs'|] eqn:Er; [|discriminate].
    injection Hr as <-. simpl in Hk. simpl. rewrite Ei. simpl.
    destruct (keep region) eqn:Ek.
    + simpl in Hk.
      destruct (mapM (vertex_point vor) region) as [dp|] eqn:Ed; [|discriminate].
      simpl in Hk.
      destruct (mapM (mapM (vertex_point vor)) (List.filter keep regs'))
        as [kept'|] eqn:Ek'; [|discriminate].
      injection Hk as <-. simpl.
      rewrite (IH regs' kept' (acc ++ [dp]) eq_refl Ek').
      now rewrite <- app_assoc.
    + now apply (IH regs').
Qed.

Lemma Forall2_In_l {A B} (R : A -> B -> Prop) (l : list A) (k : list B) (a : A) :
  Forall2 R l k -> In a l -> exists b, In b k /\ R a b.
Proof.
  induction 1 as [|x y l k Hxy _ IH]; intros Hin; [destruct Hin|].
  destruct Hin as [<-|Hin].
  - exists y. split; [now left | exact Hxy].
  - destruct (IH Hin) as (b & Hb & Hab). exists b. split; [now right | exact Hab].
Qed.

Lemma Forall2_In_r {A B} (R : A -> B -> Prop) (l : list A) (k : list B) (b : B) :
  Forall2 R l k -> In b k -> exists a, In a l /\ R a b.
Proof.
  induction 1 as [|x y l k Hxy _ IH]; intros Hin; [destruct Hin|].
  destruct Hin as [<-|Hin].
  - exists x. split; [now left | exact Hxy].
  - destruct (IH Hin) as (a & Ha & Hab). exists a. split; [now right | exact Hab].
Qed.

Lemma mapM_In_is_Some {A B} (f : A -> option B) (l : list A) (k : list B) (a : A) :
  mapM f l = Some k -> In a l -> is_Some (f a).
Proof.
  intros H Hin. apply mapM_Some_1 in H.
  destruct (Forall2_In_l _ _ _ _ H Hin) as (b & _ & Hb). now exists b.
Qed.

(** X14.  [generate_districts] raises [IndexError] exactly when a seed's
    region index is out of range for [vor.regions], or a region that passes
    the test holds a vertex index out of range for [vor.vertices];
    otherwise it returns. *)
Theorem generate_districts_returns_iff (self : t) (vor : Voronoi) :
  is_Some (generate_districts self vor)
  <-> Forall (in_range (length (regions vor))) (point_region vor)
      /\ (forall seed region,
            In seed (point_region vor) ->
            index (regions vor) seed = Some region ->
            keep region = true ->
            Forall (in_range (length (vertices vor))) region).
Proof.
  split.
  - intros [[self' ds] H]. unfold generate_districts in H.
    destruct (collect vor (point_region vor) []) as [d|] eqn:E; [|discriminate].
    apply collect_spec in E as (regs & kept & Hr & Hk & _). split.
    + apply List.Forall_forall. intros seed Hin.
      apply index_is_Some. exact (mapM_In_is_Some _ _ _ _ Hr Hin).
    + intros seed region Hin Hi Hkeep.
      assert (Hreg : In region (List.filter keep regs)).
      { apply List.filter_In. split; [|exact Hkeep].
        destruct (Forall2_In_l _ _ _ _ (mapM_Some_1 _ _ _ Hr) Hin)
          as (r & Hr1 & Hr2).
        congruence. }
      destruct (mapM_In_is_Some _ _ _ _ Hk Hreg) as [dk Hd].
      apply List.Forall_forall. intros i Hi'.
      apply vertex_point_is_Some. exact (mapM_In_is_Some _ _ _ _ Hd Hi').
  - intros [Hseeds Hverts].
    assert (Hr : is_Some (mapM (index (regions vor)) (point_region vor))).
    { apply mapM_is_Some_2. eapply Forall_impl; [exact Hseeds|].
      intros i Hi. now apply index_is_Some. }
    destruct Hr as [regs Hr].
    assert (Hk : is_Some (mapM (mapM (vertex_point vor)) (List.filter keep regs))).
    { apply mapM_is_Some_2. apply List.Forall_forall. intros region Hin.
      apply List.filter_In in Hin as [Hin Hkeep].
      apply mapM_is_Some_2.
      destruct (Forall2_In_r _ _ _ _ (mapM_Some_1 _ _ _ Hr) Hin)
        as (seed & Hs1 & Hs2).
      eapply Forall_impl; [exact (Hverts seed region Hs1 Hs2 Hkeep)|].
      intros i Hi. now apply vertex_point_is_Some. }
    destruct Hk as [kept Hk].
    unfold generate_districts.
    rewrite (collect_complete vor _ regs kept [] Hr Hk). simpl. eauto.
Qed.

(** X15.  The districts returned are no more than the seeds, and every
    vertex of a district is a row of [vor.vertices]: nothing is clipped or
    moved.  When every seed's region is open, no district is returned. *)
Theorem districts_come_from_diagram (self self' : t) (vor : Voronoi)
    (ds : list (list Point)) :
  generate_districts self vor = Some (self', ds) ->
  (length ds <= length (point_region vor))%nat
  /\ Forall (Forall (fun p => In (p_x p, p_y p) (vertices vor))) ds
  /\ ((forall seed region,
          In seed (point_region vor) ->
          index (regions vor) seed = Some region -> In (-1) region) ->
      ds = []).
Proof.
  intros H. unfold generate_districts in H.
  destruct (collect vor (point_region vor) []) as [d|] eqn:E; [|discriminate].
  simpl in H. injection H as _ <-.
  apply collect_spec in E as (regs & kept & Hr & Hk & ->). simpl.
  pose proof (length_mapM _ _ _ Hr) as Hlr.
  pose proof (length_mapM _ _ _ Hk) as Hlk.
  pose proof (List.filter_length_le keep regs) as Hfl.
  split; [lia|]. split.
  - apply mapM_Some_1 in Hk. clear Hlk Hfl.
    induction Hk as [|region dk ? ? Hd _ IH]; constructor; [|exact IH].
    apply mapM_Some_1 in Hd. clear IH.
    induction Hd as [|i p ? ? Hp _ IH]; constructor; [|exact IH].
    unfold vertex_point in Hp.
    destruct (index (vertices vor) i) as [v|] eqn:Ev; [|discriminate].
    injection Hp as <-. simpl. destruct v. now apply index_In in Ev.
  - intros Hopen.
    assert (Hnone : List.filter keep regs = []).
    { apply mapM_Some_1 in Hr. clear Hk Hlk Hfl Hlr.
      induction Hr as [|seed region ? ? Hi _ IH]; [reflexivity|].
      simpl. destruct (keep region) eqn:Ek.
      - exfalso. apply keep_spec in Ek as [Hinf _]. apply Hinf.
        apply list_elem_of_In. apply (Hopen seed); [now left | exact Hi].
      - apply IH. intros s r Hs. apply Hopen. now right. }
    rewrite Hnone in Hk. now injection Hk as <-.
Qed.

(** The theorem applies: a diagram of two seeds, one with a square region
    and one with an open region. *)
Lemma districts_come_from_diagram_witness :
  (length [[mkPoint 0 0; mkPoint 1 0; mkPoint 1 1; mkPoint 0 1]]
   <= length [1; 2])%nat
  /\ Forall (Forall (fun p => In (p_x p, p_y p)
                                 [(0, 0); (1, 0); (1, 1); (0, 1)]%R))
            [[mkPoint 0 0; mkPoint 1 0; mkPoint 1 1; mkPoint 0 1]]
  /\ ((forall seed region,
          In seed [1; 2] ->
          index [[]; [0; 1; 2; 3]; [-1; 0; 1]] seed = Some region ->
          In (-1) region) ->
      [[mkPoint 0 0; mkPoint 1 0; mkPoint 1 1; mkPoint 0 1]] = []).
Proof.
  apply (districts_come_from_diagram (new 100 100)
           (mk 100 100 [[mkPoint 0 0; mkPoint 1 0; mkPoint 1 1; mkPoint 0 1]])
           (mkVoronoi [(0, 0); (1, 0); (1, 1); (0, 1)]%R
                      [[]; [0; 1; 2; 3]; [-1; 0; 1]] [1; 2])).
  reflexivity.
Defined.

End DistrictFacts.

(** ** Districts of a Voronoi diagram *)

Section VoronoiCells.
Import VoronoiGenerator.

(** A point a little to the right of a seed, or a little above it, is still
    closer to it than to another seed: [t] is small against the squared
    distance [m] of the two seeds. *)
Lemma closer_nearby (s s' : R * R) (t : R) :
  let m := ((fst s' - fst s) * (fst s' - fst s)
            + (snd s' - snd s) * (snd s' - snd s))%R in
  (0 <= t)%R -> (t * (1 + m) <= m)%R ->
  closer (fst s + t, snd s)%R s s' /\ closer (fst s, snd s + t)%R s s'.
Proof.
  intros m Ht Hm. unfold closer. cbn [fst snd].
  set (wx := (fst s' - fst s)%R) in *. set (wy := (snd s' - snd s)%R) in *.
  assert (H1 : (2 * t * wx <= t * (1 + wx * wx))%R).
  { assert (0 <= t * ((1 - wx) * (1 - wx)))%R
      by (apply Rmult_le_pos; [exact Ht | apply Rle_0_sqr]).
    lra. }
  assert (H2 : (2 * t * wy <= t * (1 + wy * wy))%R).
  { assert (0 <= t * ((1 - wy) * (1 - wy)))%R
      by (apply Rmult_le_pos; [exact Ht | apply Rle_0_sqr]).
    lra. }
  assert (H3 : (0 <= t * (wx * wx))%R)
    by (apply Rmult_le_pos; [exact Ht | apply Rle_0_sqr]).
  assert (H4 : (0 <= t * (wy * wy))%R)
    by (apply Rmult_le_pos; [exact Ht | apply Rle_0_sqr]).
  unfold m in Hm.
  replace (fst s + t - fst s)%R with t by ring.
  replace (snd s + t - snd s)%R with t by ring.
  replace (fst s + t - fst s')%R with (t - wx)%R by (unfold wx; ring).
  replace (snd s + t - snd s')%R with (t - wy)%R by (unfold wy; ring).
  replace (fst s - fst s')%R with (- wx)%R by (unfold wx; ring).
  replace (snd s - snd s')%R with (- wy)%R by (unfold wy; ring).
  replace (fst s - fst s)%R with 0%R by ring.
  replace (snd s - snd s)%R with 0%R by ring.
  split; lra.
Qed.

(** Around a seed there is room in its cell: a little to the right and a
    little up. *)
Lemma cell_has_room (seeds : list (R * R)) (s : R * R) :
  exists e : R,
    (0 < e)%R
    /\ forall t, (0 <= t <= e)%R ->
         in_cell seeds s (fst s + t, snd s)%R
         /\ in_cell seeds s (fst s, snd s + t)%R.
Proof.
  induction seeds as [|s' seeds (e0 & He0 & IH)].
  - exists 1%R. split; [lra|]. intros t _. split; intros s' [].
  - set (m := ((fst s' - fst s) * (fst s' - fst s)
               + (snd s' - snd s) * (snd s' - snd s))%R).
    assert (Hm : (0 <= m)%R)
      by (apply Rplus_le_le_0_compat; apply Rle_0_sqr).
    destruct (Req_dec m 0) as [Hz|Hnz].
    + exists e0. split; [exact He0|]. intros t Ht.
      destruct (IH t Ht) as [IH1 IH2].
      destruct (Rplus_sqr_eq_0 (fst s' - fst s) (snd s' - snd s) Hz)
        as [Hx Hy].
      assert (C : forall p, closer p s s').
      { intros p. unfold closer.
        replace (fst s') with (fst s) by lra.
        replace (snd s') with (snd s) by lra. lra. }
      split; intros s'' [<-|Hin]; auto.
    + assert (Hpos : (0 < m)%R) by lra.
      assert (Hq : (0 < m / (1 + m))%R) by (apply Rdiv_lt_0_compat; lra).
      exists (Rmin e0 (m / (1 + m))). split; [now apply Rmin_glb_lt|].
      intros t [Ht0 Ht].
      assert (Ht1 : (t <= e0)%R) by (eapply Rle_trans; [exact Ht | apply Rmin_l]).
      assert (Ht2 : (t <= m / (1 + m))%R)
        by (eapply Rle_trans; [exact Ht | apply Rmin_r]).
      destruct (IH t (conj Ht0 Ht1)) as [IH1 IH2].
      destruct (closer_nearby s s' t) as [C1 C2]; [lra | fold m |].
      { apply Rmult_le_compat_r with (r := (1 + m)%R) in Ht2; [|lra].
        unfold Rdiv in Ht2. rewrite Rmult_assoc, Rinv_l, Rmult_1_r in Ht2; lra. }
      split; intros s'' [<-|Hin]; auto.
Qed.

(** No segment, point or empty set holds a point, the point a little to its
    right and the point a little above it. *)
Lemma hull_needs_three (pts : list Point) (s : R * R) (e : R) :
  (0 < e)%R ->
  in_hull pts s ->
  in_hull pts (fst s + e, snd s)%R ->
  in_hull pts (fst s, snd s + e)%R ->
  (3 <= length pts)%nat.
Proof.
  intros He (ws0 & L0 & _ & S0 & C0) (ws1 & L1 & _ & S1 & C1)
         (ws2 & L2 & _ & S2 & C2).
  destruct pts as [|a [|b [|c rest]]]; [| | |simpl; lia]; exfalso.
  - destruct ws0; [|discriminate]. simpl in S0. lra.
  - destruct ws0 as [|w0 [|]]; [discriminate| |discriminate].
    destruct ws1 as [|w1 [|]]; [discriminate| |discriminate].
    simpl in S0, S1, C0, C1.
    assert (w0 = 1%R) by lra. assert (w1 = 1%R) by lra. subst w0 w1.
    rewrite <- C0 in C1. cbn [fst snd] in C1.
    apply (f_equal fst) in C1. cbn [fst] in C1. lra.
  - destruct ws0 as [|w0 [|w0' [|]]]; try discriminate.
    destruct ws1 as [|w1 [|w1' [|]]]; try discriminate.
    destruct ws2 as [|w2 [|w2' [|]]]; try discriminate.
    simpl in S0, S1, S2, C0, C1, C2.
    assert (w0 = (1 - w0')%R) by lra. assert (w1 = (1 - w1')%R) by lra.
    assert (w2 = (1 - w2')%R) by lra. subst w0 w1 w2.
    destruct s as [sx sy]. cbn [fst snd] in C1, C2.
    pose proof (f_equal fst C0) as X0. pose proof (f_equal snd C0) as Y0.
    pose proof (f_equal fst C1) as X1. pose proof (f_equal snd C1) as Y1.
    pose proof (f_equal fst C2) as X2. pose proof (f_equal snd C2) as Y2.
    cbn [fst snd] in X0, Y0, X1, Y1, X2, Y2.
    set (dx := (p_x b - p_x a)%R). set (dy := (p_y b - p_y a)%R).
    assert (E1 : ((w1' - w0') * dx = e)%R) by (unfold dx; lra).
    assert (E2 : ((w1' - w0') * dy = 0)%R) by (unfold dy; lra).
    assert (E3 : ((w2' - w0') * dx = 0)%R) by (unfold dx; lra).
    assert (E4 : ((w2' - w0') * dy = e)%R) by (unfold dy; lra).
    assert (Hee : (e * e = 0)%R).
    { rewrite <- E1 at 1. rewrite <- E4 at 1.
      replace ((w1' - w0') * dx * ((w2' - w0') * dy))%R
        with ((w1' - w0') * dy * ((w2' - w0') * dx))%R by ring.
      rewrite E2. ring. }
    apply Rmult_integral in Hee. lra.
Qed.

(** A region of the diagram whose vertices span the cell of a seed has at
    least three vertices. *)
Lemma cell_needs_three (seeds : list (R * R)) (s : R * R) (pts : list Point) :
  (forall p, in_cell seeds s p -> in_hull pts p) ->
  (3 <= length pts)%nat.
Proof.
  intros H. destruct (cell_has_room seeds s) as (e & He & Hroom).
  destruct (Hroom 0%R ltac:(lra)) as [H0 _].
  destruct (Hroom e ltac:(lra)) as [H1 H2].
  apply (hull_needs_three pts s e He); [|now apply H|now apply H].
  apply H. intros s' Hs'. specialize (H0 s' Hs'). unfold closer in *.
  cbn [fst snd] in H0. lra.
Qed.

Lemma index_lookup {A} (seq : list A) (r : Z) (a : A) :
  0 <= r -> seq !! Z.to_nat r = Some a -> index seq r = Some a.
Proof.
  intros Hr H. unfold index.
  pose proof (lookup_lt_Some _ _ _ H) as Hlt.
  destruct ((0 <=? r) && (r <? Z.of_nat (length seq))) eqn:E; [exact H|].
  apply andb_false_iff in E. rewrite Z.leb_gt, Z.ltb_ge in E. lia.
Qed.

Lemma region_vertices (vor : Voronoi) (region : list Z) :
  Forall (fun v => -1 <= v < Z.of_nat (length (vertices vor))) region ->
  ((-1) ∉ region) ->
  exists pts,
    mapM (vertex_point vor) region = Some pts /\ length pts = length region.
Proof.
  intros Hall Hinf.
  assert (H : is_Some (mapM (vertex_point vor) region)).
  { apply mapM_is_Some_2. apply List.Forall_forall. intros v Hv.
    apply vertex_point_is_Some. unfold in_range.
    assert (v <> -1) by (intros ->; apply Hinf; now apply list_elem_of_In).
    pose proof (proj1 (List.Forall_forall _ _) Hall v Hv). cbn beta in *. lia. }
  destruct H as [pts Hpts]. exists pts. split; [exact Hpts|].
  now apply length_mapM in Hpts.
Qed.

(** On the diagram of a seed set the test of the code and the filter of the
    specification keep the same regions. *)
Lemma keep_bounded_polygon (seeds : list (R * R)) (vor : Voronoi)
    (regs : list (list Z)) :
  voronoi_of seeds vor ->
  mapM (index (regions vor)) (point_region vor) = Some regs ->
  Forall (fun region =>
            keep region = bounded_polygon region
            /\ (keep region = true ->
                exists pts, mapM (vertex_point vor) region = Some pts))
         regs.
Proof.
  intros Hvor Hregs. apply mapM_Some_1 in Hregs.
  unfold voronoi_of in Hvor.
  revert regs Hregs.
  induction Hvor as [|s r seeds' idxs (region & Hr & Hl & Hv & Hcell) _ IH];
    intros regs Hregs.
  - inversion Hregs. constructor.
  - inversion Hregs as [|? region' ? regs' Hi Hrest]; subst.
    rewrite (index_lookup _ _ _ Hr Hl) in Hi. injection Hi as <-.
    constructor; [|now apply IH].
    unfold keep, bounded_polygon.
    destruct (bool_decide ((-1) ∉ region)) eqn:Einf; [|split; [reflexivity|discriminate]].
    apply bool_decide_eq_true in Einf.
    destruct (region_vertices vor region Hv Einf) as (pts & Hpts & Hlen).
    pose proof (cell_needs_three _ _ _ (Hcell pts Einf Hpts)) as H3.
    split; [|intros _; now exists pts].
    rewrite <- Hlen.
    rewrite (proj2 (Nat.ltb_lt 0 (length pts))) by lia.
    rewrite (proj2 (Nat.leb_le 3 (length pts))) by lia. reflexivity.
Qed.

Lemma filter_agree {A} (f g : A -> bool) (l : list A) :
  Forall (fun a => f a = g a) l -> List.filter f l = List.filter g l.
Proof.
  induction 1 as [|a l Ha _ IH]; [reflexivity|].
  simpl. now rewrite Ha, IH.
Qed.

(** C2.  Let [vor] be the Voronoi diagram of a seed set: each seed has a
    region, and the vertices of a region without a vertex at infinity span
    the cell of its seed.  Then [generate_districts] returns, and stores,
    the vertex lists of exactly those seeds' regions that have no vertex at
    infinity and at least three vertices, in the order of the seeds; every
    district has as many vertices as its region, at least three. *)
Theorem districts_are_bounded_polygons (self : t) (seeds : list (R * R))
    (vor : Voronoi) :
  voronoi_of seeds vor ->
  exists ds regs,
    generate_districts self vor = Some (mk (width self) (height self) ds, ds)
    /\ mapM (index (regions vor)) (point_region vor) = Some regs
    /\ length regs = length seeds
    /\ mapM (mapM (vertex_point vor)) (List.filter bounded_polygon regs) = Some ds
    /\ Forall2 (fun region d =>
                  ((-1) ∉ region) /\ (3 <= length region)%nat
                  /\ length d = length region)
               (List.filter bounded_polygon regs) ds
    /\ Forall (fun d => (3 <= length d)%nat) ds.
Proof.
  intros Hvor.
  assert (Hregs : is_Some (mapM (index (regions vor)) (point_region vor))).
  { apply mapM_is_Some_2. unfold voronoi_of in Hvor.
    induction Hvor as [|s r ? ? (region & Hr & Hl & _) _ IH]; constructor;
      [|exact IH].
    exists region. now apply index_lookup. }
  destruct Hregs as [regs Hregs].
  pose proof (keep_bounded_polygon seeds vor regs Hvor Hregs) as Hkeep.
  assert (Hk : is_Some (mapM (mapM (vertex_point vor)) (List.filter keep regs))).
  { apply mapM_is_Some_2. apply List.Forall_forall. intros region Hin.
    apply List.filter_In in Hin as [Hin Hk].
    destruct (proj1 (List.Forall_forall _ _) Hkeep region Hin) as [_ H].
    destruct (H Hk) as [pts Hpts]. now exists pts. }
  destruct Hk as [ds Hds].
  assert (Hsame : List.filter keep regs = List.filter bounded_polygon regs).
  { apply filter_agree. eapply Forall_impl; [exact Hkeep|]. now intros a [E _]. }
  exists ds, regs.
  split.
  { unfold generate_districts.
    now rewrite (collect_complete vor _ regs ds [] Hregs Hds). }
  split; [exact Hregs|]. split.
  { pose proof (length_mapM _ _ _ Hregs) as L1.
    pose proof (Forall2_length _ _ _ Hvor) as L2. lia. }
  rewrite <- Hsame. split; [exact Hds|].
  assert (HF : Forall2 (fun region d =>
                  ((-1) ∉ region) /\ (3 <= length region)%nat
                  /\ length d = length region)
               (List.filter keep regs) ds).
  { apply mapM_Some_1 in Hds.
    assert (Hf : Forall (fun r => bounded_polygon r = true) (List.filter keep regs)).
    { rewrite Hsame. apply List.Forall_forall. intros r Hin.
      now apply List.filter_In in Hin. }
    revert Hf. clear Hsame Hkeep.
    induction Hds as [|region d rs ks Hd _ IH]; intros Hf; [constructor|].
    inversion Hf as [|? ? Hb Hf']; subst.
    unfold bounded_polygon in Hb. apply andb_true_iff in Hb as [Hinf H3].
    apply bool_decide_eq_true in Hinf. apply Nat.leb_le in H3.
    apply length_mapM in Hd.
    constructor; [|now apply IH]. repeat split; [exact Hinf | exact H3 | lia]. }
  split; [exact HF|].
  clear -HF. induction HF as [|region d ? ? (_ & H3 & Hl) _ IH]; constructor;
    [lia | exact IH].
Qed.

(** The theorem applies: five seeds, one at the origin and four at distance
    2 along the axes.  The cell of the first is the square of side 2 around
    it; the other four cells are open. *)
Lemma districts_are_bounded_polygons_witness :
  exists ds regs,
    generate_districts (new 100 100)
      (mkVoronoi [(1, 1); (-1, 1); (-1, -1); (1, -1)]%R
         [[0; 1; 2; 3]; [-1; 0; 3]; [-1; 0; 1]; [-1; 1; 2]; [-1; 2; 3]]
         [0; 1; 2; 3; 4])
    = Some (mk 100 100 ds, ds)
    /\ ds = [[mkPoint 1 1; mkPoint (-1) 1; mkPoint (-1) (-1); mkPoint 1 (-1)]]
    /\ regs = [[0; 1; 2; 3]; [-1; 0; 3]; [-1; 0; 1]; [-1; 1; 2]; [-1; 2; 3]]
    /\ Forall (fun d => (3 <= length d)%nat) ds.
Proof.
  destruct (districts_are_bounded_polygons (new 100 100)
              [(0, 0); (2, 0); (0, 2); (-2, 0); (0, -2)]%R
              (mkVoronoi [(1, 1); (-1, 1); (-1, -1); (1, -1)]%R
                 [[0; 1; 2; 3]; [-1; 0; 3]; [-1; 0; 1]; [-1; 1; 2]; [-1; 2; 3]]
                 [0; 1; 2; 3; 4]))
    as (ds & regs & E & Hregs & _ & Hds & _ & H3).
  - assert (Open : forall (s : R * R) (r : Z) (region : list Z),
              [[0; 1; 2; 3]; [-1; 0; 3]; [-1; 0; 1]; [-1; 1; 2]; [-1; 2; 3]]
                !! Z.to_nat r = Some region ->
              0 <= r ->
              In (-1) region ->
              Forall (fun v => -1 <= v < 4) region ->
              exists region,
                0 <= r
                /\ [[0; 1; 2; 3]; [-1; 0; 3]; [-1; 0; 1]; [-1; 1; 2]; [-1; 2; 3]]
                     !! Z.to_nat r = Some region
                /\ Forall (fun v => -1 <= v < Z.of_nat 4) region
                /\ (forall pts,
                      ((-1) ∉ region) ->
                      mapM (vertex_point
                              (mkVoronoi [(1, 1); (-1, 1); (-1, -1); (1, -1)]%R
                                 [[0; 1; 2; 3]; [-1; 0; 3]; [-1; 0; 1];
                                  [-1; 1; 2]; [-1; 2; 3]]
                                 [0; 1; 2; 3; 4])) region = Some pts ->
                      forall p,
                        in_cell [(0, 0); (2, 0); (0, 2); (-2, 0); (0, -2)]%R s p ->
                        in_hull pts p)).
    { intros s r region Hl Hr Hinf Hv. exists region.
      split; [exact Hr|]. split; [exact Hl|]. split; [exact Hv|].
      intros pts Hn. exfalso. apply Hn. now apply list_elem_of_In. }
    unfold voronoi_of. cbn [vertices regions point_region length].
    constructor; [|repeat (constructor;
      [eapply Open; [reflexivity | lia | simpl; auto
                    | repeat (constructor; [lia|]); constructor]|]);
      constructor].
    exists [0; 1; 2; 3]. split; [lia|]. split; [reflexivity|].
    split; [repeat (constructor; [simpl; lia|]); constructor|].
    intros pts _ Hpts p Hp. injection Hpts as <-.
    destruct p as [px py].
    pose proof (Hp (2, 0)%R ltac:(simpl; tauto)) as H1.
    pose proof (Hp (0, 2)%R ltac:(simpl; tauto)) as H2.
    pose proof (Hp (-2, 0)%R ltac:(simpl; tauto)) as H3.
    pose proof (Hp (0, -2)%R ltac:(simpl; tauto)) as H4.
    unfold closer in H1, H2, H3, H4. cbn [fst snd] in H1, H2, H3, H4.
    assert (Hx : (-1 <= px <= 1)%R) by lra.
    assert (Hy : (-1 <= py <= 1)%R) by lra.
    exists [((1 + px) * (1 + py) / 4); ((1 - px) * (1 + py) / 4);
            ((1 - px) * (1 - py) / 4); ((1 + px) * (1 - py) / 4)]%R.
    split; [reflexivity|]. split.
    { repeat (constructor;
        [apply Rmult_le_pos; [apply Rmult_le_pos; lra | lra]|]).
      constructor. }
    split; [simpl; lra|].
    cbn [combination p_x p_y fst snd]. f_equal; lra.
  - exists ds, regs. split; [exact E|].
    injection Hregs as <-. injection Hds as <-.
    split; [reflexivity|]. split; [reflexivity | exact H3].
Defined.

End VoronoiCells.

(** ** Loops that collect one result per turn *)

Lemma collect_loop_partial {A} (gen : Rand A) (P : A -> Prop) :
  (forall g a g', gen g = Some (a, g') -> P a) ->
  forall (n : nat) acc g res g',
    Forall P acc ->
    repeat_n n (fun acc => r <- gen ;; ret (acc ++ [r])) acc g = Some (res, g') ->
    Forall P res /\ length res = (length acc + n)%nat.
Proof.
  intros HP. induction n as [|n IH]; intros acc g res g' Hacc H.
  - injection H as <- _. split; [exact Hacc | lia].
  - simpl in H. apply bind_inv in H as (acc1 & g1 & H1 & H).
    apply bind_inv in H1 as (r & g2 & Hr & H1). injection H1 as <- <-.
    apply IH in H as [HF Hl].
    + split; [exact HF|]. rewrite Hl, length_app. simpl. lia.
    + apply Forall_app. split; [exact Hacc|].
      constructor; [exact (HP _ _ _ Hr) | constructor].
Qed.

Lemma collect_loop_total {A} (gen : Rand A) (P : A -> Prop) (k : nat) :
  (forall g, exists a, gen g = Some (a, skip k g) /\ P a) ->
  forall (n : nat) acc g,
    exists new,
      repeat_n n (fun acc => r <- gen ;; ret (acc ++ [r])) acc g
      = Some (acc ++ new, skip (k * n) g)
      /\ length new = n /\ Forall P new.
Proof.
  intros Hgen. induction n as [|n IH]; intros acc g.
  - exists []. rewrite app_nil_r, Nat.mul_0_r, skip_0. simpl.
    repeat split. constructor.
  - destruct (Hgen g) as (a & Ea & Pa).
    destruct (IH (acc ++ [a]) (skip k g)) as (new & E & Hl & HF).
    exists (a :: new). simpl. unfold bind at 1. unfold bind at 1.
    rewrite Ea. simpl. rewrite E, <- (app_assoc acc [a] new).
    split; [|split; [simpl; lia | now constructor]].
    do 2 f_equal. unfold skip. simpl. f_equal. lia.
Qed.

(** ** [CellularAutomaton]: rivers and mountains *)

Section TerrainFacts.
Import CellularAutomaton.

Lemma generate_rivers_forall self (P : River -> Prop) :
  (forall g r g', generate_river self g = Some (r, g') -> P r) ->
  forall num_rivers g rivers g',
    generate_rivers self num_rivers g = Some (rivers, g') ->
    Forall P rivers /\ length rivers = Z.to_nat num_rivers.
Proof.
  intros HP num_rivers g rivers g' H. unfold generate_rivers in H.
  apply (collect_loop_partial _ P HP) in H; [exact H | constructor].
Qed.

Lemma spawn_spec self g s g' :
  spawn self g = Some (s, g') ->
  (fst s = 0 \/ fst s = width self - 1 \/ snd s = 0 \/ snd s = height self - 1)
  /\ (1 <= width self -> 1 <= height self ->
      0 <= fst s <= width self - 1 /\ 0 <= snd s <= height self - 1).
Proof.
  unfold spawn. unfold bind at 1. rewrite random_eq.
  destruct (Rltb (unit_draw g) 0.5).
  - unfold bind at 1. rewrite random_eq. intros H.
    apply bind_inv in H as (sy & g1 & Hy & H). injection H as <- _.
    apply randint_range in Hy as [Hy _]. simpl.
    destruct (Rltb (unit_draw (advance g)) 0.5);
      (split; [auto | intros Hw Hh; lia]).
  - intros H. apply bind_inv in H as (sx & g1 & Hx & H).
    unfold bind in H. rewrite random_eq in H. injection H as <- _.
    apply randint_range in Hx as [Hx _]. simpl.
    destruct (Rltb (unit_draw g1) 0.5);
      (split; [auto | intros Hw Hh; lia]).
Qed.

Lemma walk_keeps_head self (n : nat) p0 st g st' g' :
  walking p0 st ->
  repeat_n n (walk_step self) st g = Some (st', g') ->
  head (fst (fst st')) = Some p0.
Proof.
  intros Hw H.
  destruct (walk_spec self p0 n st g Hw) as (st2 & g2 & E & Hw2 & _).
  rewrite E in H. injection H as <- _.
  destruct st2 as [[pts cx] cy]. apply Hw2.
Qed.

(** X16.  Every river starts on an edge of the grid: its first point has
    x in {0, width - 1} or y in {0, height - 1}. *)
Theorem rivers_start_on_edge (self : t) (num_rivers : Z) (g : Rng)
    (rivers : list River) (g' : Rng) :
  generate_rivers self num_rivers g = Some (rivers, g') ->
  Forall (fun r => exists p, head (river_points r) = Some p /\ on_edge self p)
         rivers.
Proof.
  intros H. eapply generate_rivers_forall; [|exact H].
  clear. intros g r g' H. unfold generate_river in H.
  apply bind_inv in H as (s & g1 & Hs & H).
  apply bind_inv in H as (steps & g2 & _ & H).
  apply bind_inv in H as (w & g3 & Hw & H).
  unfold bind in H. rewrite uniform_eq in H. injection H as <- _.
  exists (mkPoint (IZR (fst s)) (IZR (snd s))). split.
  - exact (walk_keeps_head _ _ _ _ _ _ _ (walking_spawn s) Hw).
  - apply spawn_spec in Hs as [Hedge _]. unfold on_edge. simpl.
    destruct Hedge as [-> | [-> | [-> | ->]]]; auto.
Qed.

(** The theorem applies: three rivers on a grid of 100 by 100. *)
Lemma rivers_start_on_edge_witness :
  exists rivers g',
    generate_rivers (mk 100 100) 3 rng0 = Some (rivers, g')
    /\ Forall (fun r => exists p, head (river_points r) = Some p
                                  /\ on_edge (mk 100 100) p) rivers.
Proof.
  destruct (rivers_loop_returns (mk 100 100) (Z.to_nat 3) [] rng0
              ltac:(simpl; lia) ltac:(simpl; lia)) as (rivers & g' & E & _).
  exists rivers, g'. split; [exact E|].
  exact (rivers_start_on_edge (mk 100 100) 3 rng0 rivers g' E).
Defined.

Lemma direction_range (b : bool) (g : Rng) :
  exists d,
    (if b then choice [0; 1] else choice [-1; 0]) g = Some (d, advance g)
    /\ (if b then 0 <= d <= 1 else -1 <= d <= 0).
Proof.
  destruct b.
  - exists (nth (pick 2 g) [0; 1] 0). split; [apply (choice_eq 0 [1])|].
    assert (H : In (nth (pick 2 g) [0; 1] 0) [0; 1])
      by (apply nth_In, Nat.mod_upper_bound; discriminate).
    destruct H as [H|[H|[]]]; rewrite <- H; lia.
  - exists (nth (pick 2 g) [-1; 0] (-1)). split; [apply (choice_eq (-1) [0])|].
    assert (H : In (nth (pick 2 g) [-1; 0] (-1)) [-1; 0])
      by (apply nth_In, Nat.mod_upper_bound; discriminate).
    destruct H as [H|[H|[]]]; rewrite <- H; lia.
Qed.

Lemma chain_snoc (R : Point -> Point -> Prop) (l : list Point) (p q : Point) :
  chain R l -> last l = Some p -> R p q -> chain R (l ++ [q]).
Proof.
  induction l as [|a l IH]; intros Hc Hl Hpq; [discriminate|].
  destruct l as [|b l].
  - simpl in *. injection Hl as ->. now split.
  - destruct Hc as [Hab Hc]. change (R a b /\ chain R ((b :: l) ++ [q])).
    split; [exact Hab|]. now apply IH.
Qed.

Lemma walk_step_grid self st g :
  1 <= width self -> 1 <= height self ->
  walking_grid self st ->
  exists st' g', walk_step self st g = Some (st', g') /\ walking_grid self st'.
Proof.
  intros Hw Hh. destruct st as [[pts cx] cy].
  intros (Hlast & Hx & Hy & Hall & Hch). unfold walk_step.
  destruct (direction_range (cx <? width self / 2) g) as (dx & Ex & Hdx).
  destruct (direction_range (cy <? height self / 2) (advance g)) as (dy & Ey & Hdy).
  rewrite (bind_Some _ _ _ _ _ Ex), (bind_Some _ _ _ _ _ Ey).
  set (nx := Z.max 0 (Z.min (width self - 1) (cx + dx))).
  set (ny := Z.max 0 (Z.min (height self - 1) (cy + dy))).
  assert (Hnx : 0 <= nx <= width self - 1) by (unfold nx; lia).
  assert (Hny : 0 <= ny <= height self - 1) by (unfold ny; lia).
  assert (Dx : drifts (width self / 2) cx nx).
  { unfold drifts. destruct (cx <? width self / 2) eqn:E.
    - apply Z.ltb_lt in E. unfold nx. lia.
    - apply Z.ltb_ge in E. unfold nx. lia. }
  assert (Dy : drifts (height self / 2) cy ny).
  { unfold drifts. destruct (cy <? height self / 2) eqn:E.
    - apply Z.ltb_lt in E. unfold ny. lia.
    - apply Z.ltb_ge in E. unfold ny. lia. }
  destruct (bool_decide ((nx, ny) <> (cx, cy))) eqn:Hd.
  - apply bool_decide_eq_true in Hd.
    eexists _, _. split; [reflexivity|].
    split; [now rewrite last_snoc|]. split; [exact Hnx|]. split; [exact Hny|].
    split.
    + apply Forall_app. split; [exact Hall|].
      constructor; [|constructor]. now exists nx, ny.
    + apply chain_snoc with (mkPoint (IZR cx) (IZR cy)); [assumption..|].
      now exists cx, cy, nx, ny.
  - eexists _, _. split; [reflexivity|]. now repeat split.
Qed.

Lemma walk_grid self (n : nat) : forall st g,
  1 <= width self -> 1 <= height self ->
  walking_grid self st ->
  exists st' g',
    repeat_n n (walk_step self) st g = Some (st', g') /\ walking_grid self st'.
Proof.
  induction n as [|n IH]; intros st g Hw Hh Hinv.
  - now exists st, g.
  - destruct (walk_step_grid self st g Hw Hh Hinv) as (st1 & g1 & E1 & H1).
    destruct (IH st1 g1 Hw Hh H1) as (st2 & g2 & E2 & H2).
    exists st2, g2. simpl. now rewrite (bind_Some _ _ _ _ _ E1).
Qed.

Lemma generate_river_grid self g r g' :
  1 <= width self -> 1 <= height self ->
  generate_river self g = Some (r, g') ->
  Forall (in_grid self) (river_points r)
  /\ chain (river_step self) (river_points r)
  /\ (0.5 <= river_width r <= 2.0)%R.
Proof.
  intros Hw Hh H. unfold generate_river in H.
  apply bind_inv in H as (s & g1 & Hs & H).
  apply bind_inv in H as (steps & g2 & _ & H).
  apply spawn_spec in Hs as [_ Hs]. destruct (Hs Hw Hh) as [Hsx Hsy].
  assert (W : walking_grid self
                ([mkPoint (IZR (fst s)) (IZR (snd s))], fst s, snd s)).
  { split; [reflexivity|]. split; [exact Hsx|]. split; [exact Hsy|].
    split; [|exact Logic.I].
    constructor; [|constructor]. now exists (fst s), (snd s). }
  destruct (walk_grid self (Z.to_nat steps) _ g2 Hw Hh W)
    as (st' & g3 & E & Hinv).
  rewrite (bind_Some _ _ _ _ _ E) in H.
  unfold bind in H. rewrite uniform_eq in H. injection H as <- _.
  destruct st' as [[pts cx] cy]. destruct Hinv as (_ & _ & _ & Hall & Hch).
  simpl. split; [exact Hall|]. split; [exact Hch|].
  apply uniform_bounds. lra.
Qed.

(** X17.  On a grid with at least one cell each way, every point of every
    river is a cell of the grid, [0 .. width - 1] by [0 .. height - 1], and
    every river has a width in [0.5, 2.0]. *)
Theorem rivers_stay_in_grid (self : t) (num_rivers : Z) (g : Rng)
    (rivers : list River) (g' : Rng) :
  1 <= width self -> 1 <= height self ->
  generate_rivers self num_rivers g = Some (rivers, g') ->
  Forall (fun r => Forall (in_grid self) (river_points r)
                   /\ (0.5 <= river_width r <= 2.0)%R) rivers.
Proof.
  intros Hw Hh H. eapply generate_rivers_forall; [|exact H].
  intros g0 r g1 Hr.
  destruct (generate_river_grid self g0 r g1 Hw Hh Hr) as (Hg & _ & Hwd).
  now split.
Qed.

(** The theorem applies: three rivers on a grid of 100 by 100. *)
Lemma rivers_stay_in_grid_witness :
  exists rivers g',
    generate_rivers (mk 100 100) 3 rng0 = Some (rivers, g')
    /\ Forall (fun r => Forall (in_grid (mk 100 100)) (river_points r)
                        /\ (0.5 <= river_width r <= 2.0)%R) rivers.
Proof.
  destruct (rivers_loop_returns (mk 100 100) (Z.to_nat 3) [] rng0
              ltac:(simpl; lia) ltac:(simpl; lia)) as (rivers & g' & E & _).
  exists rivers, g'. split; [exact E|].
  exact (rivers_stay_in_grid (mk 100 100) 3 rng0 rivers g'
           ltac:(simpl; lia) ltac:(simpl; lia) E).
Defined.

(** X18.  A river moves one cell at a time and never away from the centre:
    between consecutive points each coordinate changes by at most one,
    upward or not at all below the centre line (width // 2 or height // 2),
    downward or not at all from it on, and the two points differ. *)
Theorem rivers_drift_to_centre (self : t) (num_rivers : Z) (g : Rng)
    (rivers : list River) (g' : Rng) :
  1 <= width self -> 1 <= height self ->
  generate_rivers self num_rivers g = Some (rivers, g') ->
  Forall (fun r => chain (river_step self) (river_points r)) rivers.
Proof.
  intros Hw Hh H. eapply generate_rivers_forall; [|exact H].
  intros g0 r g1 Hr.
  now destruct (generate_river_grid self g0 r g1 Hw Hh Hr) as (_ & Hc & _).
Qed.

Lemma unit_draw_rng1 k : (unit_draw (rng1 k) < 0.5)%R.
Proof.
  unfold unit_draw, rng1. cbn [tape cursor].
  change (Z.of_N 1 mod 2 ^ 53) with 1.
  change (2 ^ 53) with 9007199254740992. lra.
Qed.

(** Below the centre of a grid of 100 by 100, a step on the tape of ones
    goes one cell up and one to the right, and is recorded. *)
Lemma walk_step_rng1 pts cx cy k :
  0 <= cx < 49 -> 0 <= cy < 49 ->
  walk_step (mk 100 100) (pts, cx, cy) (rng1 k)
  = Some ((pts ++ [mkPoint (IZR (cx + 1)) (IZR (cy + 1))], cx + 1, cy + 1),
          rng1 (S (S k))).
Proof.
  intros Hx Hy. unfold walk_step. cbn [width height].
  change (100 / 2) with 50.
  rewrite (proj2 (Z.ltb_lt cx 50)) by lia.
  rewrite (proj2 (Z.ltb_lt cy 50)) by lia.
  unfold bind at 1. rewrite choice_eq.
  unfold bind at 1. rewrite choice_eq.
  change (nth (pick (S (length [1])) (rng1 k)) [0; 1] 0) with 1.
  change (nth (pick (S (length [1])) (advance (rng1 k))) [0; 1] 0) with 1.
  rewrite (Z.min_r (100 - 1) (cx + 1)) by lia.
  rewrite (Z.min_r (100 - 1) (cy + 1)) by lia.
  rewrite (Z.max_r 0 (cx + 1)) by lia.
  rewrite (Z.max_r 0 (cy + 1)) by lia.
  rewrite bool_decide_eq_true_2; [reflexivity|].
  intros H. injection H as H _. lia.
Qed.

Lemma walk_rng1 (n : nat) : forall pts cx cy k,
  0 <= cx -> 0 <= cy -> cx + Z.of_nat n <= 49 -> cy + Z.of_nat n <= 49 ->
  repeat_n n (walk_step (mk 100 100)) (pts, cx, cy) (rng1 k)
  = Some ((pts ++ diagonal (cx + 1) (cy + 1) n,
           cx + Z.of_nat n, cy + Z.of_nat n), rng1 (k + 2 * n)).
Proof.
  induction n as [|n IH]; intros pts cx cy k Hx Hy Hxn Hyn.
  - cbn [repeat_n ret]. unfold diagonal. cbn [Z.of_nat seqZ map].
    change (seqZ 0 0) with (@nil Z). cbn [map].
    rewrite app_nil_r, !Z.add_0_r.
    replace (k + 2 * 0)%nat with k by lia. reflexivity.
  - cbn [repeat_n]. unfold bind at 1.
    rewrite walk_step_rng1 by lia.
    rewrite IH by lia.
    replace (diagonal (cx + 1) (cy + 1) (S n))
      with ([mkPoint (IZR (cx + 1)) (IZR (cy + 1))]
            ++ diagonal (cx + 1 + 1) (cy + 1 + 1) n).
    + rewrite <- app_assoc.
      replace (cx + 1 + Z.of_nat n) with (cx + Z.of_nat (S n)) by lia.
      replace (cy + 1 + Z.of_nat n) with (cy + Z.of_nat (S n)) by lia.
      replace (S (S k) + 2 * n)%nat with (k + 2 * S n)%nat by lia.
      reflexivity.
    + unfold diagonal.
      replace (Z.of_nat (S n)) with (1 + Z.of_nat n) by lia.
      rewrite seqZ_app by lia. rewrite map_app.
      change (seqZ 0 1) with [0]. cbn [map app].
      rewrite !Z.add_0_r. f_equal.
      replace (seqZ (0 + 1) (Z.of_nat n)) with ((fun j => 1 + j) <$> seqZ 0 (Z.of_nat n)).
      * rewrite <- list_fmap_compose. apply map_ext. intros j. cbn.
        now rewrite !Z.add_assoc.
      * replace (0 + 1) with (1 + 0) by lia. now rewrite <- fmap_add_seqZ.
Qed.

Lemma Rltb_rng1 k : Rltb (unit_draw (rng1 k)) 0.5 = true.
Proof. apply Rltb_spec. apply unit_draw_rng1. Qed.

Lemma spawn_rng1 : spawn (mk 100 100) (rng1 0) = Some ((0, 1), rng1 3).
Proof.
  unfold spawn. cbn [width height].
  unfold bind at 1. rewrite random_eq, Rltb_rng1.
  unfold bind at 1. rewrite random_eq.
  unfold bind at 1. rewrite randint_eq by lia.
  change (advance (rng1 0)) with (rng1 1). rewrite Rltb_rng1.
  reflexivity.
Qed.

(** On the tape of ones a river of a grid of 100 by 100 starts at cell
    (0, 1) and takes 21 steps along the diagonal. *)
Lemma generate_river_rng1 :
  exists w,
    generate_river (mk 100 100) (rng1 0)
    = Some (mkRiver (mkPoint 0 1 :: diagonal 1 2 21) w, rng1 47).
Proof.
  unfold generate_river.
  unfold bind at 1. rewrite spawn_rng1.
  unfold bind at 1. rewrite randint_eq by lia.
  change (20 + Z.of_N (tape (rng1 3) (cursor (rng1 3))) mod (50 - 20 + 1))
    with 21.
  change (advance (rng1 3)) with (rng1 4).
  cbn [fst snd]. change (Z.to_nat 21) with 21%nat.
  unfold bind at 1. rewrite (walk_rng1 21 _ 0 1 4) by lia.
  unfold bind at 1. rewrite uniform_eq.
  eexists. reflexivity.
Qed.

(** X18 applies where a river moves: on the tape of ones the river of a
    grid of 100 by 100 has 22 points, from cell (0, 1) to cell (21, 22). *)
Lemma rivers_drift_to_centre_witness :
  exists r g',
    generate_rivers (mk 100 100) 1 (rng1 0) = Some ([r], g')
    /\ length (river_points r) = 22%nat
    /\ head (river_points r) = Some (mkPoint 0 1)
    /\ last (river_points r) = Some (mkPoint 21 22)
    /\ Forall (fun r => chain (river_step (mk 100 100)) (river_points r)) [r].
Proof.
  destruct generate_river_rng1 as [w E].
  assert (E1 : generate_rivers (mk 100 100) 1 (rng1 0)
               = Some ([mkRiver (mkPoint 0 1 :: diagonal 1 2 21) w], rng1 47)).
  { unfold generate_rivers. change (Z.to_nat 1) with 1%nat.
    cbn [repeat_n]. unfold bind at 1. unfold bind at 1. rewrite E.
    reflexivity. }
  eexists _, _. split; [exact E1|]. cbn [river_points].
  split; [reflexivity|]. split; [reflexivity|]. split; [reflexivity|].
  exact (rivers_drift_to_centre (mk 100 100) 1 (rng1 0) _ _
           ltac:(simpl; lia) ltac:(simpl; lia) E1).
Defined.

Lemma randint_None a b g : randint a b g = None <-> b < a.
Proof.
  unfold randint. destruct (b <? a) eqn:E.
  - apply Z.ltb_lt in E. split; [intros _; exact E | reflexivity].
  - apply Z.ltb_ge in E. split; [discriminate | lia].
Qed.

Lemma spawn_None self g :
  spawn self g = None
  <-> ((unit_draw g < 0.5)%R /\ height self <= 0)
      \/ ((0.5 <= unit_draw g)%R /\ width self <= 0).
Proof.
  unfold spawn. unfold bind at 1. rewrite random_eq.
  destruct (Rltb (unit_draw g) 0.5) eqn:Eside.
  - apply Rltb_spec in Eside.
    unfold bind at 1. rewrite random_eq. unfold bind at 1.
    destruct (randint 0 (height self - 1) (advance (advance g)))
      as [[sy g1]|] eqn:Ey.
    + apply randint_range in Ey as [Hy _].
      split; [discriminate | intros [[_ H]|[H _]]; [lia | lra]].
    + apply randint_None in Ey. split; [intros _; left; split; [lra | lia] | reflexivity].
  - assert (Hside : (0.5 <= unit_draw g)%R).
    { apply Rnot_lt_le. intros H. apply Rltb_spec in H. congruence. }
    unfold bind at 1.
    destruct (randint 0 (width self - 1) (advance g)) as [[sx g1]|] eqn:Ex.
    + apply randint_range in Ex as [Hx _]. unfold bind. rewrite random_eq.
      split; [discriminate | intros [[H _]|[_ H]]; [lra | lia]].
    + apply randint_None in Ex. split; [intros _; right; split; [lra | lia] | reflexivity].
Qed.

Lemma river_after_spawn self g s g1 :
  spawn self g = Some (s, g1) ->
  exists r g', generate_river self g = Some (r, g').
Proof.
  intros Es. unfold generate_river. rewrite (bind_Some _ _ _ _ _ Es).
  unfold bind at 1. rewrite randint_eq by lia.
  set (steps := 20 + Z.of_N (tape g1 (cursor g1)) mod (50 - 20 + 1)).
  destruct (walk_spec self _ (Z.to_nat steps) _ (advance g1) (walking_spawn s))
    as (st' & g3 & E & _).
  rewrite (bind_Some _ _ _ _ _ E).
  unfold bind. rewrite uniform_eq. now eexists _, _.
Qed.

Lemma generate_river_None self g :
  generate_river self g = None <-> spawn self g = None.
Proof.
  split.
  - intros H. destruct (spawn self g) as [[s g1]|] eqn:Es; [|reflexivity].
    destruct (river_after_spawn self g s g1 Es) as (r & g' & E). congruence.
  - intros H. unfold generate_river, bind. now rewrite H.
Qed.

(** X19.  A river can be generated only if the edge drawn for its spawn
    point has a cell: [generate_river] raises [ValueError] exactly when the
    first draw is below 0.5 and the height is at most 0, or the draw is at
    least 0.5 and the width is at most 0.  So on a grid with no column and
    no row a request for at least one river raises, and a request for none
    returns the empty list without a draw. *)
Theorem generate_river_raises_iff :
  (forall (self : t) (g : Rng),
      generate_river self g = None
      <-> ((unit_draw g < 0.5)%R /\ height self <= 0)
          \/ ((0.5 <= unit_draw g)%R /\ width self <= 0))
  /\ (forall (self : t) (num_rivers : Z) (g : Rng),
        width self <= 0 -> height self <= 0 -> 1 <= num_rivers ->
        generate_rivers self num_rivers g = None)
  /\ (forall (self : t) (num_rivers : Z) (g : Rng),
        num_rivers <= 0 -> generate_rivers self num_rivers g = Some ([], g)).
Proof.
  split; [|split].
  - intros self g. rewrite generate_river_None. apply spawn_None.
  - intros self num_rivers g Hw Hh Hn. unfold generate_rivers.
    destruct (Z.to_nat num_rivers) as [|k] eqn:Ek; [lia|].
    assert (E : generate_river self g = None).
    { apply generate_river_None, spawn_None.
      destruct (Rlt_dec (unit_draw g) 0.5) as [H|H]; [left | right]; split;
        [lra | lia | lra | lia]. }
    simpl. unfold bind at 1. unfold bind at 1. now rewrite E.
  - intros self num_rivers g Hn. unfold generate_rivers.
    now replace (Z.to_nat num_rivers) with 0%nat by lia.
Qed.

(** The theorem applies: a grid of width and height 0. *)
Lemma generate_river_raises_iff_witness :
  generate_rivers (mk 0 0) 3 rng0 = None
  /\ generate_rivers (mk 0 0) (-1) rng0 = Some ([], rng0).
Proof.
  destruct generate_river_raises_iff as (_ & Hraise & Hnone). split.
  - apply Hraise; simpl; lia.
  - apply Hnone. lia.
Defined.

Lemma generate_mountain_spec self g :
  exists m, generate_mountain self g = Some (m, skip 4 g)
            /\ sampled_mountain self m.
Proof.
  unfold generate_mountain. do 4 draw_uniform.
  eexists. split.
  - unfold ret. do 2 f_equal. unfold skip, advance. simpl. f_equal. lia.
  - unfold sampled_mountain. cbn [mountain_radius mountain_height mountain_center].
    split; [apply uniform_bounds; lra|]. split; [apply uniform_bounds; lra|].
    intros Hw Hh. apply IZR_le in Hw, Hh.
    split; cbn [p_x p_y]; apply uniform_bounds; assumption.
Qed.

(** X20.  [generate_mountains] always returns, with one mountain per unit
    of a positive count and four draws per mountain; every radius is in
    [5, 15], every height in [0.5, 1.0], and on a canvas of non-negative
    width and height every centre is on the canvas. *)
Theorem generate_mountains_samples (self : t) (num_mountains : Z) (g : Rng) :
  exists mountains,
    generate_mountains self num_mountains g
    = Some (mountains,
            mkRng (tape g) (cursor g + 4 * Z.to_nat num_mountains))
    /\ length mountains = Z.to_nat num_mountains
    /\ Forall (sampled_mountain self) mountains.
Proof.
  unfold generate_mountains.
  destruct (collect_loop_total (generate_mountain self) (sampled_mountain self) 4
              (generate_mountain_spec self) (Z.to_nat num_mountains) [] g)
    as (ms & E & Hl & HF).
  exists ms. now rewrite E.
Qed.

End TerrainFacts.

(** ** [BuildingGenerator.generate_buildings]: counts, attributes, places *)

Section BuildingFacts.
Import BuildingGenerator.

(** A loop whose body appends to the accumulator: the loop appends what the
    bodies append, in order. *)
Lemma for_each_appends {A B} (body : A -> list B -> Rand (list B))
    (P : A -> B -> Prop) (lo hi : A -> nat) :
  (forall a acc g,
      exists new g', body a acc g = Some (acc ++ new, g')
                     /\ Forall (P a) new
                     /\ (lo a <= length new <= hi a)%nat) ->
  forall l acc g,
    exists new g',
      for_each body l acc g = Some (acc ++ new, g')
      /\ Forall (fun b => exists a, In a l /\ P a b) new
      /\ (list_sum (map lo l) <= length new <= list_sum (map hi l))%nat.
Proof.
  intros Hbody. induction l as [|a l IH]; intros acc g.
  - exists [], g. rewrite app_nil_r. simpl. repeat split; [constructor | lia | lia].
  - destruct (Hbody a acc g) as (n1 & g1 & E1 & H1 & L1).
    destruct (IH (acc ++ n1) g1) as (n2 & g2 & E2 & H2 & L2).
    exists (n1 ++ n2), g2. simpl. rewrite (bind_Some _ _ _ _ _ E1), E2.
    rewrite <- (app_assoc acc n1 n2). split; [reflexivity|]. split.
    + apply Forall_app. split.
      * eapply Forall_impl; [exact H1|]. intros b Hb. exists a. split; [now left | exact Hb].
      * eapply Forall_impl; [exact H2|].
        intros b (a' & Ha' & Hb). exists a'. split; [now right | exact Hb].
    + rewrite length_app. lia.
Qed.

Lemma frontage_full street n i acc g :
  exists b g',
    frontage street n i acc g = Some (acc ++ [b], g')
    /\ placed street n i b /\ sampled_building b.
Proof.
  unfold frontage, building_types.
  do 4 draw_uniform. draw_choice.
  eexists _, _. split; [reflexivity|]. split.
  - eexists _, _, _. split; [reflexivity|].
    split; [apply uniform_bounds; lra|].
    split; [apply uniform_bounds; lra | reflexivity].
  - unfold sampled_building. cbn [building_width building_height building_type].
    split; [apply uniform_bounds; lra|]. split; [apply uniform_bounds; lra|].
    apply nth_In. unfold pick. apply Nat.mod_upper_bound. discriminate.
Qed.

Lemma placed_near_street street n i b :
  0 <= i < n -> placed street n i b -> near_street street b.
Proof.
  intros Hi (t & ox & oy & -> & Hox & Hoy & Hpos).
  destruct (param_spec n i Hi) as (_ & _ & Ht).
  unfold near_street. rewrite Hpos. cbn [p_x p_y].
  set (sx := p_x (street_start street)). set (ex := p_x (street_end street)).
  set (sy := p_y (street_start street)). set (ey := p_y (street_end street)).
  pose proof (Rmin_l sx ex). pose proof (Rmin_r sx ex).
  pose proof (Rmax_l sx ex). pose proof (Rmax_r sx ex).
  pose proof (Rmin_l sy ey). pose proof (Rmin_r sy ey).
  pose proof (Rmax_l sy ey). pose proof (Rmax_r sy ey).
  set (t := param n i) in *.
  repeat split; nra.
Qed.

Lemma street_buildings_spec street acc g :
  exists new g',
    street_buildings street acc g = Some (acc ++ new, g')
    /\ Forall (fun b => sampled_building b /\ near_street street b) new
    /\ (Z.to_nat (num_street_buildings street) <= length new
        <= Z.to_nat (num_street_buildings street))%nat.
Proof.
  unfold street_buildings. set (n := num_street_buildings street).
  destruct (for_each_appends (frontage street n)
              (fun i b => placed street n i b /\ sampled_building b)
              (fun _ => 1%nat) (fun _ => 1%nat)) with (l := seqZ 0 n) (acc := acc) (g := g)
    as (new & g' & E & HF & HL).
  { intros i acc0 g0.
    destruct (frontage_full street n i acc0 g0) as (b & g1 & Eb & Hp & Hs).
    exists [b], g1. split; [exact Eb|].
    split; [constructor; [now split | constructor] | simpl; lia]. }
  exists new, g'. split; [exact E|]. split.
  - eapply Forall_impl; [exact HF|].
    intros b (i & Hi & Hp & Hs). split; [exact Hs|].
    apply list_elem_of_In, elem_of_seqZ in Hi.
    apply (placed_near_street street n i); [lia | exact Hp].
  - assert (Hones : forall l : list Z, list_sum (map (fun _ => 1%nat) l) = length l)
      by (induction l; simpl; congruence).
    rewrite Hones, length_seqZ in HL. exact HL.
Qed.

Lemma interior_full district acc g :
  exists b g',
    interior district acc g = Some (acc ++ [b], g')
    /\ near_district district b /\ sampled_building b.
Proof.
  unfold interior, building_types.
  do 4 draw_uniform. draw_choice.
  eexists _, _. split; [reflexivity|].
  destruct (center_is_mean district) as [-> ->]. split.
  - unfold near_district. cbn [building_position p_x p_y].
    pose proof (uniform_bounds (-10) 10 g ltac:(lra)).
    pose proof (uniform_bounds (-10) 10 (advance g) ltac:(lra)).
    split; lra.
  - unfold sampled_building. cbn [building_width building_height building_type].
    split; [apply uniform_bounds; lra|]. split; [apply uniform_bounds; lra|].
    apply nth_In. unfold pick. apply Nat.mod_upper_bound. discriminate.
Qed.

Lemma interior_loop_full district (n : nat) : forall acc g,
  exists new g',
    repeat_n n (interior district) acc g = Some (acc ++ new, g')
    /\ length new = n
    /\ Forall (fun b => sampled_building b /\ near_district district b) new.
Proof.
  induction n as [|n IH]; intros acc g.
  - exists [], g. rewrite app_nil_r. repeat split. constructor.
  - destruct (interior_full district acc g) as (b & g1 & E1 & Hn & Hs).
    destruct (IH (acc ++ [b]) g1) as (new & g' & E2 & Hlen & Hall).
    exists (b :: new), g'. simpl. rewrite (bind_Some _ _ _ _ _ E1), E2.
    rewrite <- (app_assoc acc [b] new). split; [reflexivity|].
    split; [simpl; lia | now constructor].
Qed.

Lemma district_buildings_spec district acc g :
  exists new g',
    district_buildings district acc g = Some (acc ++ new, g')
    /\ Forall (fun b => sampled_building b /\ (3 <= length district)%nat
                        /\ near_district district b) new
    /\ ((if (length district <? 3)%nat then 0 else 5) <= length new
        <= (if (length district <? 3)%nat then 0 else 15))%nat.
Proof.
  unfold district_buildings. destruct (length district <? 3)%nat eqn:E.
  - exists [], g. rewrite app_nil_r. split; [reflexivity|].
    split; [constructor | simpl; lia].
  - apply Nat.ltb_ge in E. unfold bind. rewrite randint_eq by lia.
    set (n := 5 + Z.of_N (tape g (cursor g)) mod (15 - 5 + 1)).
    pose proof (Z.mod_pos_bound (Z.of_N (tape g (cursor g))) (15 - 5 + 1)).
    destruct (interior_loop_full district (Z.to_nat n) acc (advance g))
      as (new & g' & E' & Hl & Hall).
    exists new, g'. split; [exact E'|]. split.
    + eapply Forall_impl; [exact Hall|]. intros b [Hs Hn].
      split; [exact Hs | split; [exact E | exact Hn]].
    + unfold n in Hl. lia.
Qed.

Lemma eligible_sum (districts : list (list Point)) (k : nat) :
  list_sum (map (fun d => if (length d <? 3)%nat then 0%nat else k) districts)
  = (k * eligible districts)%nat.
Proof.
  unfold eligible. induction districts as [|d ds IH]; [simpl; lia|].
  simpl. destruct (length d <? 3)%nat; simpl; rewrite IH; lia.
Qed.

(** The whole of [generate_buildings]. *)
Lemma generate_buildings_spec self streets districts num g :
  exists bs g',
    generate_buildings self streets districts num g
    = Some ((mk (width self) (height self) bs, bs), g')
    /\ Forall sampled_building bs
    /\ Forall (building_origin streets districts) bs
    /\ (frontage_total streets + 5 * eligible districts <= length bs
        <= frontage_total streets + 15 * eligible districts)%nat.
Proof.
  unfold generate_buildings.
  destruct (for_each_appends street_buildings
              (fun street b => sampled_building b /\ near_street street b)
              (fun s => Z.to_nat (num_street_buildings s))
              (fun s => Z.to_nat (num_street_buildings s))
              street_buildings_spec streets [] g)
    as (b1 & g1 & E1 & H1 & L1).
  destruct (for_each_appends district_buildings
              (fun district b => sampled_building b /\ (3 <= length district)%nat
                                 /\ near_district district b)
              (fun d => if (length d <? 3)%nat then 0%nat else 5%nat)
              (fun d => if (length d <? 3)%nat then 0%nat else 15%nat)
              district_buildings_spec districts ([] ++ b1) g1)
    as (b2 & g2 & E2 & H2 & L2).
  exists (b1 ++ b2), g2.
  rewrite (bind_Some _ _ _ _ _ E1), (bind_Some _ _ _ _ _ E2).
  split; [reflexivity|]. rewrite !eligible_sum in L2. split; [|split].
  - apply Forall_app. split.
    + eapply Forall_impl; [exact H1|]. now intros b (a & _ & Hs & _).
    + eapply Forall_impl; [exact H2|]. now intros b (a & _ & Hs & _).
  - apply Forall_app. split.
    + eapply Forall_impl; [exact H1|]. intros b (a & Ha & _ & Hn).
      left. now exists a.
    + eapply Forall_impl; [exact H2|]. intros b (a & Ha & _ & Hl & Hn).
      right. now exists a.
  - rewrite length_app. unfold frontage_total. lia.
Qed.

(** X22.  Every building has a width and a height in [0.5, 2.0] and one of
    the three type tags. *)
Theorem generate_buildings_samples_attributes (self : t) (streets : list Street)
    (districts : list (list Point)) (num_buildings : Z) (g : Rng) :
  exists bs g',
    generate_buildings self streets districts num_buildings g
    = Some ((mk (width self) (height self) bs, bs), g')
    /\ Forall sampled_building bs.
Proof.
  destruct (generate_buildings_spec self streets districts num_buildings g)
    as (bs & g' & E & H & _).
  now exists bs, g'.
Qed.


End BuildingFacts.

(** ** Streets into buildings, and the whole city *)

Section CityFacts.

Lemma emitted_frontage_total (streets : list Street) :
  Forall (fun s => exists tu g, s = emitted tu g) streets ->
  frontage_total streets = (2 * length streets)%nat.
Proof.
  unfold frontage_total. induction 1 as [|s l (tu & g & ->) _ IH]; [reflexivity|].
  simpl. rewrite IH, emitted_street_gets_two_buildings. lia.
Qed.

Lemma fresh_streets (w h iterations : Z) (g : Rng) :
  exists drawn,
    StreetGenerator.generate_streets (StreetGenerator.new w h) iterations g
    = Some ((StreetGenerator.mk w h drawn (LSystem.mk "F" street_rules), drawn),
            skip (2 * length drawn) g)
    /\ Forall (fun s => exists tu g0, s = emitted tu g0) drawn
    /\ Forall (fun s => on_canvas w h (street_end s)) drawn.
Proof.
  destruct (generate_streets_trace (StreetGenerator.new w h) iterations g
              (fun _ => True)) as (nw & E & Hall & _); [auto | exact I |].
  exists nw. split; [exact E|]. split.
  - eapply Forall_impl; [exact Hall|]. intros s (tu & g0 & _ & _ & ->). eauto.
  - eapply Forall_impl; [exact Hall|]. intros s (tu & g0 & _ & Hb & ->).
    now apply in_bounds_spec in Hb.
Qed.

(** X24.  The streets of a fresh street generator are all 8 long, so the
    building generator puts exactly two frontage buildings on each: with no
    district, the buildings are twice the streets. *)
Theorem two_buildings_per_street (w h iterations num_buildings : Z)
    (bg : BuildingGenerator.t) (g : Rng) :
  exists sg streets g1 bg' bs g2,
    StreetGenerator.generate_streets (StreetGenerator.new w h) iterations g
    = Some ((sg, streets), g1)
    /\ BuildingGenerator.generate_buildings bg streets [] num_buildings g1
       = Some ((bg', bs), g2)
    /\ length bs = (2 * length streets)%nat.
Proof.
  destruct (fresh_streets w h iterations g) as (streets & E1 & Hem & _).
  destruct (generate_buildings_spec bg streets [] num_buildings
              (skip (2 * length streets) g)) as (bs & g2 & E2 & _ & _ & L).
  eexists _, streets, _, _, bs, g2. split; [exact E1|]. split; [exact E2|].
  rewrite (emitted_frontage_total streets Hem) in L.
  unfold eligible in L. simpl in L. lia.
Qed.

Import CityGenerator.

(** X25.  On a fresh city of at least one cell each way, with a diagram
    whose indices are in range, [generate_city] returns.  The city holds the
    districts of the diagram, the rivers and mountains asked for, streets
    that all end on the canvas, and two buildings per street plus 5 to 15
    per district of three vertices or more; each list is also the one its
    generator stores. *)
Theorem generate_city_composes (w h street_iterations : Z)
    (vor : VoronoiGenerator.Voronoi)
    (num_rivers num_mountains num_buildings : Z) (g : Rng)
    (vg : VoronoiGenerator.t) (ds : list (list Point)) :
  1 <= w -> 1 <= h ->
  VoronoiGenerator.generate_districts (VoronoiGenerator.new w h) vor
  = Some (vg, ds) ->
  exists city g',
    generate_city (new w h) street_iterations vor
                  num_rivers num_mountains num_buildings g
    = Some (city, g')
    /\ districts city = ds
    /\ length (rivers city) = Z.to_nat num_rivers
    /\ length (mountains city) = Z.to_nat num_mountains
    /\ Forall (fun s => on_canvas w h (street_end s)) (streets city)
    /\ (2 * length (streets city) + 5 * eligible ds
        <= length (buildings city)
        <= 2 * length (streets city) + 15 * eligible ds)%nat
    /\ StreetGenerator.streets (street_generator city) = streets city
    /\ VoronoiGenerator.districts (voronoi_generator city) = districts city
    /\ BuildingGenerator.buildings (building_generator city) = buildings city.
Proof.
  intros Hw Hh Hvor. unfold generate_city.
  cbn [new street_generator voronoi_generator cellular_automaton
       building_generator width height].
  destruct (fresh_streets w h street_iterations g) as (sts & E1 & Hem & Hcan).
  rewrite (bind_Some _ _ _ _ _ E1).
  unfold bind at 1. unfold lift. rewrite Hvor.
  destruct (rivers_loop_returns (CellularAutomaton.mk w h) (Z.to_nat num_rivers)
              [] (skip (2 * length sts) g) Hw Hh) as (rs & g2 & E2 & L2).
  unfold bind at 1. unfold CellularAutomaton.generate_rivers. rewrite E2.
  destruct (collect_loop_total
              (CellularAutomaton.generate_mountain (CellularAutomaton.mk w h))
              (sampled_mountain (CellularAutomaton.mk w h)) 4
              (generate_mountain_spec (CellularAutomaton.mk w h))
              (Z.to_nat num_mountains) [] g2) as (ms & E3 & L3 & _).
  unfold bind at 1. unfold CellularAutomaton.generate_mountains. rewrite E3.
  destruct (generate_buildings_spec (BuildingGenerator.new w h) sts ds
              num_buildings (skip (4 * Z.to_nat num_mountains) g2))
    as (bs & g4 & E4 & _ & _ & L4).
  unfold bind at 1. cbn [fst snd]. rewrite E4.
  eexists _, g4. split; [reflexivity|].
  cbn [districts rivers mountains streets buildings street_generator
       voronoi_generator building_generator fst snd
       StreetGenerator.streets BuildingGenerator.buildings].
  rewrite (emitted_frontage_total sts Hem) in L4.
  split; [reflexivity|]. split; [simpl in L2; lia|]. split; [exact L3|].
  split; [exact Hcan|]. split; [exact L4|]. split; [reflexivity|].
  split; [|reflexivity].
  unfold VoronoiGenerator.generate_districts in Hvor.
  destruct (VoronoiGenerator.collect vor (VoronoiGenerator.point_region vor) []);
    [|discriminate].
  simpl in Hvor. now injection Hvor as <- <-.
Qed.

(** The theorem applies: a city of 100 by 100 on the diagram of two seeds
    used above. *)
Lemma generate_city_composes_witness :
  exists city g',
    generate_city (new 100 100) 3
      (VoronoiGenerator.mkVoronoi [(0, 0); (1, 0); (1, 1); (0, 1)]%R
                                  [[]; [0; 1; 2; 3]; [-1; 0; 1]] [1; 2])
      3 5 200 rng0
    = Some (city, g')
    /\ districts city = [[mkPoint 0 0; mkPoint 1 0; mkPoint 1 1; mkPoint 0 1]]
    /\ length (rivers city) = 3%nat
    /\ length (mountains city) = 5%nat.
Proof.
  destruct (generate_city_composes 100 100 3
              (VoronoiGenerator.mkVoronoi [(0, 0); (1, 0); (1, 1); (0, 1)]%R
                                          [[]; [0; 1; 2; 3]; [-1; 0; 1]] [1; 2])
              3 5 200 rng0
              (VoronoiGenerator.mk 100 100
                 [[mkPoint 0 0; mkPoint 1 0; mkPoint 1 1; mkPoint 0 1]])
              [[mkPoint 0 0; mkPoint 1 0; mkPoint 1 1; mkPoint 0 1]]
              ltac:(lia) ltac:(lia) eq_refl)
    as (city & g' & E & Hd & Hr & Hm & _).
  now exists city, g'.
Defined.

Lemma map_injective {A B} (f : A -> B) :
  (forall a a', f a = f a' -> a = a') ->
  forall l l', map f l = map f l' -> l = l'.
Proof.
  intros Hf. induction l as [|a l IH]; intros [|a' l'] H; try discriminate.
  - reflexivity.
  - injection H as Ha Hl. f_equal; [now apply Hf | now apply IH].
Qed.

Lemma point_json_injective p q : point_json p = point_json q -> p = q.
Proof. destruct p, q. unfold point_json. simpl. intros H. now injection H as -> ->. Qed.

Lemma street_json_injective s s' : street_json s = street_json s' -> s = s'.
Proof.
  destruct s as [[sx sy] [ex ey] w ty], s' as [[sx' sy'] [ex' ey'] w' ty'].
  unfold street_json, point_json. cbn [street_start street_end street_width
    street_type p_x p_y]. intros H. injection H. intros. now subst.
Qed.

Lemma building_json_injective b b' : building_json b = building_json b' -> b = b'.
Proof.
  destruct b as [[bx by_] w h ty], b' as [[bx' by_'] w' h' ty'].
  unfold building_json, point_json. cbn [building_position building_width
    building_height building_type p_x p_y]. intros H. injection H. intros. now subst.
Qed.

Lemma river_json_injective r r' : river_json r = river_json r' -> r = r'.
Proof.
  destruct r as [pts w], r' as [pts' w'].
  unfold river_json. cbn [river_points river_width]. intros H.
  injection H as H1 ->.
  apply (map_injective _ point_json_injective) in H1. now subst.
Qed.

Lemma mountain_json_injective m m' : mountain_json m = mountain_json m' -> m = m'.
Proof.
  destruct m as [[cx cy] r h], m' as [[cx' cy'] r' h'].
  unfold mountain_json, point_json. cbn [mountain_center mountain_radius
    mountain_height p_x p_y]. intros H. injection H. intros. now subst.
Qed.

(** X26.  The data [save_city_data] writes determine the size of the city
    and its streets, buildings, rivers and mountains, in order and in full,
    and nothing else: two cities give the same data exactly when they agree
    on these six, whatever their districts. *)
Theorem city_data_determines (c1 c2 : t) :
  city_data c1 = city_data c2
  <-> width c1 = width c2 /\ height c1 = height c2
      /\ streets c1 = streets c2 /\ buildings c1 = buildings c2
      /\ rivers c1 = rivers c2 /\ mountains c1 = mountains c2.
Proof.
  unfold city_data. split.
  - intros H. injection H as Hw Hh Hs Hb Hr Hm.
    apply eq_IZR in Hw, Hh.
    apply (map_injective _ street_json_injective) in Hs.
    apply (map_injective _ building_json_injective) in Hb.
    apply (map_injective _ river_json_injective) in Hr.
    apply (map_injective _ mountain_json_injective) in Hm.
    now repeat split.
  - intros (-> & -> & -> & -> & -> & ->). reflexivity.
Qed.

End CityFacts.
